(** * mint-backgrounds updater: a shallow embedding of
      [scripts/download_backgrounds.py] and the properties of its
      change-detection and extraction pipeline.

    Conventions of the embedding.
    - A Python [str] is a Rocq [string]; its characters are 8-bit, so a
      non-ASCII name is its UTF-8 byte sequence.  [str.lower] maps the
      letters A-Z and the Kelvin sign; the other letters outside ASCII have
      no ASCII lowercase, and no test of the script tells whether they were
      mapped.
    - A Python [dict] keyed by strings is a [gmap string _].
    - Effects (files, clock, sleeping, exceptions) are threaded explicitly
      through a state-and-exception monad [M]; what the script prints is
      left out.
    - A directory is known by its normalized path.  The calls of the
      operating system inside [download_and_extract] and the [os.makedirs]
      of [check_and_download] fail when the environment says so.  The
      inventory file and the statistics are modelled on a machine where
      [versions.json], if it is there, is a document [save_versions] wrote,
      and where reading it, rewriting it and listing the output tree
      succeed; the image count and the total size are those of the regular
      files of the tree.
    - A download whose name leads out of its temporary directory is kept
      apart from the output tree; where it lands is not followed.  What is
      said of the tree or of the inventory file after such a download is
      what holds wherever it lands. *)

From Stdlib Require Import ZArith Lia List Bool.
From Stdlib Require Import Strings.Ascii Strings.String.
From stdpp Require Import base option list strings gmap fin_maps.

Local Open Scope Z_scope.

#[local] Arguments String.append : simpl nomatch.

(* ===================================================================== *)
(** * Part I: definitions                                                 *)
(* ===================================================================== *)

(** ** Python string primitives *)

Section PyStr.

Definition ascii_eqb (a b : ascii) : bool := Stdlib.Strings.Ascii.eqb a b.

(** [startswith p s] is [s.startswith(p)]. *)
Fixpoint startswith (p s : string) : bool :=
  match p, s with
  | EmptyString, _ => true
  | String _ _, EmptyString => false
  | String a p', String b s' => ascii_eqb a b && startswith p' s'
  end.

(** [endswith p s] is [s.endswith(p)]: some suffix of [s] equals [p]. *)
Fixpoint endswith (p s : string) : bool :=
  String.eqb p s ||
  match s with
  | EmptyString => false
  | String _ s' => endswith p s'
  end.

(** [str_in p s] is the Python test [p in s] (substring search). *)
Fixpoint str_in (p s : string) : bool :=
  startswith p s ||
  match s with
  | EmptyString => false
  | String _ s' => str_in p s'
  end.

(** [s.replace(old, empty)] for a non-empty [old]: scan from the left, drop
    every occurrence found, resume after it (occurrences do not overlap).
    [skip] counts the characters of the current occurrence still to drop. *)
Fixpoint remove_from (old : string) (skip : nat) (s : string) : string :=
  match s with
  | EmptyString => EmptyString
  | String c s' =>
      match skip with
      | S k => remove_from old k s'
      | O =>
          if startswith old s
          then remove_from old (Nat.pred (String.length old)) s'
          else String c (remove_from old 0 s')
      end
  end.

Definition str_remove (old s : string) : string := remove_from old 0 s.

(** [s.split(sep, 1)] for a one-character separator: at most one split,
    at the first occurrence of [sep]. *)
Fixpoint split1 (sep : ascii) (s : string) : list string :=
  match s with
  | EmptyString => [EmptyString]
  | String c s' =>
      if ascii_eqb c sep then [EmptyString; s']
      else match split1 sep s' with
           | l :: rest => String c l :: rest
           | [] => [String c EmptyString]
           end
  end.

Definition is_upper (c : ascii) : bool :=
  let n := nat_of_ascii c in (65 <=? n)%nat && (n <=? 90)%nat.

Definition is_lower (c : ascii) : bool :=
  let n := nat_of_ascii c in (97 <=? n)%nat && (n <=? 122)%nat.

Definition lower_char (c : ascii) : ascii :=
  if is_upper c then ascii_of_nat (nat_of_ascii c + 32) else c.

Definition upper_char (c : ascii) : ascii :=
  if is_lower c then ascii_of_nat (nat_of_ascii c - 32) else c.

(** The UTF-8 bytes E2 84 AA of the Kelvin sign U+212A, the one character
    outside ASCII whose lowercase is an ASCII letter alone. *)
Definition is_kelvin (c0 c1 c2 : ascii) : bool :=
  (nat_of_ascii c0 =? 226)%nat && (nat_of_ascii c1 =? 132)%nat
  && (nat_of_ascii c2 =? 170)%nat.

(** [s.lower()] *)
Fixpoint lower (s : string) : string :=
  match s with
  | EmptyString => EmptyString
  | String c s' =>
      match s' with
      | String c1 (String c2 s'') =>
          if is_kelvin c c1 c2 then String "k" (lower s'')
          else String (lower_char c) (lower s')
      | _ => String (lower_char c) (lower s')
      end
  end.

(** [s.capitalize()] *)
Definition capitalize (s : string) : string :=
  match s with
  | EmptyString => EmptyString
  | String c s' => String (upper_char c) (lower s')
  end.

End PyStr.

Arguments ascii_eqb : simpl never.

(** ** Version Key Resolver *)

Definition TAR_SUFFIX : string := ".tar.gz".
Definition FAMILY_PREFIX : string := "mint-backgrounds-".

(** [extract_version_info(tarball_name)].  The [nth] defaults stand for the
    [IndexError] of [parts[1]], which the guard on the underscore excludes. *)
Definition extract_version_info (tarball_name : string) : string * string :=
  let base := str_remove TAR_SUFFIX tarball_name in
  let base := str_remove FAMILY_PREFIX base in
  if str_in "_" base then
    let parts := split1 "_" base in
    (nth 0 parts EmptyString, nth 1 parts EmptyString)
  else (base, "unknown").

(** [normalize_package_name(name)] *)
Definition normalize_package_name (name : string) : string :=
  str_remove "-extra" name.

(** The key: package name, underscore, version. *)
Definition pkg_key (package_name version : string) : string :=
  package_name +:+ "_" +:+ version.

Definition version_key (tarball_name : string) : string :=
  let '(package_name, version) := extract_version_info tarball_name in
  pkg_key package_name version.

(** ** Exceptions *)

(** The exception classes the script can meet.  All of them are subclasses
    of [Exception]; [HTTPError] is a subclass of [URLError] and is tested
    first by [fetch_page]. *)
Inductive exn : Type :=
  | HTTPError (code : Z)
  | URLError
  | UnicodeDecodeError
  | ValueError
  | OverflowError
  | OSError
  | ReadError.

Inductive result (A : Type) : Type :=
  | Ok (a : A)
  | Raise (e : exn).
Arguments Ok {A} a.
Arguments Raise {A} e.

(** ** IEEE-754 binary64, as far as [parse_size] uses it

    A non-negative float is [Finite m e], of value [m * 2^e], or [Inf]. *)
Module Float64.

Inductive float : Type :=
  | Finite (m e : Z)
  | Inf.

(** Round to nearest, ties to even, of [a / b] for [0 <= a], [0 < b]. *)
Definition round_half_even (a b : Z) : Z :=
  let q := a / b in
  let r := a mod b in
  if 2 * r <? b then q
  else if b <? 2 * r then q + 1
  else if Z.even q then q else q + 1.

(** [floor (log2 (a / b))] for [0 < a], [0 < b]. *)
Definition floor_log2 (a b : Z) : Z :=
  let k := Z.log2 a - Z.log2 b in
  if b * 2 ^ Z.max k 0 <=? a * 2 ^ Z.max (- k) 0 then k else k - 1.

(** The double nearest to the rational [a / b]: 53 significant bits,
    exponent of the last place at least -1074, overflow to [Inf]. *)
Definition of_ratio (a b : Z) : float :=
  if a <=? 0 then Finite 0 0
  else
    let e := Z.max (floor_log2 a b - 52) (-1074) in
    let m := round_half_even (a * 2 ^ Z.max (- e) 0) (b * 2 ^ Z.max e 0) in
    if 2 ^ 1024 <=? m * 2 ^ Z.max e 0 then Inf else Finite m e.

(** [x * n] for a float [x] and a Python int [n >= 0] that converts
    exactly: the exact product, rounded. *)
Definition mul_int (x : float) (n : Z) : float :=
  match x with
  | Inf => Inf
  | Finite m e => of_ratio (m * n * 2 ^ Z.max e 0) (2 ^ Z.max (- e) 0)
  end.

(** [int(x)]: truncation; [OverflowError] on infinity. *)
Definition to_int (x : float) : result Z :=
  match x with
  | Inf => Raise OverflowError
  | Finite m e => Ok (m * 2 ^ Z.max e 0 / 2 ^ Z.max (- e) 0)
  end.

End Float64.

(** ** Size tokens *)

Definition is_digit (c : ascii) : bool :=
  let n := nat_of_ascii c in (48 <=? n)%nat && (n <=? 57)%nat.

Definition digit_val (c : ascii) : Z := Z.of_nat (nat_of_ascii c) - 48.

(** The character class [[0-9.]]. *)
Definition is_numeric_char (c : ascii) : bool := is_digit c || ascii_eqb c ".".

(** The character class [[MKG]]. *)
Definition is_unit_char (c : ascii) : bool :=
  ascii_eqb c "M" || ascii_eqb c "K" || ascii_eqb c "G".

(** The greedy [[0-9.]+] at the start of [s]: the longest run and the rest. *)
Fixpoint span_numeric (s : string) : string * string :=
  match s with
  | EmptyString => (EmptyString, EmptyString)
  | String c s' =>
      if is_numeric_char c
      then let '(run, rest) := span_numeric s' in (String c run, rest)
      else (EmptyString, s)
  end.

(** [re.match] of the size pattern [([0-9.]+)([MKG])] on [s]: the two
    groups.  The run cannot give characters back, since none of them is a
    unit letter. *)
Definition match_size (s : string) : option (string * ascii) :=
  match span_numeric s with
  | (String c run, String u _) =>
      if is_unit_char u then Some (String c run, u) else None
  | _ => None
  end.

(** Reading a string of digits and dots as a decimal: the digits seen so far
    as an integer [acc], the number of dots [dots], of digits [digs], and of
    digits after the first dot [frac]. *)
Fixpoint scan_decimal (s : string) (acc : Z) (dots digs frac : nat)
  : Z * nat * nat * nat :=
  match s with
  | EmptyString => (acc, dots, digs, frac)
  | String c s' =>
      if is_digit c
      then scan_decimal s' (10 * acc + digit_val c) dots (S digs)
             (if (0 <? dots)%nat then S frac else frac)
      else scan_decimal s' acc (S dots) digs frac
  end.

(** [float(s)] for [s] made of digits and dots: at most one dot and at least
    one digit, otherwise [ValueError]. *)
Definition float_of_str (s : string) : result Float64.float :=
  let '(acc, dots, digs, frac) := scan_decimal s 0 0%nat 0%nat 0%nat in
  if ((dots <=? 1)%nat && (1 <=? digs)%nat)%bool
  then Ok (Float64.of_ratio acc (10 ^ Z.of_nat frac))
  else Raise ValueError.

(** [multipliers.get(unit, 1)] *)
Definition multiplier (unit : ascii) : Z :=
  if ascii_eqb unit "K" then 1024
  else if ascii_eqb unit "M" then 1024 ^ 2
  else if ascii_eqb unit "G" then 1024 ^ 3
  else 1.

(** [parse_size(size_str)] *)
Definition parse_size (size_str : string) : result Z :=
  match size_str with
  | EmptyString => Ok 0
  | _ =>
      match match_size size_str with
      | None => Ok 0
      | Some (num, unit) =>
          match float_of_str num with
          | Raise e => Raise e
          | Ok value => Float64.to_int (Float64.mul_int value (multiplier unit))
          end
      end
  end.

Definition MIN_SIZE_MB : Z := 13.
Definition MIN_SIZE_BYTES : Z := MIN_SIZE_MB * 1024 * 1024.

(** ** The data model *)

(** A regular file: its bytes and the metadata [shutil.copy2] preserves. *)
Record file : Type := { f_data : string; f_mtime : Z }.

(** [os.path.getsize] *)
Definition getsize (f : file) : Z := Z.of_nat (String.length (f_data f)).

Record TarballEntry : Type := {
  name : string;
  url : string;
  size_bytes : Z;
  size_str : string
}.

(** One inventory entry.  [downloaded_at] is the clock reading that
    [datetime.utcnow().isoformat()] renders. *)
Record InventoryRecord : Type := {
  rec_name : string;
  rec_version : string;
  rec_size : string;
  rec_downloaded_at : Z
}.

(** The derived statistics that [save_versions] recomputes.  Sizes and
    release numbers are in tenths ([17.1] is [171]). *)
Record Stats : Type := {
  total_packages : nat;
  total_images : nat;
  total_size_mb : Z;
  latest_mint_release : option string;
  latest_mint_version : Z
}.

(** The JSON document of [versions.json]; a field is [None] when its key is
    absent (or [null], for [last_checked]). *)
Record InventoryFile : Type := {
  packages : option (gmap string InventoryRecord);
  last_checked : option Z;
  stats : option Stats
}.

(** [time.sleep] arguments: the jittered request delay
    [REQUEST_DELAY + random.uniform(0, 0.5)], or a whole number of seconds. *)
Inductive delay : Type :=
  | Jitter
  | Seconds (n : Z).

(** The machine the script runs on.
    - [w_versions]: the document in [VERSIONS_FILE], if the file exists (a
      file there is taken to hold well-formed JSON);
    - [w_dirs]: the directories of the output tree, by normalized path, each
      with the regular files in it;
    - [w_tmp]: the live temporary directories, each with the names in it;
    - [w_clock]: the clock; [w_sleeps]: the calls of [time.sleep], in order;
    - [w_strays]: the downloads written outside their temporary directory,
      by the name that led there, in order. *)
Record World : Type := {
  w_versions : option InventoryFile;
  w_dirs : gmap string (gmap string file);
  w_tmp : gmap nat (gset string);
  w_clock : Z;
  w_sleeps : list delay;
  w_strays : list string
}.

(** One entry of the [files] lists of [os.walk(extract_dir)]: the directory
    it is in, its name, whether it is a symbolic link, the file itself, and
    the exception [shutil.copy2] raises on it, if any. *)
Record member : Type := {
  m_root : string;
  m_name : string;
  m_islink : bool;
  m_file : file;
  m_copy_error : option exn
}.

(** What the bytes of a download are to [tarfile]: not a gzipped tar, or a
    tar after whose extraction [os.walk(extract_dir)] lists these files, in
    this order (the saved download among them, should its name have put it
    there). *)
Inductive archive : Type :=
  | Corrupt
  | Tar (members : list member).

(** What one [urlopen(...).read()] gives, for a page; for a download, what
    [urlopen] gives. *)
Inductive attempt (A : Type) : Type :=
  | Respond (body : A)
  | Fails (e : exn).
Arguments Respond {A} body.
Arguments Fails {A} e.

(** Everything the script does not decide: the server, per URL and attempt
    number of [fetch_page]; the archive behind a download URL; the [re]
    engine on the three patterns of the Listing Parser; and the verdicts of
    the operating system on the calls of the Archive Processor. *)
Record Env : Type := {
  net_page : string -> nat -> attempt string;
  net_archive : string -> attempt archive;
  (** the exception with which [f.write(response.read())] ends on the open
      response of a download, if it raises *)
  net_read_error : string -> option exn;
  (** the exception with which [os.makedirs] ends when the directory of
      this path cannot be created in this tree (a regular file is in the
      way, a permission is missing), if it cannot *)
  os_mkdir : string -> gmap string (gmap string file) -> option exn;
  (** the exception [open(path, 'wb')] raises when the download path leaves
      the temporary directory under this name, if it raises *)
  os_open_outside : string -> option exn;
  (** [re.findall(pattern, content)] for the directory-link pattern *)
  re_findall_dirs : string -> list string;
  (** the iteration of [set(re.findall(tarball_pattern, content))] *)
  re_tarball_set : string -> list string;
  (** group 1 of [re.search(size_pattern, content, re.DOTALL)], where
      [size_pattern] is built from the tarball name *)
  re_search_size : string -> string -> option string
}.

(** ** The state-and-exception monad *)

Definition M (A : Type) : Type := World -> result A * World.

Definition ret {A} (a : A) : M A := fun w => (Ok a, w).

Definition raise {A} (e : exn) : M A := fun w => (Raise e, w).

Definition bind {A B} (m : M A) (k : A -> M B) : M B :=
  fun w =>
    match m w with
    | (Ok a, w') => k a w'
    | (Raise e, w') => (Raise e, w')
    end.

(** [try: m  except ...: h e] *)
Definition try_except {A} (m : M A) (h : exn -> M A) : M A :=
  fun w =>
    match m w with
    | (Ok a, w') => (Ok a, w')
    | (Raise e, w') => h e w'
    end.

Definition lift {A} (r : result A) : M A := fun w => (r, w).

Declare Scope m_scope.
Delimit Scope m_scope with M.
Notation "x <- m ;; k" := (bind m (fun x => k))
  (at level 100, m at next level, right associativity) : m_scope.
Notation "m ;; k" := (bind m (fun _ => k))
  (at level 100, right associativity) : m_scope.
Local Open Scope m_scope.

(** [for x in xs: acc = body(acc, x)] *)
Fixpoint for_each {A S} (xs : list A) (body : S -> A -> M S) (acc : S) : M S :=
  match xs with
  | [] => ret acc
  | x :: xs' => acc' <- body acc x ;; for_each xs' body acc'
  end.

Definition sleep (d : delay) : M unit :=
  fun w => (Ok tt, {| w_versions := w_versions w; w_dirs := w_dirs w;
                      w_tmp := w_tmp w; w_clock := w_clock w;
                      w_sleeps := w_sleeps w ++ [d];
                      w_strays := w_strays w |}).

(** [datetime.utcnow()]: reads the clock, which then moves on. *)
Definition utcnow : M Z :=
  fun w => (Ok (w_clock w),
            {| w_versions := w_versions w; w_dirs := w_dirs w;
               w_tmp := w_tmp w; w_clock := w_clock w + 1;
               w_sleeps := w_sleeps w; w_strays := w_strays w |}).

(** ** HTTP Fetcher *)

Definition BASE_URL : string := "http://packages.linuxmint.com/pool/main/m".
Definition VERSIONS_FILE : string := "versions.json".
Definition OUTPUT_DIR : string := "mint-backgrounds".
Definition MAX_RETRIES : nat := 3.
Definition RETRY_DELAY : Z := 5.

(** Strict UTF-8: [need] continuation bytes are still due, the next of them
    in the range [lo..hi]. *)
Fixpoint utf8_ok (s : string) (need : nat) (lo hi : N) : bool :=
  match s with
  | EmptyString => (need =? 0)%nat
  | String c s' =>
      let b := N_of_ascii c in
      match need with
      | O =>
          if (b <? 128)%N then utf8_ok s' 0 128 191
          else if ((194 <=? b) && (b <=? 223))%N then utf8_ok s' 1 128 191
          else if (b =? 224)%N then utf8_ok s' 2 160 191
          else if (b =? 237)%N then utf8_ok s' 2 128 159
          else if ((225 <=? b) && (b <=? 239))%N then utf8_ok s' 2 128 191
          else if (b =? 240)%N then utf8_ok s' 3 144 191
          else if ((241 <=? b) && (b <=? 243))%N then utf8_ok s' 3 128 191
          else if (b =? 244)%N then utf8_ok s' 3 128 143
          else false
      | S k => ((lo <=? b) && (b <=? hi))%N && utf8_ok s' k 128 191
      end
  end.

(** [body.decode("utf-8")] *)
Definition decode_utf8 (body : string) : result string :=
  if utf8_ok body 0 128 191 then Ok body else Raise UnicodeDecodeError.

(** ** World updates *)

Definition set_versions (v : option InventoryFile) (w : World) : World :=
  {| w_versions := v; w_dirs := w_dirs w; w_tmp := w_tmp w;
     w_clock := w_clock w; w_sleeps := w_sleeps w; w_strays := w_strays w |}.

Definition set_dirs (d : gmap string (gmap string file)) (w : World) : World :=
  {| w_versions := w_versions w; w_dirs := d; w_tmp := w_tmp w;
     w_clock := w_clock w; w_sleeps := w_sleeps w; w_strays := w_strays w |}.

Definition set_tmp (t : gmap nat (gset string)) (w : World) : World :=
  {| w_versions := w_versions w; w_dirs := w_dirs w; w_tmp := t;
     w_clock := w_clock w; w_sleeps := w_sleeps w; w_strays := w_strays w |}.

Definition set_strays (l : list string) (w : World) : World :=
  {| w_versions := w_versions w; w_dirs := w_dirs w; w_tmp := w_tmp w;
     w_clock := w_clock w; w_sleeps := w_sleeps w; w_strays := l |}.

(** [os.path.join(a, b)] *)
Definition path_join (a b : string) : string :=
  if startswith "/" b then b
  else if String.eqb a EmptyString || endswith "/" a then a +:+ b
  else a +:+ "/" +:+ b.

(** [path.split("/")]: the names between the slashes. *)
Fixpoint split_path (path : string) : list string :=
  match path with
  | EmptyString => [EmptyString]
  | String c s' =>
      if ascii_eqb c "/" then EmptyString :: split_path s'
      else match split_path s' with
           | l :: rest => String c l :: rest
           | [] => [String c EmptyString]
           end
  end.

(** The names that stay where they are ([""] between two slashes, ["."])
    and the name of the parent. *)
Definition stays (c : string) : bool :=
  String.eqb c EmptyString || String.eqb c ".".

Definition PARENT : string := "..".

(** One name further along a path.  The place reached so far is the list
    of the names that lead there, the innermost first; [absolute] tells
    whether they start from the root. *)
Definition enter (absolute : bool) (place : list string) (c : string)
  : list string :=
  if stays c then place
  else if String.eqb c PARENT then
    match place with
    | [] => if absolute then [] else [PARENT]
    | top :: rest => if String.eqb top PARENT then c :: place else rest
    end
  else c :: place.

(** ["/".join(names)] *)
Fixpoint join_names (names : list string) : string :=
  match names with
  | [] => EmptyString
  | [n] => n
  | n :: rest => n +:+ "/" +:+ join_names rest
  end.

(** The normalized path of a place. *)
Definition render (absolute : bool) (place : list string) : string :=
  match place with
  | [] => if absolute then "/" else "."
  | _ :: _ =>
      if absolute then "/" +:+ join_names (rev place) else join_names (rev place)
  end.

(** The name under which the tree knows the directory [path]: what
    [os.path.normpath(path)] gives, with one slash in front of an
    absolute path. *)
Definition normpath (path : string) : string :=
  let absolute := startswith "/" path in
  render absolute (fold_left (enter absolute) (split_path path) []).

(** The directories that are entered by name on the way along [names],
    the outermost first: those [os.makedirs] creates when they are
    missing. *)
Fixpoint entered (absolute : bool) (place : list string) (names : list string)
  : list string :=
  match names with
  | [] => []
  | c :: rest =>
      let place' := enter absolute place c in
      if stays c || String.eqb c PARENT then entered absolute place' rest
      else render absolute place' :: entered absolute place' rest
  end.

Definition dir_keys (path : string) : list string :=
  entered (startswith "/" path) [] (split_path path).

(** Writing [f] under [name] in the directory [dir], replacing what was
    there. *)
Definition write_file (dir name : string) (f : file)
    (dirs : gmap string (gmap string file)) : gmap string (gmap string file) :=
  <[dir := <[name := f]> (default ∅ (dirs !! dir))]> dirs.

(** [shutil.copy2(src, os.path.join(dir, name))] for the extracted file
    [src]: the file and its metadata land under [name] in [dir]. *)
Definition copy2 (src : member) (dir name : string) : M unit :=
  match m_copy_error src with
  | Some e => raise e
  | None =>
      fun w =>
        (Ok tt,
         set_dirs (write_file (normpath dir) name (m_file src) (w_dirs w)) w)
  end.

(** [with tempfile.TemporaryDirectory() as tmpdir: body]: a fresh directory,
    removed with all it holds when the block is left, normally or not. *)
Definition with_tempdir {A} (body : nat -> M A) : M A :=
  fun w =>
    let tmpdir := fresh (dom (w_tmp w)) in
    let '(r, w') := body tmpdir (set_tmp (<[tmpdir := ∅]> (w_tmp w)) w) in
    (r, set_tmp (delete tmpdir (w_tmp w')) w').

(** Creating the entry [entry] in the temporary directory [tmpdir]. *)
Definition tmp_create (tmpdir : nat) (entry : string) : M unit :=
  fun w =>
    (Ok tt,
     set_tmp (<[tmpdir := {[entry]} ∪ default ∅ (w_tmp w !! tmpdir)]> (w_tmp w)) w).

(** A write that ends outside the temporary directory. *)
Definition stray (entry : string) : M unit :=
  fun w => (Ok tt, set_strays (w_strays w ++ [entry]) w).

(** Where [os.path.join(tmpdir, name)] points when the file is opened for
    writing: in the temporary directory (in it or in its one directory
    [extracted], which is empty), outside it, or at nothing that can be
    opened (a directory, or a file in a directory that is not there). *)
Inductive landing : Type :=
  | Inside
  | Outside
  | Refused.

(** The walk along the names of a relative path, [depth] directories
    below the temporary directory. *)
Fixpoint land (depth : nat) (names : list string) : landing :=
  match names with
  | [] => Refused
  | c :: rest =>
      match rest with
      | [] =>
          if stays c || String.eqb c PARENT then Refused
          else if (depth =? 0)%nat && String.eqb c "extracted" then Refused
          else Inside
      | _ :: _ =>
          if stays c then land depth rest
          else if String.eqb c PARENT then
            match depth with
            | O => Outside
            | S d => land d rest
            end
          else if (depth =? 0)%nat && String.eqb c "extracted" then land 1 rest
          else Refused
      end
  end.

Definition landing_of (tarball_name : string) : landing :=
  if startswith "/" tarball_name then Outside
  else land 0 (split_path tarball_name).

(** ** Inventory Store *)

(** [load_versions()] *)
Definition load_versions : M InventoryFile :=
  fun w =>
    match w_versions w with
    | Some doc => (Ok doc, w)
    | None => (Ok {| packages := Some ∅; last_checked := None; stats := None |}, w)
    end.

Definition image_extensions : list string := [".jpg"; ".jpeg"; ".png"; ".svg"].

(** Mint release names and their version numbers, in tenths. *)
Definition mint_releases : list (string * Z) :=
  [("katya", 110); ("lisa", 120); ("maya", 130); ("nadia", 140);
   ("olivia", 150); ("petra", 160); ("qiana", 170); ("rafaela", 171);
   ("rebecca", 172); ("rosa", 173); ("sarah", 180); ("serena", 181);
   ("sonya", 182); ("sylvia", 183); ("tara", 190); ("tessa", 191);
   ("tina", 192); ("tricia", 193); ("ulyana", 200); ("ulyssa", 201);
   ("uma", 202); ("una", 203); ("vanessa", 210); ("vera", 211);
   ("victoria", 212); ("virginia", 213); ("wilma", 220)].

Fixpoint assoc (k : string) (l : list (string * Z)) : option Z :=
  match l with
  | [] => None
  | (k', v) :: l' => if String.eqb k k' then Some v else assoc k l'
  end.

(** The extension of [s] when a character other than a dot precedes its
    last dot ([seen]: such a character came before [s]). *)
Fixpoint last_ext (s : string) (seen : bool) : option string :=
  match s with
  | EmptyString => None
  | String c s' =>
      match last_ext s' (seen || negb (ascii_eqb c ".")) with
      | Some e => Some e
      | None => if ascii_eqb c "." && seen then Some s else None
      end
  end.

(** [os.path.splitext(file)[1]] for a name without separators. *)
Definition splitext_ext (file : string) : string :=
  default EmptyString (last_ext file false).

Fixpoint strip_prefix (p s : string) : option string :=
  match p, s with
  | EmptyString, _ => Some s
  | String _ _, EmptyString => None
  | String a p', String b s' =>
      if ascii_eqb a b then strip_prefix p' s' else None
  end.

(** The [item] for which [path] is [os.path.join(base, item)], a directory
    directly below [base]. *)
Definition child_name (base path : string) : option string :=
  match strip_prefix (base +:+ "/") path with
  | Some item =>
      if String.eqb item EmptyString || str_in "/" item then None else Some item
  | None => None
  end.

(** The running totals of [save_versions]:
    [(total_images, total_size_bytes, latest_name, latest_version)]. *)
Definition totals : Type := nat * Z * option string * Z.

Definition count_file (acc : nat * Z) (entry : string * file) : nat * Z :=
  let '(total_images, total_size_bytes) := acc in
  let ext := lower (splitext_ext entry.1) in
  if existsb (String.eqb ext) image_extensions
  then (S total_images, total_size_bytes + getsize entry.2)
  else acc.

Definition count_item (acc : totals) (entry : string * gmap string file) : totals :=
  let '(total_images, total_size_bytes, latest_name, latest_version) := acc in
  match child_name OUTPUT_DIR entry.1 with
  | None => acc
  | Some item =>
      let name := lower item in
      let '(latest_name, latest_version) :=
        match assoc name mint_releases with
        | Some v =>
            if latest_version <? v then (Some (capitalize item), v)
            else (latest_name, latest_version)
        | None => (latest_name, latest_version)
        end in
      let '(total_images, total_size_bytes) :=
        fold_left count_file (map_to_list entry.2) (total_images, total_size_bytes) in
      (total_images, total_size_bytes, latest_name, latest_version)
  end.

(** The summary statistics, from the output tree as it is. *)
Definition summary (data : InventoryFile) (dirs : gmap string (gmap string file))
  : Stats :=
  let '(total_images, total_size_bytes, latest_name, latest_version) :=
    match dirs !! OUTPUT_DIR with
    | Some _ => fold_left count_item (map_to_list dirs) (0%nat, 0, None, 0)
    | None => (0%nat, 0, None, 0)
    end in
  {| total_packages := size (default ∅ (packages data));
     total_images := total_images;
     total_size_mb := Float64.round_half_even (total_size_bytes * 10) (1024 * 1024);
     latest_mint_release := latest_name;
     latest_mint_version := latest_version |}.

(** [save_versions(data)] *)
Definition save_versions (data : InventoryFile) : M unit :=
  now <- utcnow ;;
  fun w =>
    (Ok tt,
     set_versions (Some {| packages := packages data;
                           last_checked := Some now;
                           stats := Some (summary data (w_dirs w)) |}) w).

Section Pipeline.

Variable env : Env.

(** The body of the [try] of [fetch_page]: sleep, open, read, decode. *)
Definition fetch_once (url : string) (attempt : nat) : M string :=
  sleep Jitter ;;
  match net_page env url attempt with
  | Fails e => raise e
  | Respond body => lift (decode_utf8 body)
  end.

(** The iterations [attempt, attempt + 1, ...] of the loop of
    [fetch_page], [todo] of them.  One iteration gives [Some text] for a
    [return text] and [None] to go on to the next. *)
Fixpoint fetch_loop (url : string) (todo attempt : nat) : M string :=
  match todo with
  | O => ret EmptyString
  | S todo' =>
      r <- try_except (text <- fetch_once url attempt ;; ret (Some text))
             (fun e =>
                match e with
                | HTTPError code =>
                    if (code =? 429) || (code =? 503) then
                      sleep (Seconds (RETRY_DELAY * (Z.of_nat attempt + 1))) ;;
                      ret None
                    else ret (Some EmptyString)
                | URLError =>
                    if (attempt <? MAX_RETRIES - 1)%nat then
                      sleep (Seconds (RETRY_DELAY * (Z.of_nat attempt + 1))) ;;
                      ret None
                    else ret (Some EmptyString)
                | _ => raise e
                end) ;;
      match r with
      | Some text => ret text
      | None => fetch_loop url todo' (S attempt)
      end
  end.

(** [fetch_page(url)] *)
Definition fetch_page (url : string) : M string :=
  fetch_loop url MAX_RETRIES 0.

(** ** Listing Parser *)

(** [sorted(set(xs))]: insertion into a strictly increasing list. *)
Fixpoint insert_sorted (x : string) (xs : list string) : list string :=
  match xs with
  | [] => [x]
  | y :: ys =>
      if String.eqb x y then xs
      else if String.ltb x y then x :: xs
      else y :: insert_sorted x ys
  end.

Definition sorted_set (xs : list string) : list string :=
  fold_right insert_sorted [] xs.

(** [get_package_directories()] *)
Definition get_package_directories : M (list string) :=
  content <- fetch_page (BASE_URL +:+ "/") ;;
  ret (sorted_set (re_findall_dirs env content)).

(** [get_tarballs_for_package(package_dir)] *)
Definition get_tarballs_for_package (package_dir : string)
  : M (list TarballEntry) :=
  content <- fetch_page (BASE_URL +:+ "/" +:+ package_dir +:+ "/") ;;
  for_each (re_tarball_set env content)
    (fun tarballs tarball =>
       let size_str :=
         match re_search_size env tarball content with
         | Some tok => tok
         | None => "0M"
         end in
       size_bytes <- lift (parse_size size_str) ;;
       ret (tarballs ++
            [{| name := tarball;
                url := BASE_URL +:+ "/" +:+ package_dir +:+ "/" +:+ tarball;
                size_bytes := size_bytes;
                size_str := size_str |}]))
    [].

(** ** Archive Processor *)

(** [any(file_lower.endswith(ext) for ext in image_extensions)] *)
Definition is_image (file_lower : string) : bool :=
  existsb (fun ext => endswith ext file_lower) image_extensions.

(** The body of the loop over the extracted files. *)
Definition copy_member (output_dir package_name : string) (m : member)
  : M unit :=
  let file := m_name m in
  let file_lower := lower file in
  if m_islink m then ret tt
  else if is_image file_lower then
    if str_in "screenshot" file_lower then ret tt
    else copy2 m output_dir file
  else if str_in "credits" file_lower then
    let credits_name := "Credits_" +:+ package_name in
    copy2 m output_dir credits_name
  else ret tt.

(** [os.mkdir] of the directory known as [key], inside [os.makedirs]: a
    directory that is there is left as it is. *)
Definition mkdir (key : string) : M unit :=
  fun w =>
    match w_dirs w !! key with
    | Some _ => (Ok tt, w)
    | None =>
        match os_mkdir env key (w_dirs w) with
        | Some e => (Raise e, w)
        | None => (Ok tt, set_dirs (<[key := ∅]> (w_dirs w)) w)
        end
    end.

(** [os.makedirs(path, exist_ok=True)]: the directories on the way are
    created as far as they are missing, the outermost first; the empty path
    names no directory. *)
Definition makedirs (path : string) : M unit :=
  if String.eqb path EmptyString then raise OSError
  else for_each (dir_keys path) (fun _ key => mkdir key) tt.

(** [open(tarball_path, 'wb')], where [tarball_path] is
    [os.path.join(tmpdir, tarball_name)]. *)
Definition open_download (tmpdir : nat) (tarball_name : string) : M unit :=
  match landing_of tarball_name with
  | Inside => tmp_create tmpdir tarball_name
  | Refused => raise OSError
  | Outside =>
      match os_open_outside env tarball_name with
      | Some e => raise e
      | None => stray tarball_name
      end
  end.

(** [urlopen(request, timeout=60)], the opening of [tarball_path] and the
    write of [response.read()] to it. *)
Definition download_to (tmpdir : nat) (tarball_name url : string) : M archive :=
  match net_archive env url with
  | Fails e => raise e
  | Respond a =>
      open_download tmpdir tarball_name ;;
      match net_read_error env url with
      | Some e => raise e
      | None => ret a
      end
  end.

(** [tarfile.open(tarball_path, "r:gz")] and [tar.extractall(extract_dir)],
    then what [os.walk(extract_dir)] lists. *)
Definition extractall (a : archive) : M (list member) :=
  match a with
  | Corrupt => raise ReadError
  | Tar members => ret members
  end.

(** The body of the [try] of [download_and_extract]. *)
Definition extract_images (tmpdir : nat) (tarball_name url : string)
    (output_base package_name combined_name : string) : M bool :=
  sleep Jitter ;;
  a <- download_to tmpdir tarball_name url ;;
  members <- extractall a ;;
  let output_dir := path_join output_base combined_name in
  makedirs output_dir ;;
  for_each members (fun _ m => copy_member output_dir package_name m) tt ;;
  ret true.

(** [download_and_extract(tarball_info, output_base)] *)
Definition download_and_extract (tarball_info : TarballEntry)
    (output_base : string) : M bool :=
  let tarball_name := name tarball_info in
  let url := url tarball_info in
  let '(package_name, version) := extract_version_info tarball_name in
  let combined_name := normalize_package_name package_name in
  with_tempdir (fun tmpdir =>
    tmp_create tmpdir "extracted" ;;
    try_except
      (extract_images tmpdir tarball_name url
         output_base package_name combined_name)
      (fun e => ret false)).

(** ** Update Orchestrator *)

(** [package_name in [extract_version_info(k)[0] for k in existing_packages]] *)
Definition known_package (existing_packages : gmap string InventoryRecord)
    (package_name : string) : bool :=
  existsb (String.eqb package_name)
    (map (fun k => (extract_version_info k).1) (map_to_list existing_packages).*1).

(** The body of the loop over the tarballs of one directory; the state is
    [(new_packages, updated_packages)]. *)
Definition scan_tarball (existing_packages : gmap string InventoryRecord)
    (queues : list TarballEntry * list TarballEntry) (tarball : TarballEntry)
  : list TarballEntry * list TarballEntry :=
  let '(new_packages, updated_packages) := queues in
  if size_bytes tarball <? MIN_SIZE_BYTES then queues
  else
    let tarball_name := name tarball in
    let '(package_name, version) := extract_version_info tarball_name in
    let pkg_key := pkg_key package_name version in
    match existing_packages !! pkg_key with
    | Some _ => queues
    | None =>
        if known_package existing_packages package_name
        then (new_packages, updated_packages ++ [tarball])
        else (new_packages ++ [tarball], updated_packages)
    end.

(** The first half of [check_and_download]: load the inventory, list the
    remote, fill the two queues. *)
Definition check_for_updates
  : M (InventoryFile * (list TarballEntry * list TarballEntry)) :=
  versions <- load_versions ;;
  let existing_packages := default ∅ (packages versions) in
  package_dirs <- get_package_directories ;;
  queues <- for_each package_dirs
              (fun queues pkg_dir =>
                 tarballs <- get_tarballs_for_package pkg_dir ;;
                 ret (fold_left (scan_tarball existing_packages) tarballs queues))
              ([], []) ;;
  ret (versions, queues).

(** The body of the download loop; the state is [existing_packages]. *)
Definition process_tarball (existing_packages : gmap string InventoryRecord)
    (tarball : TarballEntry) : M (gmap string InventoryRecord) :=
  ok <- download_and_extract tarball OUTPUT_DIR ;;
  if ok : bool then
    let '(package_name, version) := extract_version_info (name tarball) in
    let pkg_key := pkg_key package_name version in
    now <- utcnow ;;
    ret (<[pkg_key := {| rec_name := name tarball;
                         rec_version := version;
                         rec_size := size_str tarball;
                         rec_downloaded_at := now |}]> existing_packages)
  else ret existing_packages.

(** [check_and_download()] *)
Definition check_and_download : M bool :=
  checked <- check_for_updates ;;
  let '(versions, (new_packages, updated_packages)) := checked in
  let existing_packages := default ∅ (packages versions) in
  let all_new := new_packages ++ updated_packages in
  match all_new with
  | [] => save_versions versions ;; ret false
  | _ :: _ =>
      makedirs OUTPUT_DIR ;;
      existing_packages <- for_each all_new process_tarball existing_packages ;;
      save_versions {| packages := Some existing_packages;
                       last_checked := last_checked versions;
                       stats := stats versions |} ;;
      ret true
  end.

(** The test of the inner loop of [has_updates]. *)
Definition is_update (existing_packages : gmap string InventoryRecord)
    (tarball : TarballEntry) : bool :=
  if size_bytes tarball <? MIN_SIZE_BYTES then false
  else
    let '(package_name, version) := extract_version_info (name tarball) in
    let pkg_key := pkg_key package_name version in
    match existing_packages !! pkg_key with
    | Some _ => false
    | None => true
    end.

(** The loop over the directories of [has_updates], left at the first
    update found. *)
Fixpoint any_update (existing_packages : gmap string InventoryRecord)
    (package_dirs : list string) : M bool :=
  match package_dirs with
  | [] => ret false
  | pkg_dir :: rest =>
      tarballs <- get_tarballs_for_package pkg_dir ;;
      if existsb (is_update existing_packages) tarballs then ret true
      else any_update existing_packages rest
  end.

(** [has_updates()] *)
Definition has_updates : M bool :=
  versions <- load_versions ;;
  let existing_packages := default ∅ (packages versions) in
  package_dirs <- get_package_directories ;;
  any_update existing_packages package_dirs.

End Pipeline.

(** ** Vocabulary of the statements *)

(** The outcomes of one attempt that the handlers of [fetch_page] deal
    with: a body that decodes, an [HTTPError], a [URLError]. *)
Definition handled (a : attempt string) : bool :=
  match a with
  | Respond body => utf8_ok body 0 128 191
  | Fails (HTTPError _) => true
  | Fails URLError => true
  | Fails _ => false
  end.

(** The outcomes after which [fetch_page] tries again. *)
Definition retryable (a : attempt string) : bool :=
  match a with
  | Fails (HTTPError code) => (code =? 429) || (code =? 503)
  | Fails URLError => true
  | _ => false
  end.

(** The sleeps of [n] failed attempts, each followed by its back-off. *)
Definition backoff_log (n : nat) : list delay :=
  concat (map (fun i => [Jitter; Seconds (RETRY_DELAY * (Z.of_nat i + 1))]) (seq 0 n)).

Definition add_sleeps (ds : list delay) (w : World) : World :=
  {| w_versions := w_versions w; w_dirs := w_dirs w; w_tmp := w_tmp w;
     w_clock := w_clock w; w_sleeps := w_sleeps w ++ ds;
     w_strays := w_strays w |}.

(** The relation [R] holds between the world before and the world after
    every run of [m]. *)
Definition preserves (R : World -> World -> Prop) {A} (m : M A) : Prop :=
  forall w, R w (m w).2.

(** The result of [m] does not depend on the world it starts in. *)
Definition oblivious {A} (m : M A) : Prop := forall w1 w2, (m w1).1 = (m w2).1.


(** The three tests of the loop of [download_and_extract] on one file. *)
Definition plain_image (m : member) : bool :=
  negb (m_islink m) && is_image (lower (m_name m))
  && negb (str_in "screenshot" (lower (m_name m))).

Definition plain_credits (m : member) : bool :=
  negb (m_islink m) && negb (is_image (lower (m_name m)))
  && str_in "credits" (lower (m_name m)).

(** The name under which the loop copies [m], if it copies it. *)
Definition copy_target (package_name : string) (m : member) : option string :=
  if plain_image m then Some (m_name m)
  else if plain_credits m then Some ("Credits_" +:+ package_name)
  else None.


(** The world after a computation that only writes to the output tree. *)
Definition only_dirs (w w' : World) : Prop :=
  w_versions w' = w_versions w /\ w_tmp w' = w_tmp w
  /\ w_clock w' = w_clock w /\ w_sleeps w' = w_sleeps w
  /\ w_strays w' = w_strays w.

(** The world after a computation that only sleeps. *)
Definition only_sleeps (w w' : World) : Prop :=
  w_versions w' = w_versions w /\ w_dirs w' = w_dirs w
  /\ w_tmp w' = w_tmp w /\ w_clock w' = w_clock w
  /\ w_strays w' = w_strays w.

(** The tree [dirs'] is the tree [dirs] with some of the directories [keys]
    added to it, empty. *)
Definition adds_dirs (keys : list string)
    (dirs dirs' : gmap string (gmap string file)) : Prop :=
  forall d,
    dirs' !! d = dirs !! d
    \/ (In d keys /\ dirs !! d = None /\ dirs' !! d = Some ∅).

(** No exception. *)
Definition succeeds {A} (r : result A) : bool :=
  match r with
  | Ok _ => true
  | Raise _ => false
  end.

(** [open(tarball_path, 'wb')] raises nothing for this tarball name. *)
Definition opens (env : Env) (tarball_name : string) : bool :=
  match landing_of tarball_name with
  | Inside => true
  | Refused => false
  | Outside =>
      match os_open_outside env tarball_name with
      | None => true
      | Some _ => false
      end
  end.

(** The download of [tarball_info] is saved: its path can be opened and
    the response can be read. *)
Definition saved (env : Env) (tarball_info : TarballEntry) : bool :=
  opens env (name tarball_info)
  && match net_read_error env (url tarball_info) with
     | None => true
     | Some _ => false
     end.

(** What a call of [download_and_extract] leaves outside its temporary
    directory. *)
Definition left_outside (env : Env) (tarball_info : TarballEntry) : list string :=
  match net_archive env (url tarball_info), landing_of (name tarball_info) with
  | Respond _, Outside =>
      match os_open_outside env (name tarball_info) with
      | None => [name tarball_info]
      | Some _ => []
      end
  | _, _ => []
  end.

(** The path [download_and_extract] makes for its output directory, and
    the directory it copies into. *)
Definition output_path (tarball_info : TarballEntry) (output_base : string)
  : string :=
  path_join output_base
    (normalize_package_name (extract_version_info (name tarball_info)).1).

Definition output_dir_of (tarball_info : TarballEntry) (output_base : string)
  : string :=
  normpath (output_path tarball_info output_base).

(** The document [load_versions] returns in the world [w]. *)
Definition loaded (w : World) : InventoryFile :=
  default {| packages := Some ∅; last_checked := None; stats := None |}
    (w_versions w).

(** The inventory in the world [w]: the [packages] mapping of the loaded
    document. *)
Definition inventory (w : World) : gmap string InventoryRecord :=
  default ∅ (packages (loaded w)).

(** The remote listing: the tarball entries of all package directories, in
    the order in which [check_and_download] meets them. *)
Definition remote_entries (env : Env) : M (list TarballEntry) :=
  package_dirs <- get_package_directories env ;;
  for_each package_dirs
    (fun entries pkg_dir =>
       tarballs <- get_tarballs_for_package env pkg_dir ;;
       ret (entries ++ tarballs))
    [].

(** [tss] is what the directories [dirs] list, one after the other. *)
Definition lists (env : Env) (dirs : list string) (tss : list (list TarballEntry))
  : Prop :=
  Forall2 (fun d ts => forall w, (get_tarballs_for_package env d w).1 = Ok ts)
    dirs tss.


(** The record [check_and_download] files for a tarball processed at
    time [now]. *)
Definition record_of (tarball : TarballEntry) (now : Z) : InventoryRecord :=
  {| rec_name := name tarball;
     rec_version := (extract_version_info (name tarball)).2;
     rec_size := size_str tarball;
     rec_downloaded_at := now |}.

(** Every character of [s] passes the test [p]. *)
Fixpoint all_chars (p : ascii -> bool) (s : string) : bool :=
  match s with
  | EmptyString => true
  | String c s' => p c && all_chars p s'
  end.

(** The number a string of decimal digits writes, after the digits [acc]. *)
Fixpoint decimal_from (acc : Z) (s : string) : Z :=
  match s with
  | EmptyString => acc
  | String c s' => decimal_from (10 * acc + digit_val c) s'
  end.

Definition decimal (s : string) : Z := decimal_from 0 s.

(** ** Scenarios *)

Definition empty_world : World :=
  {| w_versions := None; w_dirs := ∅; w_tmp := ∅; w_clock := 0; w_sleeps := [];
     w_strays := [] |}.

(** A server that answers every page request the same way and serves no
    archive; nothing is found in its pages. *)
Definition server_of (answer : attempt string) : Env :=
  {| net_page := fun _ _ => answer;
     net_archive := fun _ => Fails URLError;
     net_read_error := fun _ => None;
     os_mkdir := fun _ _ => None;
     os_open_outside := fun _ => None;
     re_findall_dirs := fun _ => [];
     re_tarball_set := fun _ => [];
     re_search_size := fun _ _ => None |}.

(** An extracted file named [n], whose bytes are its name. *)
Definition extracted (n : string) (link : bool) (err : option exn) : member :=
  {| m_root := "extracted"; m_name := n; m_islink := link;
     m_file := {| f_data := n; f_mtime := 0 |}; m_copy_error := err |}.

Definition nadia_tarball : TarballEntry :=
  {| name := "mint-backgrounds-nadia_1.4.tar.gz";
     url := BASE_URL +:+ "/mint-backgrounds-nadia/mint-backgrounds-nadia_1.4.tar.gz";
     size_bytes := 17301504;
     size_str := "16.5M" |}.

(** A mirror with the one directory [mint-backgrounds-nadia], holding the
    one tarball [mint-backgrounds-nadia_1.4.tar.gz] of size [size]; every
    download gives [download]. *)
Definition mirror (size : string) (download : attempt archive) : Env :=
  {| net_page := fun url _ =>
       if String.eqb url (BASE_URL +:+ "/") then Respond "root" else Respond "nadia";
     net_archive := fun _ => download;
     net_read_error := fun _ => None;
     os_mkdir := fun _ _ => None;
     os_open_outside := fun _ => None;
     re_findall_dirs := fun content =>
       if String.eqb content "root" then ["mint-backgrounds-nadia"] else [];
     re_tarball_set := fun content =>
       if String.eqb content "nadia" then ["mint-backgrounds-nadia_1.4.tar.gz"] else [];
     re_search_size := fun _ _ => Some size |}.

(** The archive of the end-to-end scenario. *)
Definition nadia_archive : archive :=
  Tar [extracted "wallpaper1.jpg" false None;
       extracted "link-to-wallpaper1.jpg" true None;
       extracted "screenshot-1.png" false None;
       extracted "Credits" false None].





(** The byte 0xFF, which no UTF-8 text contains. *)
Definition garbled_body : string := String (ascii_of_nat 255) EmptyString.

(** ** Entry point *)

(** What the process leaves behind: its exit status and, in the check-only
    mode, the verdict it prints. *)
Record Outcome : Type := { exit_status : Z; verdict : option string }.

(** The script run as a program with the arguments [argv] ([argv[0]] is the
    script).  Both modes end in [sys.exit(0)]. *)
Definition main (env : Env) (argv : list string) : M Outcome :=
  if (1 <? length argv)%nat && String.eqb (nth 1 argv EmptyString) "--check-only"
  then
    found <- has_updates env ;;
    if found : bool
    then ret {| exit_status := 0; verdict := Some "Updates available" |}
    else ret {| exit_status := 0; verdict := Some "No updates" |}
  else
    had_updates <- check_and_download env ;;
    ret {| exit_status := 0; verdict := None |}.

(** ** Further vocabulary *)

(** The requests a sleep log accounts for (one jittered sleep goes before
    each), and the seconds of back-off in it. *)
Fixpoint requests (ds : list delay) : nat :=
  match ds with
  | [] => 0
  | Jitter :: ds' => S (requests ds')
  | Seconds _ :: ds' => requests ds'
  end.

Fixpoint backoff_seconds (ds : list delay) : Z :=
  match ds with
  | [] => 0
  | Jitter :: ds' => backoff_seconds ds'
  | Seconds n :: ds' => n + backoff_seconds ds'
  end.

(** A float that is not negative. *)
Definition nonneg_float (x : Float64.float) : Prop :=
  match x with
  | Float64.Finite m _ => 0 <= m
  | Float64.Inf => True
  end.

(** The substring [normalize_package_name] removes. *)
Definition EXTRA : string := "-extra".

(** A tarball entry with the file name [n] and nothing else of interest. *)
Definition entry_named (n : string) : TarballEntry :=
  {| name := n; url := EmptyString; size_bytes := 0; size_str := "0M" |}.

(** Strictly increasing, in the order of [sorted]. *)
Fixpoint increasing (xs : list string) : Prop :=
  match xs with
  | [] => True
  | x :: xs' => (forall y, In y xs' -> String.ltb x y = true) /\ increasing xs'
  end.

(** The number of dots and of digits in [s]. *)
Fixpoint count_dots (s : string) : nat :=
  match s with
  | EmptyString => 0
  | String c s' => (if ascii_eqb c "." then 1 else 0) + count_dots s'
  end.

Fixpoint count_digits (s : string) : nat :=
  match s with
  | EmptyString => 0
  | String c s' => (if is_digit c then 1 else 0) + count_digits s'
  end.

(** An entry as [get_tarballs_for_package] builds it for the directory
    [package_dir]: the URL is made of the directory and the name, and the
    size in bytes is the size token converted. *)
Definition listed_in (package_dir : string) (t : TarballEntry) : Prop :=
  url t = BASE_URL +:+ "/" +:+ package_dir +:+ "/" +:+ name t
  /\ parse_size (size_str t) = Ok (size_bytes t).

(** What [save_versions] reports as the latest release, for the output tree
    [dirs]: the greatest release number among the directories of
    [OUTPUT_DIR] named after a release, with the capitalized name of one
    that has it. *)
Definition latest_release_of (dirs : gmap string (gmap string file))
    (rels : list (string * Z)) (st : Stats) : Prop :=
  match dirs !! OUTPUT_DIR with
  | None => latest_mint_release st = None /\ latest_mint_version st = 0
  | Some _ =>
      (forall item v, In (item, v) rels -> v <= latest_mint_version st)
      /\ match rels with
         | [] => latest_mint_release st = None /\ latest_mint_version st = 0
         | _ :: _ =>
             exists item,
               In (item, latest_mint_version st) rels
               /\ latest_mint_release st = Some (capitalize item)
         end
  end.

(** The release directories of the output tree, with their numbers. *)
Definition release_dirs (dirs : gmap string (gmap string file))
  : list (string * Z) :=
  omap (fun entry : string * gmap string file =>
          match child_name OUTPUT_DIR entry.1 with
          | Some item =>
              match assoc (lower item) mint_releases with
              | Some v => Some (item, v)
              | None => None
              end
          | None => None
          end) (map_to_list dirs).

(** The tree [dirs'] has every directory and every file name of [dirs]:
    nothing was removed, though a file may have been replaced. *)
Definition grows (dirs dirs' : gmap string (gmap string file)) : Prop :=
  forall d files,
    dirs !! d = Some files ->
    exists files', dirs' !! d = Some files'
                   /\ forall n, is_Some (files !! n) -> is_Some (files' !! n).

(** The two tests that sort a tarball into the queues of
    [check_and_download]. *)
Definition is_new (existing_packages : gmap string InventoryRecord)
    (tarball : TarballEntry) : bool :=
  is_update existing_packages tarball
  && negb (known_package existing_packages (extract_version_info (name tarball)).1).

Definition is_updated (existing_packages : gmap string InventoryRecord)
    (tarball : TarballEntry) : bool :=
  is_update existing_packages tarball
  && known_package existing_packages (extract_version_info (name tarball)).1.

(** The world after a computation that removes nothing from the output
    tree and leaves no temporary directory behind. *)
Definition only_adds (w w' : World) : Prop :=
  grows (w_dirs w) (w_dirs w') /\ w_tmp w' = w_tmp w.

(** The exception a result carries, if any. *)
Definition outcome {A} (r : result A) : option exn :=
  match r with
  | Ok _ => None
  | Raise e => Some e
  end.

(** A machine that has version 1.3 of the nadia package on record. *)
Definition stocked_world : World :=
  {| w_versions :=
       Some {| packages :=
                 Some {[ "nadia_1.3" :=
                           {| rec_name := "mint-backgrounds-nadia_1.3.tar.gz";
                              rec_version := "1.3";
                              rec_size := "16.0M";
                              rec_downloaded_at := 0 |} ]};
               last_checked := Some 0;
               stats := None |};
     w_dirs := ∅; w_tmp := ∅; w_clock := 1; w_sleeps := []; w_strays := [] |}.

(** The machine after a first run against the mirror: version 1.4 of the
    nadia package is on record and its images are in the output tree. *)
Definition nadia_world : World :=
  (check_and_download (mirror "16.5M" (Respond nadia_archive)) empty_world).2.

(* ===================================================================== *)
(** * Part II: properties                                                 *)
(* ===================================================================== *)

(** ** Strings *)

Section StringFacts.

Lemma ascii_eqb_eq (a b : ascii) : ascii_eqb a b = true <-> a = b.
Proof. apply Stdlib.Strings.Ascii.eqb_eq. Qed.

Lemma ascii_eqb_refl (a : ascii) : ascii_eqb a a = true.
Proof. apply Stdlib.Strings.Ascii.eqb_refl. Qed.

Lemma ascii_eqb_neq (a b : ascii) : ascii_eqb a b = false <-> a <> b.
Proof. apply Stdlib.Strings.Ascii.eqb_neq. Qed.

Lemma append_cons (c : ascii) (s t : string) :
  String c s +:+ t = String c (s +:+ t).
Proof. reflexivity. Qed.

Lemma append_nil_r (s : string) : s +:+ EmptyString = s.
Proof. induction s as [|c s IH]; [reflexivity|]. rewrite append_cons, IH. reflexivity. Qed.

Lemma append_assoc (s t u : string) : (s +:+ t) +:+ u = s +:+ (t +:+ u).
Proof.
  induction s as [|c s IH]; [reflexivity|].
  rewrite !append_cons, IH. reflexivity.
Qed.

Lemma startswith_length (p s : string) :
  startswith p s = true -> (String.length p <= String.length s)%nat.
Proof.
  revert s. induction p as [|a p IH]; intros s H; simpl; [lia|].
  destruct s as [|b s]; simpl in H; [discriminate|].
  apply andb_true_iff in H as [_ H]. apply IH in H. simpl. lia.
Qed.

(** A match of [old] that starts before a character foreign to [old]
    ends before it. *)
Lemma startswith_before_sep (old a b : string) (c : ascii) :
  str_in (String c EmptyString) old = false ->
  startswith old (a +:+ String c b) = startswith old a.
Proof.
  revert a. induction old as [|x old IH]; intros a Hc; [reflexivity|].
  simpl in Hc. apply orb_false_iff in Hc as [Hx Hc].
  rewrite andb_true_r in Hx.
  destruct a as [|y a].
  - simpl. rewrite Stdlib.Strings.Ascii.eqb_sym in Hx.
    unfold ascii_eqb in *. rewrite Hx. reflexivity.
  - rewrite append_cons. simpl. rewrite IH; [reflexivity|].
    destruct old; [reflexivity | exact Hc].
Qed.

Lemma remove_from_skip (old l s : string) :
  remove_from old (String.length l) (l +:+ s) = remove_from old 0 s.
Proof.
  induction l as [|c l IH]; [reflexivity|].
  rewrite append_cons. simpl. exact IH.
Qed.

Lemma str_remove_prefix (c : ascii) (old s : string) :
  str_remove (String c old) (String c old +:+ s) = str_remove (String c old) s.
Proof.
  unfold str_remove. rewrite append_cons.
  change (remove_from (String c old) 0 (String c (old +:+ s)))
    with (if startswith (String c old) (String c (old +:+ s))
          then remove_from (String c old) (String.length old) (old +:+ s)
          else String c (remove_from (String c old) 0 (old +:+ s))).
  assert (H : startswith (String c old) (String c (old +:+ s)) = true).
  { simpl. rewrite ascii_eqb_refl. simpl.
    clear. induction old as [|x old IH]; [reflexivity|].
    rewrite append_cons. simpl. rewrite ascii_eqb_refl. exact IH. }
  rewrite H. apply remove_from_skip.
Qed.

Lemma str_remove_absent (old s : string) :
  str_in old s = false -> str_remove old s = s.
Proof.
  unfold str_remove. induction s as [|c s IH]; intros H; [reflexivity|].
  simpl in H. apply orb_false_iff in H as [H1 H2].
  simpl. destruct old as [|x old]; [discriminate|].
  rewrite H1. f_equal. apply IH.
  destruct s; [simpl; simpl in H2|]; exact H2.
Qed.

(** Removal does not reach across a character foreign to [old]. *)
Lemma remove_from_sep (old a b : string) (c : ascii) (k : nat) :
  old <> EmptyString ->
  str_in (String c EmptyString) old = false ->
  (k <= String.length a)%nat ->
  remove_from old k (a +:+ String c b)
  = remove_from old k a +:+ String c (remove_from old 0 b).
Proof.
  intros Hne Hc. revert k.
  induction a as [|y a IH]; intros k Hk.
  - simpl in Hk. assert (k = 0%nat) as -> by lia.
    change (EmptyString +:+ String c b) with (String c b).
    change (remove_from old 0 EmptyString) with EmptyString.
    change (EmptyString +:+ String c (remove_from old 0 b))
      with (String c (remove_from old 0 b)).
    pose proof (startswith_before_sep old EmptyString b c Hc) as H.
    change (EmptyString +:+ String c b) with (String c b) in H.
    simpl. rewrite H. destruct old; [congruence | reflexivity].
  - rewrite append_cons. destruct k as [|k].
    + pose proof (startswith_before_sep old (String y a) b c Hc) as H.
      rewrite append_cons in H.
      change (remove_from old 0 (String y (a +:+ String c b)))
        with (if startswith old (String y (a +:+ String c b))
              then remove_from old (Nat.pred (String.length old)) (a +:+ String c b)
              else String y (remove_from old 0 (a +:+ String c b))).
      change (remove_from old 0 (String y a))
        with (if startswith old (String y a)
              then remove_from old (Nat.pred (String.length old)) a
              else String y (remove_from old 0 a)).
      rewrite H. destruct (startswith old (String y a)) eqn:E.
      * apply IH. apply startswith_length in E. simpl in E. lia.
      * rewrite append_cons. f_equal. apply IH. lia.
    + simpl. apply IH. simpl in Hk. lia.
Qed.

Lemma str_remove_sep (old a b : string) (c : ascii) :
  old <> EmptyString ->
  str_in (String c EmptyString) old = false ->
  str_remove old (a +:+ String c b)
  = str_remove old a +:+ String c (str_remove old b).
Proof. intros. apply remove_from_sep; auto. lia. Qed.

(** The one-character test [c in s]. *)
Lemma str_in_char_cons (c y : ascii) (s : string) :
  str_in (String c EmptyString) (String y s)
  = ascii_eqb c y || str_in (String c EmptyString) s.
Proof.
  simpl. rewrite andb_true_r. destruct s; simpl; rewrite ?orb_false_r; reflexivity.
Qed.

Lemma str_in_char_app (c : ascii) (a b : string) :
  str_in (String c EmptyString) (a +:+ String c b) = true.
Proof.
  induction a as [|y a IH].
  - change (EmptyString +:+ String c b) with (String c b).
    rewrite str_in_char_cons, ascii_eqb_refl. reflexivity.
  - rewrite append_cons, str_in_char_cons, IH. apply orb_true_r.
Qed.

Lemma split1_first (c : ascii) (a b : string) :
  str_in (String c EmptyString) a = false ->
  split1 c (a +:+ String c b) = [a; b].
Proof.
  induction a as [|y a IH]; intros H.
  - change (EmptyString +:+ String c b) with (String c b).
    simpl. rewrite ascii_eqb_refl. reflexivity.
  - rewrite str_in_char_cons in H. apply orb_false_iff in H as [H1 H2].
    rewrite append_cons. simpl.
    unfold ascii_eqb in *. rewrite Stdlib.Strings.Ascii.eqb_sym, H1.
    rewrite (IH H2). reflexivity.
Qed.

(** What [split1] returns first has no separator in it. *)
Lemma split1_head (c : ascii) (s : string) :
  str_in (String c EmptyString) (nth 0 (split1 c s) EmptyString) = false.
Proof.
  induction s as [|y s IH]; [reflexivity|].
  simpl. destruct (ascii_eqb y c) eqn:E; [reflexivity|].
  destruct (split1 c s) as [|l rest]; simpl in *.
  - rewrite andb_true_r, orb_false_r.
    unfold ascii_eqb in *. rewrite Stdlib.Strings.Ascii.eqb_sym. exact E.
  - change (str_in (String c EmptyString) (String y l) = false).
    rewrite str_in_char_cons, IH.
    unfold ascii_eqb in *. rewrite Stdlib.Strings.Ascii.eqb_sym, E. reflexivity.
Qed.

(** Removal only deletes characters. *)
Lemma remove_from_no_char (c : ascii) (old s : string) (k : nat) :
  str_in (String c EmptyString) s = false ->
  str_in (String c EmptyString) (remove_from old k s) = false.
Proof.
  revert k. induction s as [|y s IH]; intros k H; [reflexivity|].
  rewrite str_in_char_cons in H. apply orb_false_iff in H as [H1 H2].
  simpl. destruct k as [|k]; [|auto].
  destruct (startswith old (String y s)); [auto|].
  rewrite str_in_char_cons, H1. simpl. auto.
Qed.

(** Two keys with separator-free left parts split the same way. *)
Lemma sep_inj (c : ascii) (a1 a2 b1 b2 : string) :
  str_in (String c EmptyString) a1 = false ->
  str_in (String c EmptyString) a2 = false ->
  a1 +:+ String c b1 = a2 +:+ String c b2 -> a1 = a2 /\ b1 = b2.
Proof.
  intros H1 H2 E.
  assert (E' : split1 c (a1 +:+ String c b1) = split1 c (a2 +:+ String c b2))
    by (rewrite E; reflexivity).
  rewrite !split1_first in E' by assumption.
  inversion E'. auto.
Qed.

(** [old] cannot begin inside [v] and end inside the suffix [.tar.gz]. *)
Lemma startswith_suffix_border (v : string) :
  v <> EmptyString ->
  startswith TAR_SUFFIX v = false ->
  startswith TAR_SUFFIX (v +:+ TAR_SUFFIX) = false.
Proof.
  intros Hne H. unfold TAR_SUFFIX in *.
  do 7 (destruct v as [|? v];
        [ first [ congruence
                | simpl;
                  repeat match goal with
                         | |- context [ascii_eqb ?x ?y] =>
                             destruct (ascii_eqb x y) eqn:?; simpl
                         end;
                  try reflexivity;
                  repeat match goal with
                         | E : ascii_eqb _ _ = true |- _ =>
                             first [ cbv in E; discriminate E | clear E ]
                         end ]
        | ]).
  rewrite !append_cons. exact H.
Qed.

Lemma str_remove_suffix (v : string) :
  str_in TAR_SUFFIX v = false -> str_remove TAR_SUFFIX (v +:+ TAR_SUFFIX) = v.
Proof.
  unfold str_remove. induction v as [|y v IH]; intros H; [reflexivity|].
  simpl in H. apply orb_false_iff in H as [H1 H2].
  pose proof (startswith_suffix_border (String y v) ltac:(congruence) H1) as B.
  rewrite append_cons in *.
  change (remove_from TAR_SUFFIX 0 (String y (v +:+ TAR_SUFFIX)))
    with (if startswith TAR_SUFFIX (String y (v +:+ TAR_SUFFIX))
          then remove_from TAR_SUFFIX (Nat.pred (String.length TAR_SUFFIX)) (v +:+ TAR_SUFFIX)
          else String y (remove_from TAR_SUFFIX 0 (v +:+ TAR_SUFFIX))).
  rewrite B. f_equal. apply IH.
  destruct v; [reflexivity | exact H2].
Qed.

End StringFacts.

(** ** Version Key Resolver *)

Section VersionKeyFacts.

Lemma stem_wellformed (name version : string) :
  str_in TAR_SUFFIX name = false ->
  str_in FAMILY_PREFIX name = false ->
  str_in TAR_SUFFIX version = false ->
  str_in FAMILY_PREFIX version = false ->
  str_remove FAMILY_PREFIX
    (str_remove TAR_SUFFIX
       (FAMILY_PREFIX +:+ name +:+ "_" +:+ version +:+ TAR_SUFFIX))
  = name +:+ "_" +:+ version.
Proof.
  intros Hn1 Hn2 Hv1 Hv2.
  change (FAMILY_PREFIX +:+ name +:+ "_" +:+ version +:+ TAR_SUFFIX)
    with (FAMILY_PREFIX +:+ (name +:+ String "_" (version +:+ TAR_SUFFIX))).
  rewrite <- append_assoc.
  rewrite (str_remove_sep TAR_SUFFIX) by (reflexivity || discriminate).
  rewrite str_remove_suffix by assumption.
  change (FAMILY_PREFIX +:+ name) with ("mint-backgrounds" +:+ String "-" name).
  rewrite (str_remove_sep TAR_SUFFIX) by (reflexivity || discriminate).
  rewrite (str_remove_absent TAR_SUFFIX name) by assumption.
  change (str_remove TAR_SUFFIX "mint-backgrounds" +:+ String "-" name)
    with (FAMILY_PREFIX +:+ name).
  rewrite (str_remove_sep FAMILY_PREFIX) by (reflexivity || discriminate).
  unfold FAMILY_PREFIX at 1 2. rewrite str_remove_prefix.
  fold FAMILY_PREFIX.
  rewrite !str_remove_absent by assumption.
  reflexivity.
Qed.

Lemma extract_name_no_underscore (tarball_name : string) :
  str_in "_" (extract_version_info tarball_name).1 = false.
Proof.
  unfold extract_version_info.
  destruct (str_in "_" (str_remove FAMILY_PREFIX (str_remove TAR_SUFFIX tarball_name)))
    eqn:E; [|exact E].
  apply split1_head.
Qed.

(** What [extract_version_info] makes of a key. *)
Lemma extract_of_key (package_name version : string) :
  str_in "_" package_name = false ->
  extract_version_info (pkg_key package_name version)
  = (str_remove FAMILY_PREFIX (str_remove TAR_SUFFIX package_name),
     str_remove FAMILY_PREFIX (str_remove TAR_SUFFIX version)).
Proof.
  intros Hn. unfold extract_version_info, pkg_key.
  change (package_name +:+ "_" +:+ version)
    with (package_name +:+ String "_" version).
  rewrite (str_remove_sep TAR_SUFFIX) by (reflexivity || discriminate).
  rewrite (str_remove_sep FAMILY_PREFIX) by (reflexivity || discriminate).
  rewrite str_in_char_app.
  rewrite split1_first; [reflexivity|].
  unfold str_remove. do 2 apply remove_from_no_char. exact Hn.
Qed.

Lemma version_key_inj (f1 f2 : string) :
  version_key f1 = version_key f2 ->
  extract_version_info f1 = extract_version_info f2.
Proof.
  unfold version_key.
  pose proof (extract_name_no_underscore f1) as H1.
  pose proof (extract_name_no_underscore f2) as H2.
  destruct (extract_version_info f1) as [n1 v1].
  destruct (extract_version_info f2) as [n2 v2].
  simpl in H1, H2. unfold pkg_key. intros E.
  apply (sep_inj "_" n1 n2 v1 v2 H1 H2) in E as [-> ->]. reflexivity.
Qed.

End VersionKeyFacts.

(** C5 (amended).  For a file name [mint-backgrounds-<name>_<version>.tar.gz]
    whose [name] has no underscore and whose [name] and [version] contain
    neither [.tar.gz] nor [mint-backgrounds-], [extract_version_info] returns
    exactly [(name, version)]; and for every file name whose stem (the name
    with every [.tar.gz] and then every [mint-backgrounds-] removed) has no
    underscore, it returns [(stem, unknown)]. *)
Theorem extract_version_info_spec :
  (forall name version : string,
      str_in "_" name = false ->
      str_in TAR_SUFFIX name = false ->
      str_in FAMILY_PREFIX name = false ->
      str_in TAR_SUFFIX version = false ->
      str_in FAMILY_PREFIX version = false ->
      extract_version_info
        (FAMILY_PREFIX +:+ name +:+ "_" +:+ version +:+ TAR_SUFFIX)
      = (name, version))
  /\ (forall tarball_name : string,
         let stem := str_remove FAMILY_PREFIX (str_remove TAR_SUFFIX tarball_name) in
         str_in "_" stem = false ->
         extract_version_info tarball_name = (stem, "unknown")).
Proof.
  split.
  - intros name version Hu Hn1 Hn2 Hv1 Hv2.
    unfold extract_version_info.
    rewrite stem_wellformed by assumption.
    change (name +:+ "_" +:+ version) with (name +:+ String "_" version).
    rewrite str_in_char_app, split1_first by assumption. reflexivity.
  - intros tarball_name stem H. unfold extract_version_info.
    fold stem. rewrite H. reflexivity.
Qed.

Lemma extract_version_info_spec_witness :
  extract_version_info "mint-backgrounds-nadia_1.4.tar.gz" = ("nadia", "1.4")
  /\ extract_version_info "mint-backgrounds-nadia.tar.gz" = ("nadia", "unknown").
Proof.
  split.
  - apply (proj1 extract_version_info_spec "nadia" "1.4"); reflexivity.
  - apply (proj2 extract_version_info_spec "mint-backgrounds-nadia.tar.gz").
    reflexivity.
Defined.

(** C5 as stated fails: a version that itself contains [.tar.gz] loses it,
    and a name with an underscore is cut at its first underscore. *)
Lemma extract_version_info_counterexample :
  extract_version_info
    (FAMILY_PREFIX +:+ "nadia" +:+ "_" +:+ "1.4.tar.gz" +:+ TAR_SUFFIX)
  <> ("nadia", "1.4.tar.gz")
  /\ extract_version_info
       (FAMILY_PREFIX +:+ "linux_mint" +:+ "_" +:+ "1.0" +:+ TAR_SUFFIX)
     <> ("linux_mint", "1.0").
Proof. split; vm_compute; discriminate. Qed.

(** C10 (amended).  The package name [extract_version_info] returns never
    contains an underscore; hence the key determines the pair; and applying
    [extract_version_info] to a key gives the package name with [.tar.gz]
    and [mint-backgrounds-] removed once more, which is the package name
    itself whenever it contains neither. *)
Theorem version_key_invariant :
  (forall tarball_name : string,
      str_in "_" (extract_version_info tarball_name).1 = false)
  /\ (forall f1 f2 : string,
         version_key f1 = version_key f2 ->
         extract_version_info f1 = extract_version_info f2)
  /\ (forall tarball_name : string,
         (extract_version_info (version_key tarball_name)).1
         = str_remove FAMILY_PREFIX
             (str_remove TAR_SUFFIX (extract_version_info tarball_name).1))
  /\ (forall tarball_name : string,
         str_in TAR_SUFFIX (extract_version_info tarball_name).1 = false ->
         str_in FAMILY_PREFIX (extract_version_info tarball_name).1 = false ->
         (extract_version_info (version_key tarball_name)).1
         = (extract_version_info tarball_name).1).
Proof.
  assert (K : forall tarball_name : string,
             (extract_version_info (version_key tarball_name)).1
             = str_remove FAMILY_PREFIX
                 (str_remove TAR_SUFFIX (extract_version_info tarball_name).1)).
  { intros f. unfold version_key.
    pose proof (extract_name_no_underscore f) as H.
    destruct (extract_version_info f) as [n v]. simpl in *.
    rewrite extract_of_key by exact H. reflexivity. }
  repeat split.
  - apply extract_name_no_underscore.
  - apply version_key_inj.
  - exact K.
  - intros f H1 H2. rewrite K, !str_remove_absent; auto.
    rewrite str_remove_absent; auto.
Qed.

Lemma version_key_invariant_witness :
  (extract_version_info (version_key "mint-backgrounds-nadia_1.4.tar.gz")).1
  = "nadia"
  /\ extract_version_info "mint-backgrounds-nadia_1.4.tar.gz"
     = extract_version_info "nadia_1.4".
Proof.
  split.
  - apply (proj2 (proj2 (proj2 version_key_invariant))
             "mint-backgrounds-nadia_1.4.tar.gz"); reflexivity.
  - apply (proj1 (proj2 version_key_invariant)
             "mint-backgrounds-nadia_1.4.tar.gz" "nadia_1.4"); reflexivity.
Defined.

(** C10 as stated fails: a name in which removing the family prefix leaves
    the family prefix behind is not recovered from its key. *)
Lemma version_key_invariant_counterexample :
  let tarball_name := "mint-backmint-backgrounds-grounds-x_1.tar.gz" in
  (extract_version_info tarball_name).1 = "mint-backgrounds-x"
  /\ version_key tarball_name = "mint-backgrounds-x_1"
  /\ (extract_version_info (version_key tarball_name)).1 = "x"
  /\ (extract_version_info (version_key tarball_name)).1
     <> (extract_version_info tarball_name).1.
Proof. repeat split. vm_compute. discriminate. Qed.

(** ** The monad *)

Section MonadFacts.

Context {A B : Type}.

Lemma bind_ok (m : M A) (k : A -> M B) (w w' : World) (a : A) :
  m w = (Ok a, w') -> bind m k w = k a w'.
Proof. unfold bind. intros ->. reflexivity. Qed.

Lemma bind_raise (m : M A) (k : A -> M B) (w w' : World) (e : exn) :
  m w = (Raise e, w') -> bind m k w = (Raise e, w').
Proof. unfold bind. intros ->. reflexivity. Qed.

Lemma bind_inv (m : M A) (k : A -> M B) (w w' : World) (r : result B) :
  bind m k w = (r, w') ->
  (exists a w1, m w = (Ok a, w1) /\ k a w1 = (r, w'))
  \/ (exists e, m w = (Raise e, w') /\ r = Raise e).
Proof.
  unfold bind. destruct (m w) as [[a|e] w1]; intros H.
  - left. eauto.
  - right. inversion H; subst. eauto.
Qed.

End MonadFacts.

(** Relations between the world before and after that every step of a
    computation keeps. *)
Section Frame.

Variable R : World -> World -> Prop.
Hypothesis R_refl : forall w, R w w.
Hypothesis R_trans : forall w1 w2 w3, R w1 w2 -> R w2 w3 -> R w1 w3.

Lemma preserves_ret {A} (a : A) : preserves R (ret a).
Proof. intros w. apply R_refl. Qed.

Lemma preserves_raise {A} (e : exn) : preserves R (@raise A e).
Proof. intros w. apply R_refl. Qed.

Lemma preserves_lift {A} (r : result A) : preserves R (lift r).
Proof. intros w. apply R_refl. Qed.

Lemma preserves_bind {A B} (m : M A) (k : A -> M B) :
  preserves R m -> (forall a, preserves R (k a)) -> preserves R (bind m k).
Proof.
  intros Hm Hk w. unfold bind. specialize (Hm w).
  destruct (m w) as [[a|e] w1]; simpl in *; [|exact Hm].
  eapply R_trans; [exact Hm | apply Hk].
Qed.

Lemma preserves_try_except {A} (m : M A) (h : exn -> M A) :
  preserves R m -> (forall e, preserves R (h e)) -> preserves R (try_except m h).
Proof.
  intros Hm Hh w. unfold try_except. specialize (Hm w).
  destruct (m w) as [[a|e] w1]; simpl in *; [exact Hm|].
  eapply R_trans; [exact Hm | apply Hh].
Qed.

Lemma preserves_for_each {A S} (xs : list A) (body : S -> A -> M S) (acc : S) :
  (forall s x, preserves R (body s x)) -> preserves R (for_each xs body acc).
Proof.
  intros Hb. revert acc. induction xs as [|x xs IH]; intros acc; simpl.
  - apply preserves_ret.
  - apply preserves_bind; auto.
Qed.

End Frame.

(** Computations whose result does not depend on the world they start in. *)
Section Oblivious.

Lemma oblivious_ret {A} (a : A) : oblivious (ret a).
Proof. intros w1 w2. reflexivity. Qed.

Lemma oblivious_raise {A} (e : exn) : oblivious (@raise A e).
Proof. intros w1 w2. reflexivity. Qed.

Lemma oblivious_lift {A} (r : result A) : oblivious (lift r).
Proof. intros w1 w2. reflexivity. Qed.

Lemma oblivious_sleep (d : delay) : oblivious (sleep d).
Proof. intros w1 w2. reflexivity. Qed.

Lemma oblivious_bind {A B} (m : M A) (k : A -> M B) :
  oblivious m -> (forall a, oblivious (k a)) -> oblivious (bind m k).
Proof.
  intros Hm Hk w1 w2. unfold bind. specialize (Hm w1 w2).
  destruct (m w1) as [[a1|e1] w1'], (m w2) as [[a2|e2] w2'];
    simpl in *; try congruence.
  inversion Hm; subst. apply Hk.
Qed.

Lemma oblivious_try_except {A} (m : M A) (h : exn -> M A) :
  oblivious m -> (forall e, oblivious (h e)) -> oblivious (try_except m h).
Proof.
  intros Hm Hh w1 w2. unfold try_except. specialize (Hm w1 w2).
  destruct (m w1) as [[a1|e1] w1'], (m w2) as [[a2|e2] w2'];
    simpl in *; try congruence.
  inversion Hm; subst. apply Hh.
Qed.

Lemma oblivious_for_each {A S} (xs : list A) (body : S -> A -> M S) (acc : S) :
  (forall s x, oblivious (body s x)) -> oblivious (for_each xs body acc).
Proof.
  intros Hb. revert acc. induction xs as [|x xs IH]; intros acc; simpl.
  - apply oblivious_ret.
  - apply oblivious_bind; auto.
Qed.

End Oblivious.

(** ** HTTP Fetcher *)

Section FetcherFacts.

Variable env : Env.

Lemma only_sleeps_refl w : only_sleeps w w.
Proof. repeat split. Qed.

Lemma only_sleeps_trans w1 w2 w3 :
  only_sleeps w1 w2 -> only_sleeps w2 w3 -> only_sleeps w1 w3.
Proof. unfold only_sleeps. intuition congruence. Qed.

Lemma sleep_only_sleeps d : preserves only_sleeps (sleep d).
Proof. intros w. repeat split. Qed.

Lemma fetch_handler_cases (url : string) (attempt : nat) (e : exn) :
  let h := fun e : exn =>
             match e with
             | HTTPError code =>
                 if (code =? 429) || (code =? 503) then
                   sleep (Seconds (RETRY_DELAY * (Z.of_nat attempt + 1))) ;;
                   ret None
                 else ret (Some EmptyString)
             | URLError =>
                 if (attempt <? MAX_RETRIES - 1)%nat then
                   sleep (Seconds (RETRY_DELAY * (Z.of_nat attempt + 1))) ;;
                   ret None
                 else ret (Some EmptyString)
             | _ => raise e
             end in
  preserves only_sleeps (h e) /\ oblivious (h e).
Proof.
  pose proof only_sleeps_refl. pose proof only_sleeps_trans.
  pose proof sleep_only_sleeps.
  destruct e; simpl; repeat case_match;
    auto using preserves_ret, preserves_raise, preserves_bind,
      oblivious_ret, oblivious_raise, oblivious_bind, oblivious_sleep.
Qed.

Lemma fetch_once_facts (url : string) (attempt : nat) :
  preserves only_sleeps (fetch_once env url attempt)
  /\ oblivious (fetch_once env url attempt).
Proof.
  pose proof only_sleeps_refl. pose proof only_sleeps_trans.
  pose proof sleep_only_sleeps.
  unfold fetch_once. split.
  - apply preserves_bind; auto. intros _.
    destruct (net_page env url attempt);
      auto using preserves_raise, preserves_lift.
  - apply oblivious_bind; auto using oblivious_sleep. intros _.
    destruct (net_page env url attempt);
      auto using oblivious_raise, oblivious_lift.
Qed.

Lemma fetch_loop_facts (url : string) (todo attempt : nat) :
  preserves only_sleeps (fetch_loop env url todo attempt)
  /\ oblivious (fetch_loop env url todo attempt).
Proof.
  pose proof only_sleeps_refl. pose proof only_sleeps_trans.
  revert attempt. induction todo as [|todo IH]; intros attempt; simpl.
  - split; auto using preserves_ret, oblivious_ret.
  - pose proof (fetch_once_facts url attempt) as [F1 F2].
    split.
    + apply preserves_bind; auto.
      * apply preserves_try_except; auto.
        -- apply preserves_bind; auto using preserves_ret.
        -- intros e. apply (fetch_handler_cases url attempt e).
      * intros [text|]; [auto using preserves_ret | apply IH].
    + apply oblivious_bind.
      * apply oblivious_try_except.
        -- apply oblivious_bind; auto using oblivious_ret.
        -- intros e. apply (fetch_handler_cases url attempt e).
      * intros [text|]; [auto using oblivious_ret | apply IH].
Qed.

Lemma fetch_page_only_sleeps (url : string) :
  preserves only_sleeps (fetch_page env url).
Proof. apply fetch_loop_facts. Qed.

Lemma fetch_page_oblivious (url : string) : oblivious (fetch_page env url).
Proof. apply fetch_loop_facts. Qed.

End FetcherFacts.

Section FetchPage.

Variable env : Env.

Lemma add_sleeps_app (a b : list delay) (w : World) :
  add_sleeps b (add_sleeps a w) = add_sleeps (a ++ b) w.
Proof. unfold add_sleeps. simpl. rewrite app_assoc. reflexivity. Qed.

(** One iteration of the loop of [fetch_page], case by case. *)
Lemma fetch_loop_step (url : string) (todo attempt : nat) (w : World) :
  fetch_loop env url (S todo) attempt w =
  match net_page env url attempt with
  | Respond body =>
      match decode_utf8 body with
      | Ok text => (Ok text, add_sleeps [Jitter] w)
      | Raise e => (Raise e, add_sleeps [Jitter] w)
      end
  | Fails (HTTPError code) =>
      if (code =? 429) || (code =? 503)
      then fetch_loop env url todo (S attempt)
             (add_sleeps [Seconds (RETRY_DELAY * (Z.of_nat attempt + 1))]
                (add_sleeps [Jitter] w))
      else (Ok EmptyString, add_sleeps [Jitter] w)
  | Fails URLError =>
      if (attempt <? MAX_RETRIES - 1)%nat
      then fetch_loop env url todo (S attempt)
             (add_sleeps [Seconds (RETRY_DELAY * (Z.of_nat attempt + 1))]
                (add_sleeps [Jitter] w))
      else (Ok EmptyString, add_sleeps [Jitter] w)
  | Fails e => (Raise e, add_sleeps [Jitter] w)
  end.
Proof.
  simpl. unfold bind at 1. unfold try_except, fetch_once.
  unfold bind at 1. unfold bind at 1. unfold sleep at 1.
  fold (add_sleeps [Jitter] w).
  destruct (net_page env url attempt) as [body|e].
  - unfold lift, decode_utf8.
    destruct (utf8_ok body 0 128 191); reflexivity.
  - destruct e; try reflexivity.
    + unfold raise. destruct ((code =? 429) || (code =? 503)); reflexivity.
    + unfold raise. change (MAX_RETRIES - 1)%nat with 2%nat.
      destruct (attempt <? 2)%nat; reflexivity.
Qed.

Lemma fetch_loop_handled (url : string) (todo attempt : nat) (w : World) :
  (forall i, (attempt <= i < attempt + todo)%nat ->
             handled (net_page env url i) = true) ->
  exists text w', fetch_loop env url todo attempt w = (Ok text, w').
Proof.
  revert attempt w. induction todo as [|todo IH]; intros attempt w H.
  - simpl. unfold ret. eauto.
  - rewrite fetch_loop_step.
    pose proof (H attempt ltac:(lia)) as Ha.
    assert (Hrest : forall w1, exists text w',
               fetch_loop env url todo (S attempt) w1 = (Ok text, w')).
    { intros w1. apply IH. intros i Hi. apply H. lia. }
    destruct (net_page env url attempt) as [body|e]; simpl in Ha.
    + unfold decode_utf8. rewrite Ha. eauto.
    + destruct e; try discriminate.
      * destruct ((code =? 429) || (code =? 503)); eauto.
      * destruct (attempt <? MAX_RETRIES - 1)%nat; eauto.
Qed.

End FetchPage.

(** C7 (amended).  As long as every attempt either answers with a body that
    decodes as UTF-8 or fails with an [HTTPError] or a [URLError],
    [fetch_page] returns a text and raises nothing.  When all
    [MAX_RETRIES] attempts fail with 429, 503 or a [URLError], it returns
    the empty string, having slept [RETRY_DELAY * (attempt + 1)] seconds
    after each failed attempt (not after a final [URLError]).  On any other
    HTTP status, at whatever attempt, it returns the empty string at once:
    no back-off and no further attempt follow. *)
Theorem fetch_page_spec (env : Env) (url : string) (w : World) :
  ((forall i, (i < MAX_RETRIES)%nat -> handled (net_page env url i) = true) ->
   exists text w', fetch_page env url w = (Ok text, w'))
  /\ ((forall i, (i < MAX_RETRIES)%nat -> retryable (net_page env url i) = true) ->
      fetch_page env url w
      = (Ok EmptyString,
         add_sleeps
           (backoff_log 2 ++ [Jitter]
            ++ match net_page env url 2 with
               | Fails URLError => []
               | _ => [Seconds (RETRY_DELAY * 3)]
               end) w))
  /\ (forall (i : nat) (code : Z),
         (i < MAX_RETRIES)%nat ->
         (forall j, (j < i)%nat -> retryable (net_page env url j) = true) ->
         net_page env url i = Fails (HTTPError code) ->
         code <> 429 -> code <> 503 ->
         fetch_page env url w
         = (Ok EmptyString, add_sleeps (backoff_log i ++ [Jitter]) w)).
Proof.
  assert (Step : forall attempt todo w0,
             (attempt < 2)%nat ->
             retryable (net_page env url attempt) = true ->
             fetch_loop env url (S todo) attempt w0
             = fetch_loop env url todo (S attempt)
                 (add_sleeps [Jitter; Seconds (RETRY_DELAY * (Z.of_nat attempt + 1))] w0)).
  { intros attempt todo w0 Hlt Hr. rewrite fetch_loop_step.
    rewrite add_sleeps_app.
    destruct (net_page env url attempt) as [body|[]]; try discriminate.
    - simpl in Hr. rewrite Hr. reflexivity.
    - assert ((attempt <? MAX_RETRIES - 1)%nat = true) as ->
          by (apply Nat.ltb_lt; unfold MAX_RETRIES; lia).
      reflexivity. }
  assert (Stop : forall attempt todo w0 code,
             net_page env url attempt = Fails (HTTPError code) ->
             code <> 429 -> code <> 503 ->
             fetch_loop env url (S todo) attempt w0
             = (Ok EmptyString, add_sleeps [Jitter] w0)).
  { intros attempt todo w0 code E H1 H2. rewrite fetch_loop_step, E.
    assert ((code =? 429) || (code =? 503) = false) as ->; [|reflexivity].
    apply orb_false_iff. split; apply Z.eqb_neq; assumption. }
  split; [|split].
  - intros H. apply fetch_loop_handled. intros i Hi. apply H. lia.
  - intros H. unfold fetch_page, MAX_RETRIES in *.
    rewrite (Step 0%nat), (Step 1%nat) by (auto; lia).
    rewrite fetch_loop_step.
    pose proof (H 2%nat ltac:(lia)) as H2.
    rewrite !add_sleeps_app.
    destruct (net_page env url 2) as [body|[]]; try discriminate.
    + simpl in H2. rewrite H2. simpl fetch_loop. unfold ret.
      rewrite ?add_sleeps_app. reflexivity.
    + simpl. rewrite ?add_sleeps_app. reflexivity.
  - intros i code Hi Hj E H1 H2. unfold fetch_page, MAX_RETRIES in *.
    destruct i as [|[|[|i]]]; [| | |lia].
    + rewrite (Stop 0%nat _ _ code) by assumption. reflexivity.
    + rewrite (Step 0%nat) by (auto; lia).
      rewrite (Stop 1%nat _ _ code) by assumption.
      rewrite !add_sleeps_app. reflexivity.
    + rewrite (Step 0%nat), (Step 1%nat) by (auto; lia).
      rewrite (Stop 2%nat _ _ code) by assumption.
      rewrite !add_sleeps_app. reflexivity.
Qed.

Lemma fetch_page_spec_witness :
  (exists text w', fetch_page (server_of (Respond "ok")) "u" empty_world = (Ok text, w'))
  /\ fetch_page (server_of (Fails (HTTPError 429))) "u" empty_world
     = (Ok EmptyString,
        add_sleeps [Jitter; Seconds 5; Jitter; Seconds 10; Jitter; Seconds 15]
          empty_world)
  /\ fetch_page (server_of (Fails (HTTPError 404))) "u" empty_world
     = (Ok EmptyString, add_sleeps [Jitter] empty_world).
Proof.
  split; [|split].
  - apply (proj1 (fetch_page_spec (server_of (Respond "ok")) "u" empty_world)).
    intros i Hi. reflexivity.
  - apply (proj1 (proj2 (fetch_page_spec (server_of (Fails (HTTPError 429)))
                           "u" empty_world))).
    intros i Hi. reflexivity.
  - apply (proj2 (proj2 (fetch_page_spec (server_of (Fails (HTTPError 404)))
                           "u" empty_world)) 0%nat 404).
    + unfold MAX_RETRIES. lia.
    + intros j Hj. lia.
    + reflexivity.
    + lia.
    + lia.
Defined.

(** C7 as stated fails: a body that is not UTF-8 makes [decode] raise
    [UnicodeDecodeError], which no handler of [fetch_page] catches. *)
Lemma fetch_page_counterexample :
  fetch_page (server_of (Respond garbled_body)) "u" empty_world
  = (Raise UnicodeDecodeError, add_sleeps [Jitter] empty_world).
Proof. reflexivity. Qed.

(** ** Archive Processor *)

Section CopyLoop.

Variables (dir package_name : string).

Local Abbreviation loop members :=
  (for_each members (fun (_ : unit) m => copy_member dir package_name m) tt).



(** One iteration, by what the tests select. *)
Lemma copy_member_run (m : member) (w : World) :
  copy_member dir package_name m w =
  match copy_target package_name m with
  | None => (Ok tt, w)
  | Some n =>
      match m_copy_error m with
      | Some e => (Raise e, w)
      | None =>
          (Ok tt, set_dirs (write_file (normpath dir) n (m_file m) (w_dirs w)) w)
      end
  end.
Proof.
  unfold copy_member, copy_target, plain_image, plain_credits, copy2.
  destruct (m_islink m); simpl; [reflexivity|].
  destruct (is_image (lower (m_name m))); simpl.
  - destruct (str_in "screenshot" (lower (m_name m))); simpl; [reflexivity|].
    destruct (m_copy_error m); reflexivity.
  - destruct (str_in "credits" (lower (m_name m))); simpl; [|reflexivity].
    destruct (m_copy_error m); reflexivity.
Qed.

Lemma only_dirs_refl (w : World) : only_dirs w w.
Proof. repeat split. Qed.

Lemma only_dirs_trans (w1 w2 w3 : World) :
  only_dirs w1 w2 -> only_dirs w2 w3 -> only_dirs w1 w3.
Proof. unfold only_dirs. intuition congruence. Qed.

(** The loop touches nothing but the output tree. *)
Lemma loop_only_dirs (members : list member) (w : World) :
  only_dirs w (loop members w).2.
Proof.
  apply (preserves_for_each only_dirs).
  - apply only_dirs_refl.
  - apply only_dirs_trans.
  - intros [] m w0. rewrite copy_member_run.
    destruct (copy_target package_name m); [|repeat split].
    destruct (m_copy_error m); repeat split.
Qed.






End CopyLoop.

Section ArchiveProcessor.

Variable env : Env.

Lemma loop_dirs_only (dir package_name : string) (members : list member)
    (w1 w2 : World) :
  w_dirs w1 = w_dirs w2 ->
  let loop := for_each members (fun (_ : unit) m => copy_member dir package_name m) tt in
  (loop w1).1 = (loop w2).1 /\ w_dirs (loop w1).2 = w_dirs (loop w2).2.
Proof.
  revert w1 w2. induction members as [|m members IH]; intros w1 w2 E; simpl.
  - auto.
  - unfold bind. rewrite !copy_member_run.
    destruct (copy_target package_name m) as [n|]; [|apply IH, E].
    destruct (m_copy_error m) as [e|]; [simpl; auto|].
    apply IH. simpl. rewrite E. reflexivity.
Qed.

(** *** Directories made *)

Lemma adds_dirs_refl keys dirs : adds_dirs keys dirs dirs.
Proof. intros d. left. reflexivity. Qed.

Lemma adds_dirs_trans keys d1 d2 d3 :
  adds_dirs keys d1 d2 -> adds_dirs keys d2 d3 -> adds_dirs keys d1 d3.
Proof.
  intros H12 H23 d.
  destruct (H12 d) as [E1|(I1 & N1 & S1)], (H23 d) as [E2|(I2 & N2 & S2)].
  - left. congruence.
  - right. split; [exact I2|]. split; congruence.
  - right. split; [exact I1|]. split; congruence.
  - congruence.
Qed.

Lemma adds_dirs_incl keys keys' dirs dirs' :
  (forall k, In k keys -> In k keys') ->
  adds_dirs keys dirs dirs' -> adds_dirs keys' dirs dirs'.
Proof.
  intros Hin H d. destruct (H d) as [E|(I & N & S)]; [left; exact E|].
  right. auto.
Qed.


Lemma adds_dirs_keeps keys dirs dirs' d fs :
  adds_dirs keys dirs dirs' -> dirs !! d = Some fs -> dirs' !! d = Some fs.
Proof. intros H E. destruct (H d) as [->|(_ & N & _)]; congruence. Qed.

Lemma mkdir_run (key : string) (w : World) :
  exists r w',
    mkdir env key w = (r, w')
    /\ only_dirs w w'
    /\ adds_dirs [key] (w_dirs w) (w_dirs w')
    /\ (r = Ok tt -> is_Some (w_dirs w' !! key)).
Proof.
  unfold mkdir. destruct (w_dirs w !! key) as [fs|] eqn:E.
  - exists (Ok tt), w. split; [reflexivity|]. split; [apply only_dirs_refl|].
    split; [apply adds_dirs_refl|]. intros _. rewrite E. eauto.
  - destruct (os_mkdir env key (w_dirs w)) as [e|].
    + exists (Raise e), w. split; [reflexivity|]. split; [apply only_dirs_refl|].
      split; [apply adds_dirs_refl|]. discriminate.
    + eexists. eexists. split; [reflexivity|]. split; [repeat split|].
      split.
      * intros d. simpl. destruct (decide (key = d)) as [<-|Hne].
        -- right. rewrite lookup_insert_eq. simpl. auto.
        -- left. apply lookup_insert_ne. exact Hne.
      * intros _. simpl. rewrite lookup_insert_eq. eauto.
Qed.

Lemma mkdirs_run (keys : list string) (w : World) :
  exists r w',
    for_each keys (fun (_ : unit) key => mkdir env key) tt w = (r, w')
    /\ only_dirs w w'
    /\ adds_dirs keys (w_dirs w) (w_dirs w')
    /\ (r = Ok tt -> forall k, In k keys -> is_Some (w_dirs w' !! k)).
Proof.
  revert w. induction keys as [|key keys IH]; intros w.
  - exists (Ok tt), w. split; [reflexivity|]. split; [apply only_dirs_refl|].
    split; [apply adds_dirs_refl|]. intros _ k [].
  - destruct (mkdir_run key w) as (r1 & w1 & E1 & O1 & A1 & S1).
    simpl. unfold bind at 1. rewrite E1.
    destruct r1 as [[]|e].
    + destruct (IH w1) as (r & w' & E & O & A & S).
      exists r, w'. split; [exact E|].
      split; [eapply only_dirs_trans; eassumption|]. split.
      * eapply adds_dirs_trans.
        -- eapply adds_dirs_incl; [|exact A1]. intros k [<-|[]]. simpl. auto.
        -- eapply adds_dirs_incl; [|exact A]. intros k Hk. simpl. auto.
      * intros Hr k [<-|Hk]; [|apply S; assumption].
        destruct (S1 eq_refl) as [fs Hfs].
        rewrite (adds_dirs_keeps _ _ _ _ _ A Hfs). eauto.
    + exists (Raise e), w1. split; [reflexivity|]. split; [exact O1|]. split.
      * eapply adds_dirs_incl; [|exact A1]. intros k [<-|[]]. simpl. auto.
      * discriminate.
Qed.

(** [os.makedirs]: it touches the tree only, adds nothing but the
    directories on the way, each empty, and when it returns they are all
    there. *)
Lemma makedirs_run (path : string) (w : World) :
  exists r w',
    makedirs env path w = (r, w')
    /\ only_dirs w w'
    /\ adds_dirs (dir_keys path) (w_dirs w) (w_dirs w')
    /\ (r = Ok tt -> forall k, In k (dir_keys path) -> is_Some (w_dirs w' !! k)).
Proof.
  unfold makedirs. destruct (String.eqb path EmptyString).
  - exists (Raise OSError), w. split; [reflexivity|].
    split; [apply only_dirs_refl|]. split; [apply adds_dirs_refl|]. discriminate.
  - apply mkdirs_run.
Qed.

Lemma mkdir_dirs_only (key : string) (w1 w2 : World) :
  w_dirs w1 = w_dirs w2 ->
  (mkdir env key w1).1 = (mkdir env key w2).1
  /\ w_dirs (mkdir env key w1).2 = w_dirs (mkdir env key w2).2.
Proof.
  intros E. unfold mkdir. rewrite E.
  destruct (w_dirs w2 !! key); [auto|].
  destruct (os_mkdir env key (w_dirs w2)); simpl; rewrite ?E; auto.
Qed.

Lemma mkdirs_dirs_only (keys : list string) (w1 w2 : World) :
  w_dirs w1 = w_dirs w2 ->
  let loop := for_each keys (fun (_ : unit) key => mkdir env key) tt in
  (loop w1).1 = (loop w2).1 /\ w_dirs (loop w1).2 = w_dirs (loop w2).2.
Proof.
  revert w1 w2. induction keys as [|key keys IH]; intros w1 w2 E; simpl.
  - auto.
  - unfold bind. destruct (mkdir_dirs_only key w1 w2 E) as [R D].
    destruct (mkdir env key w1) as [[[]|e1] wa],
             (mkdir env key w2) as [[[]|e2] wb]; simpl in R, D;
      try discriminate.
    + apply IH, D.
    + simpl. split; [exact R | exact D].
Qed.

(** What [os.makedirs] does depends on the tree only. *)
Lemma makedirs_dirs_only (path : string) (w1 w2 : World) :
  w_dirs w1 = w_dirs w2 ->
  (makedirs env path w1).1 = (makedirs env path w2).1
  /\ w_dirs (makedirs env path w1).2 = w_dirs (makedirs env path w2).2.
Proof.
  intros E. unfold makedirs. destruct (String.eqb path EmptyString).
  - simpl. auto.
  - apply mkdirs_dirs_only, E.
Qed.


(** *** The download *)

Lemma open_download_run (tmpdir : nat) (tarball_name : string) (w : World) :
  exists r w',
    open_download env tmpdir tarball_name w = (r, w')
    /\ succeeds r = opens env tarball_name
    /\ w_versions w' = w_versions w /\ w_dirs w' = w_dirs w
    /\ w_clock w' = w_clock w /\ w_sleeps w' = w_sleeps w
    /\ delete tmpdir (w_tmp w') = delete tmpdir (w_tmp w)
    /\ w_strays w'
       = w_strays w
         ++ match landing_of tarball_name with
            | Outside =>
                match os_open_outside env tarball_name with
                | None => [tarball_name]
                | Some _ => []
                end
            | _ => []
            end.
Proof.
  unfold open_download, opens.
  destruct (landing_of tarball_name).
  - eexists. eexists. split; [reflexivity|]. simpl.
    rewrite delete_insert_eq, app_nil_r. repeat split.
  - destruct (os_open_outside env tarball_name) as [e|].
    + exists (Raise e), w. rewrite app_nil_r. repeat split.
    + eexists. eexists. split; [reflexivity|]. simpl. repeat split.
  - exists (Raise OSError), w. rewrite app_nil_r. repeat split.
Qed.

(** The [try] block, case by case.  [w0] is the world in which the loop
    over the extracted files starts, if it is reached. *)
Lemma extract_images_run (tmpdir : nat) (t : TarballEntry)
    (output_base package_name combined_name : string) (w : World) :
  let path := path_join output_base combined_name in
  exists r w1 w0,
    extract_images env tmpdir (name t) (url t)
      output_base package_name combined_name w = (r, w1)
    /\ w_versions w1 = w_versions w
    /\ w_clock w1 = w_clock w
    /\ w_sleeps w1 = w_sleeps w ++ [Jitter]
    /\ delete tmpdir (w_tmp w1) = delete tmpdir (w_tmp w)
    /\ w_strays w1 = w_strays w ++ left_outside env t
    /\ adds_dirs (dir_keys path) (w_dirs w) (w_dirs w0)
    /\ match net_archive env (url t) with
       | Respond (Tar members) =>
           if saved env t && succeeds (makedirs env path w).1
           then
             (forall k, In k (dir_keys path) -> is_Some (w_dirs w0 !! k))
             /\ w_dirs w1
                = w_dirs (for_each members
                            (fun (_ : unit) m => copy_member path package_name m)
                            tt w0).2
             /\ r = match (for_each members
                             (fun (_ : unit) m => copy_member path package_name m)
                             tt w0).1 with
                    | Ok _ => Ok true
                    | Raise e => Raise e
                    end
           else w_dirs w1 = w_dirs w0 /\ succeeds r = false
       | _ => w_dirs w1 = w_dirs w /\ succeeds r = false
       end.
Proof.
  intros path. unfold extract_images, download_to, left_outside, saved.
  rewrite (bind_ok (sleep Jitter) _ w (add_sleeps [Jitter] w) tt eq_refl).
  set (ws := add_sleeps [Jitter] w).
  destruct (net_archive env (url t)) as [a|e].
  2: { exists (Raise e), ws, w. rewrite app_nil_r.
       split; [reflexivity|]. repeat split. apply adds_dirs_refl. }
  destruct (open_download_run tmpdir (name t) ws)
    as (ro & wo & Ho & So & Vo & Do & Co & Lo & To & Yo).
  simpl in Vo, Do, Co, Lo, To, Yo.
  rewrite <- So.
  destruct (landing_of (name t)) eqn:Hland.
  all: unfold bind at 1; unfold bind at 1; rewrite Ho.
  all: destruct ro as [[]|eo].
  all: cbn [succeeds andb].
  all: try (exists (Raise eo), wo, w;
            split; [reflexivity|];
            split; [exact Vo|]; split; [exact Co|]; split; [exact Lo|];
            split; [exact To|]; split; [exact Yo|];
            split; [apply adds_dirs_refl|];
            destruct a; split; auto; fail).
  all: destruct (net_read_error env (url t)) as [er|].
  all: try (exists (Raise er), wo, w;
            split; [reflexivity|];
            split; [exact Vo|]; split; [exact Co|]; split; [exact Lo|];
            split; [exact To|]; split; [exact Yo|];
            split; [apply adds_dirs_refl|];
            destruct a; split; auto; fail).
  all: unfold ret at 1; destruct a as [|members].
  all: try (exists (Raise ReadError), wo, w;
            split; [reflexivity|];
            split; [exact Vo|]; split; [exact Co|]; split; [exact Lo|];
            split; [exact To|]; split; [exact Yo|];
            split; [apply adds_dirs_refl|]; split; auto; fail).
  all: unfold extractall; unfold bind at 1; unfold ret at 1; fold path.
  all: destruct (makedirs_run path wo) as (rm & wm & Hm & Om & Am & Sm).
  all: destruct (makedirs_dirs_only path wo w Do) as [Rm _].
  all: rewrite <- Rm, Hm; cbn [fst].
  all: rewrite Do in Am.
  all: destruct Om as (Vm & Tm & Cm & Lm & Ym).
  all: unfold bind at 1; rewrite Hm.
  all: destruct rm as [[]|em]; cbn [succeeds].
  all: try (exists (Raise em), wm, wm;
            split; [reflexivity|];
            split; [congruence|]; split; [congruence|]; split; [congruence|];
            split; [congruence|]; split; [congruence|];
            split; [exact Am|]; split; auto; fail).
  all: pose proof (loop_only_dirs path package_name members wm)
         as (Vl & Tl & Cl & Ll & Yl).
  all: exists (match (for_each members
                        (fun (_ : unit) m => copy_member path package_name m)
                        tt wm).1 with
               | Ok _ => Ok true
               | Raise e => Raise e
               end),
         (for_each members
            (fun (_ : unit) m => copy_member path package_name m) tt wm).2,
         wm.
  all: split;
    [unfold bind;
     destruct (for_each members
                 (fun (_ : unit) m => copy_member path package_name m) tt wm)
       as [[[]|el] wl]; reflexivity|].
  all: split; [congruence|]; split; [congruence|]; split; [congruence|].
  all: split; [congruence|]; split; [congruence|].
  all: split; [exact Am|]; split; [apply Sm; reflexivity|]; split; reflexivity.
Qed.

Lemma fresh_tmp_absent (w : World) : w_tmp w !! fresh (dom (w_tmp w)) = None.
Proof. apply not_elem_of_dom. apply is_fresh. Qed.

(** [download_and_extract], case by case: it always returns a boolean,
    and the world it leaves differs from the one it found by one sleep, by
    what was made of and written to the output tree, and by the download
    if it was written outside the temporary directory.  [w0] is the world
    in which the loop over the extracted files starts, if it is reached. *)
Lemma download_and_extract_run (t : TarballEntry) (base : string) (w : World) :
  let package_name := (extract_version_info (name t)).1 in
  let path := output_path t base in
  exists b w' w0,
    download_and_extract env t base w = (Ok b, w')
    /\ w_versions w' = w_versions w
    /\ w_tmp w' = w_tmp w
    /\ w_clock w' = w_clock w
    /\ w_sleeps w' = w_sleeps w ++ [Jitter]
    /\ w_strays w' = w_strays w ++ left_outside env t
    /\ adds_dirs (dir_keys path) (w_dirs w) (w_dirs w0)
    /\ match net_archive env (url t) with
       | Respond (Tar members) =>
           if saved env t && succeeds (makedirs env path w).1
           then
             (forall k, In k (dir_keys path) -> is_Some (w_dirs w0 !! k))
             /\ w_dirs w'
                = w_dirs (for_each members
                            (fun (_ : unit) m => copy_member path package_name m)
                            tt w0).2
             /\ b = succeeds (for_each members
                                (fun (_ : unit) m => copy_member path package_name m)
                                tt w0).1
           else w_dirs w' = w_dirs w0 /\ b = false
       | _ => w_dirs w' = w_dirs w /\ b = false
       end.
Proof.
  intros package_name path. subst package_name path.
  unfold download_and_extract, output_path.
  destruct (extract_version_info (name t)) as [pkg ver]. simpl fst.
  unfold with_tempdir.
  set (tmp := fresh (dom (w_tmp w))).
  unfold bind at 1.
  change (tmp_create tmp "extracted" (set_tmp (<[tmp:=∅]> (w_tmp w)) w))
    with (Ok tt, (tmp_create tmp "extracted" (set_tmp (<[tmp:=∅]> (w_tmp w)) w)).2).
  cbv iota beta.
  set (wc := (tmp_create tmp "extracted" (set_tmp (<[tmp:=∅]> (w_tmp w)) w)).2).
  assert (Htmp : delete tmp (w_tmp wc) = w_tmp w).
  { subst wc. simpl. rewrite !delete_insert_eq.
    apply delete_id, fresh_tmp_absent. }
  destruct (extract_images_run tmp t base pkg (normalize_package_name pkg) wc)
    as (r & w1 & w0 & E & V & C & L & T & Y & A & Hcase).
  cbv zeta in E, A, Hcase.
  assert (Dc : w_dirs wc = w_dirs w) by reflexivity.
  destruct (makedirs_dirs_only (path_join base (normalize_package_name pkg)) wc w Dc)
    as [Rm _].
  rewrite Rm in Hcase. rewrite Dc in A, Hcase.
  unfold try_except. rewrite E.
  exists (match r with Ok b => b | Raise _ => false end),
         (set_tmp (delete tmp (w_tmp w1)) w1), w0.
  split; [destruct r; reflexivity|].
  split; [exact V|]. split; [simpl; congruence|]. split; [exact C|].
  split; [exact L|]. split; [exact Y|]. split; [exact A|].
  destruct (net_archive env (url t)) as [[|members]|e].
  - destruct Hcase as [Hd Hr]. split; [exact Hd|]. destruct r; [discriminate|auto].
  - destruct (saved env t && succeeds (makedirs env (path_join base (normalize_package_name pkg)) w).1).
    + destruct Hcase as (Hk & Hd & ->). split; [exact Hk|]. split; [exact Hd|].
      destruct ((for_each members
                   (fun (_ : unit) m =>
                      copy_member (path_join base (normalize_package_name pkg)) pkg m)
                   tt w0).1) as [[]|e]; reflexivity.
    + destruct Hcase as [Hd Hr]. split; [exact Hd|]. destruct r; [discriminate|auto].
  - destruct Hcase as [Hd Hr]. split; [exact Hd|]. destruct r; [discriminate|auto].
Qed.

(** The output tree after a call, in every case: the directories on the
    way may have been added, and then only the loop has written. *)
Lemma download_and_extract_tree (t : TarballEntry) (base : string) (w : World) :
  exists members w0,
    adds_dirs (dir_keys (output_path t base)) (w_dirs w) (w_dirs w0)
    /\ w_dirs (download_and_extract env t base w).2
       = w_dirs (for_each members
                   (fun (_ : unit) m =>
                      copy_member (output_path t base)
                        (extract_version_info (name t)).1 m) tt w0).2
    /\ (members = []
        \/ net_archive env (url t) = Respond (Tar members)).
Proof.
  destruct (download_and_extract_run t base w)
    as (b & w' & w0 & E & _ & _ & _ & _ & _ & A & Hcase).
  rewrite E. simpl snd.
  destruct (net_archive env (url t)) as [[|members]|e].
  - destruct Hcase as [Hd _]. exists [], w. split; [apply adds_dirs_refl|]. auto.
  - destruct (saved env t && succeeds (makedirs env (output_path t base) w).1).
    + destruct Hcase as (_ & Hd & _). exists members, w0. auto.
    + destruct Hcase as [Hd _]. exists [], w0. auto.
  - destruct Hcase as [Hd _]. exists [], w. split; [apply adds_dirs_refl|]. auto.
Qed.






End ArchiveProcessor.



Section CopyTargets.

Variable package_name : string.




End CopyTargets.







(** ** Listing Parser *)

Section OnlySleeps.

Lemma os_ret {A} (a : A) : preserves only_sleeps (ret a).
Proof. apply preserves_ret, only_sleeps_refl. Qed.

Lemma os_lift {A} (r : result A) : preserves only_sleeps (lift r).
Proof. apply preserves_lift, only_sleeps_refl. Qed.

Lemma os_bind {A B} (m : M A) (k : A -> M B) :
  preserves only_sleeps m -> (forall a, preserves only_sleeps (k a)) ->
  preserves only_sleeps (bind m k).
Proof. apply preserves_bind, only_sleeps_trans. Qed.

Lemma os_for_each {A S} (xs : list A) (body : S -> A -> M S) (acc : S) :
  (forall s x, preserves only_sleeps (body s x)) ->
  preserves only_sleeps (for_each xs body acc).
Proof.
  apply preserves_for_each; [apply only_sleeps_refl | apply only_sleeps_trans].
Qed.

Lemma load_versions_run (w : World) : load_versions w = (Ok (loaded w), w).
Proof. unfold load_versions, loaded. destruct (w_versions w); reflexivity. Qed.

End OnlySleeps.

Section ListingFacts.

Variable env : Env.

Lemma get_package_directories_facts :
  preserves only_sleeps (get_package_directories env)
  /\ oblivious (get_package_directories env).
Proof.
  unfold get_package_directories. split.
  - apply os_bind; [apply fetch_page_only_sleeps | intros; apply os_ret].
  - apply oblivious_bind; auto using fetch_page_oblivious, oblivious_ret.
Qed.

Lemma get_tarballs_for_package_facts (package_dir : string) :
  preserves only_sleeps (get_tarballs_for_package env package_dir)
  /\ oblivious (get_tarballs_for_package env package_dir).
Proof.
  unfold get_tarballs_for_package. split.
  - apply os_bind; [apply fetch_page_only_sleeps|].
    intros content. apply os_for_each. intros tarballs tarball.
    apply os_bind; [apply os_lift | intros; apply os_ret].
  - apply oblivious_bind; auto using fetch_page_oblivious.
    intros content. apply oblivious_for_each. intros tarballs tarball.
    apply oblivious_bind; auto using oblivious_lift, oblivious_ret.
Qed.

(** A loop over the directories that folds a pure step over the tarballs
    of each. *)
Lemma dirs_loop_inv {S} (step : S -> list TarballEntry -> S)
    (dirs : list string) (acc acc' : S) (w w' : World) :
  for_each dirs
    (fun acc pkg_dir =>
       tarballs <- get_tarballs_for_package env pkg_dir ;;
       ret (step acc tarballs)) acc w = (Ok acc', w') ->
  exists tss, lists env dirs tss /\ acc' = fold_left step tss acc.
Proof.
  revert acc w. induction dirs as [|d dirs IH]; intros acc w H.
  - simpl in H. inversion H; subst. exists []. split; [constructor|reflexivity].
  - simpl in H. apply bind_inv in H as [(a & w1 & H1 & H2)|(e & _ & ?)];
      [|discriminate].
    apply bind_inv in H1 as [(ts & w2 & H1 & H3)|(e & _ & ?)];
      [|discriminate].
    inversion H3; subst a w2; clear H3.
    apply IH in H2 as (tss & Hl & ->).
    exists (ts :: tss). split; [|reflexivity].
    constructor; [|exact Hl]. intros w0.
    rewrite (proj2 (get_tarballs_for_package_facts d) w0 w), H1. reflexivity.
Qed.

Lemma dirs_loop_run {S} (step : S -> list TarballEntry -> S)
    (dirs : list string) (tss : list (list TarballEntry)) (acc : S) (w : World) :
  lists env dirs tss ->
  (for_each dirs
     (fun acc pkg_dir =>
        tarballs <- get_tarballs_for_package env pkg_dir ;;
        ret (step acc tarballs)) acc w).1 = Ok (fold_left step tss acc).
Proof.
  intros Hl. revert acc w.
  induction Hl as [|d ts dirs tss Hd Hl IH]; intros acc w; [reflexivity|].
  simpl. unfold bind at 1. unfold bind at 1.
  specialize (Hd w).
  destruct (get_tarballs_for_package env d w) as [[ts'|e] w1];
    simpl in Hd; [|discriminate].
  inversion Hd; subst ts'. unfold ret at 1. apply IH.
Qed.

Lemma dirs_loop_only_sleeps {S} (step : S -> list TarballEntry -> S)
    (dirs : list string) (acc : S) :
  preserves only_sleeps
    (for_each dirs
       (fun acc pkg_dir =>
          tarballs <- get_tarballs_for_package env pkg_dir ;;
          ret (step acc tarballs)) acc).
Proof.
  apply os_for_each. intros s d.
  apply os_bind; [apply get_tarballs_for_package_facts | intros; apply os_ret].
Qed.

End ListingFacts.

(** ** Update Orchestrator *)

Section OrchestratorFacts.

Variable env : Env.

Lemma run_bind {A B} (m : M A) (k : A -> M B) (w : World) (a : A) :
  (m w).1 = Ok a -> bind m k w = k a (m w).2.
Proof.
  unfold bind. destruct (m w) as [[a'|e] w1]; simpl; intros H;
    inversion H; reflexivity.
Qed.

Lemma fold_left_app_concat {A} (tss : list (list A)) (acc : list A) :
  fold_left (fun acc ts => acc ++ ts) tss acc = acc ++ concat tss.
Proof.
  revert acc. induction tss as [|ts tss IH]; intros acc; simpl.
  - rewrite app_nil_r. reflexivity.
  - rewrite IH, app_assoc. reflexivity.
Qed.

Lemma fold_left_concat {A S} (f : S -> A -> S) (tss : list (list A)) (acc : S) :
  fold_left (fun acc ts => fold_left f ts acc) tss acc
  = fold_left f (concat tss) acc.
Proof.
  revert acc. induction tss as [|ts tss IH]; intros acc; simpl; [reflexivity|].
  rewrite IH, fold_left_app. reflexivity.
Qed.

(** The remote listing, when it can be read, is the concatenation of what
    the directories list. *)
Lemma remote_entries_inv (w : World) (entries : list TarballEntry) :
  (remote_entries env w).1 = Ok entries ->
  exists dirs tss,
    (forall w0, (get_package_directories env w0).1 = Ok dirs)
    /\ lists env dirs tss /\ entries = concat tss.
Proof.
  unfold remote_entries. intros H.
  destruct (get_package_directories env w) as [[dirs|e] w1] eqn:H1.
  - rewrite (run_bind _ _ w dirs) in H by (rewrite H1; reflexivity).
    rewrite H1 in H. simpl snd in H.
    destruct (for_each dirs
                (fun entries pkg_dir =>
                   tarballs <- get_tarballs_for_package env pkg_dir ;;
                   ret (entries ++ tarballs)) [] w1) as [[es|e] w2] eqn:L;
      simpl in H; [|discriminate].
    inversion H; subst es.
    apply (dirs_loop_inv env (fun acc ts => acc ++ ts)) in L as (tss & Hl & ->).
    exists dirs, tss. split; [|split; [exact Hl|apply (fold_left_app_concat tss [])]].
    intros w0.
    rewrite (proj2 (get_package_directories_facts env) w0 w), H1. reflexivity.
  - unfold bind in H. rewrite H1 in H. discriminate.
Qed.

Lemma remote_entries_run (w : World) (dirs : list string)
    (tss : list (list TarballEntry)) :
  (get_package_directories env w).1 = Ok dirs ->
  lists env dirs tss ->
  (remote_entries env w).1 = Ok (concat tss).
Proof.
  intros Hd Hl. unfold remote_entries.
  rewrite (run_bind _ _ w dirs) by exact Hd.
  rewrite (dirs_loop_run env (fun acc ts => acc ++ ts) dirs tss) by exact Hl.
  rewrite fold_left_app_concat. reflexivity.
Qed.

Lemma any_update_run (existing : gmap string InventoryRecord)
    (dirs : list string) (tss : list (list TarballEntry)) (w : World) :
  lists env dirs tss ->
  (any_update env existing dirs w).1
  = Ok (existsb (is_update existing) (concat tss)).
Proof.
  intros Hl. revert w.
  induction Hl as [|d ts dirs tss Hd Hl IH]; intros w; [reflexivity|].
  simpl. rewrite (run_bind _ _ w ts) by apply Hd.
  rewrite existsb_app.
  destruct (existsb (is_update existing) ts); [reflexivity | apply IH].
Qed.

Lemma any_update_only_sleeps (existing : gmap string InventoryRecord)
    (dirs : list string) :
  preserves only_sleeps (any_update env existing dirs).
Proof.
  induction dirs as [|d dirs IH]; simpl; [apply os_ret|].
  apply os_bind; [apply get_tarballs_for_package_facts|].
  intros ts. destruct (existsb (is_update existing) ts); [apply os_ret | exact IH].
Qed.

Lemma has_updates_only_sleeps : preserves only_sleeps (has_updates env).
Proof.
  unfold has_updates. apply os_bind.
  - intros w. rewrite load_versions_run. apply only_sleeps_refl.
  - intros versions. apply os_bind; [apply get_package_directories_facts|].
    intros dirs. apply any_update_only_sleeps.
Qed.

Lemma has_updates_run (w : World) (entries : list TarballEntry) :
  (remote_entries env w).1 = Ok entries ->
  (has_updates env w).1 = Ok (existsb (is_update (inventory w)) entries).
Proof.
  intros H. apply remote_entries_inv in H as (dirs & tss & Hd & Hl & ->).
  unfold has_updates. rewrite (run_bind _ _ w (loaded w))
    by (rewrite load_versions_run; reflexivity).
  rewrite load_versions_run. simpl snd.
  rewrite (run_bind _ _ w dirs) by apply Hd.
  apply any_update_run, Hl.
Qed.




Lemma is_update_true (existing : gmap string InventoryRecord) (t : TarballEntry) :
  is_update existing t = true
  <-> MIN_SIZE_BYTES <= size_bytes t /\ existing !! version_key (name t) = None.
Proof.
  unfold is_update, version_key.
  destruct (Z.ltb_spec (size_bytes t) MIN_SIZE_BYTES) as [Hlt|Hge].
  - split; [discriminate | lia].
  - destruct (extract_version_info (name t)) as [pn v].
    destruct (existing !! pkg_key pn v); split; intros H;
      try discriminate; auto. destruct H; discriminate.
Qed.

End OrchestratorFacts.




Section ScanFacts.

Variable env : Env.
Variable existing : gmap string InventoryRecord.

Lemma scan_tarball_cases (q : list TarballEntry * list TarballEntry)
    (t : TarballEntry) :
  scan_tarball existing q t =
  if is_update existing t then
    if known_package existing (extract_version_info (name t)).1
    then (q.1, q.2 ++ [t]) else (q.1 ++ [t], q.2)
  else q.
Proof.
  unfold scan_tarball, is_update. destruct q as [new upd].
  destruct (size_bytes t <? MIN_SIZE_BYTES); [reflexivity|].
  destruct (extract_version_info (name t)) as [pn v]. simpl.
  destruct (existing !! pkg_key pn v); reflexivity.
Qed.

Lemma scan_fold_in (entries : list TarballEntry)
    (q : list TarballEntry * list TarballEntry) (t : TarballEntry) :
  In t ((fold_left (scan_tarball existing) entries q).1
        ++ (fold_left (scan_tarball existing) entries q).2)
  <-> In t (q.1 ++ q.2) \/ (In t entries /\ is_update existing t = true).
Proof.
  revert q. induction entries as [|x entries IH]; intros q; simpl.
  - tauto.
  - rewrite IH, scan_tarball_cases.
    destruct (is_update existing x) eqn:U.
    + destruct (known_package existing (extract_version_info (name x)).1);
        simpl; rewrite !in_app_iff; simpl; split; intros H;
        intuition (subst; auto).
    + split; intros H; intuition (subst; auto). congruence.
Qed.


End ScanFacts.

Section RunFacts.

Variable env : Env.

(** The first half of [check_and_download], read backwards. *)
Lemma check_for_updates_inv (w w' : World) (versions : InventoryFile)
    (q : list TarballEntry * list TarballEntry) :
  check_for_updates env w = (Ok (versions, q), w') ->
  versions = loaded w /\ only_sleeps w w'
  /\ exists entries,
       (remote_entries env w).1 = Ok entries
       /\ q = fold_left (scan_tarball (inventory w)) entries ([], []).
Proof.
  intros H.
  assert (Hs : only_sleeps w w').
  { change w' with ((Ok (versions, q), w').2). rewrite <- H.
    unfold check_for_updates. apply os_bind.
    - intros w0. rewrite load_versions_run. apply only_sleeps_refl.
    - intros v. apply os_bind; [apply get_package_directories_facts|].
      intros dirs. apply os_bind; [|intros; apply os_ret].
      apply (dirs_loop_only_sleeps env
               (fun q ts => fold_left (scan_tarball (default ∅ (packages v))) ts q)). }
  unfold check_for_updates in H.
  rewrite (run_bind _ _ w (loaded w)) in H
    by (rewrite load_versions_run; reflexivity).
  rewrite load_versions_run in H. simpl snd in H.
  apply bind_inv in H as [(dirs & w1 & H1 & H2)|(e & _ & ?)]; [|discriminate].
  apply bind_inv in H2 as [(q' & w2 & H2 & H3)|(e & _ & ?)]; [|discriminate].
  inversion H3; subst versions q' w2; clear H3.
  split; [reflexivity|]. split; [exact Hs|].
  apply (dirs_loop_inv env
           (fun q ts => fold_left (scan_tarball (default ∅ (packages (loaded w)))) ts q))
    in H2 as (tss & Hl & ->).
  exists (concat tss). split.
  - apply (remote_entries_run env w dirs); [rewrite H1; reflexivity | exact Hl].
  - apply fold_left_concat.
Qed.

(** ... and forwards. *)
Lemma check_for_updates_run (w : World) (entries : list TarballEntry) :
  (remote_entries env w).1 = Ok entries ->
  (check_for_updates env w).1
  = Ok (loaded w, fold_left (scan_tarball (inventory w)) entries ([], [])).
Proof.
  intros H. apply remote_entries_inv in H as (dirs & tss & Hd & Hl & ->).
  unfold check_for_updates.
  rewrite (run_bind _ _ w (loaded w)) by (rewrite load_versions_run; reflexivity).
  rewrite load_versions_run. simpl snd.
  rewrite (run_bind _ _ w dirs) by apply Hd.
  pose proof (dirs_loop_run env
                (fun q ts => fold_left (scan_tarball (default ∅ (packages (loaded w)))) ts q)
                dirs tss ([], []) (get_package_directories env w).2 Hl) as L.
  rewrite (run_bind _ _ _ _ L). simpl.
  rewrite fold_left_concat. reflexivity.
Qed.

(** [save_versions] rewrites the inventory file and reads the clock; the
    [packages] mapping goes to the file as it is. *)
Lemma save_versions_run (data : InventoryFile) (w : World) :
  exists w',
    save_versions data w = (Ok tt, w')
    /\ (exists lc st, w_versions w'
                      = Some {| packages := packages data;
                                last_checked := lc; stats := st |})
    /\ w_dirs w' = w_dirs w /\ w_tmp w' = w_tmp w.
Proof. eexists. split; [reflexivity|]. simpl. eauto. Qed.

(** One iteration of the download loop. *)
Lemma process_tarball_run (existing : gmap string InventoryRecord)
    (t : TarballEntry) (w : World) :
  exists (b : bool) (w1 w' : World) (now : Z),
    download_and_extract env t OUTPUT_DIR w = (Ok b, w1)
    /\ w_versions w' = w_versions w
    /\ process_tarball env existing t w
       = (Ok (if b then <[version_key (name t) := record_of t now]> existing
              else existing), w').
Proof.
  destruct (download_and_extract_run env t OUTPUT_DIR w)
    as (b & w1 & w0 & E & V & _).
  unfold process_tarball, version_key, record_of.
  rewrite (bind_ok _ _ _ _ _ E).
  destruct b.
  - destruct (extract_version_info (name t)) as [pn v].
    exists true, w1, (utcnow w1).2, (w_clock w1).
    split; [exact E|]. split; [exact V|]. reflexivity.
  - exists false, w1, w1, 0. split; [exact E|]. split; [exact V|]. reflexivity.
Qed.

(** The download loop: it never raises; what it adds to the inventory are
    records of queued tarballs; it keeps every key; and a tarball whose
    processing succeeds has its key in the inventory afterwards. *)
Lemma process_loop_run (ts : list TarballEntry)
    (existing : gmap string InventoryRecord) (w : World) :
  exists existing' w',
    for_each ts (process_tarball env) existing w = (Ok existing', w')
    /\ w_versions w' = w_versions w
    /\ (forall k r, existing' !! k = Some r ->
                    existing !! k = Some r
                    \/ exists t now, In t ts /\ k = version_key (name t)
                                     /\ r = record_of t now)
    /\ (forall k, is_Some (existing !! k) -> is_Some (existing' !! k))
    /\ (forall t, In t ts ->
                  (forall w0, (download_and_extract env t OUTPUT_DIR w0).1 = Ok true) ->
                  is_Some (existing' !! version_key (name t))).
Proof.
  revert existing w. induction ts as [|t ts IH]; intros existing w.
  - exists existing, w. simpl. unfold ret. repeat split; auto.
    intros t [].
  - destruct (process_tarball_run existing t w)
      as (b & w1 & w2 & now & Hd & V2 & Hp).
    destruct (IH (if b then <[version_key (name t) := record_of t now]> existing
                  else existing) w2)
      as (existing' & w' & Hl & V' & Hnew & Hkeep & Hok).
    exists existing', w'. simpl. rewrite (bind_ok _ _ _ _ _ Hp).
    split; [exact Hl|]. split; [congruence|]. split; [|split].
    + intros k r Hr. apply Hnew in Hr as [Hr|(t' & now' & Hin & -> & ->)].
      * destruct b; [|auto].
        destruct (decide (version_key (name t) = k)) as [<-|Hne].
        -- rewrite lookup_insert_eq in Hr. inversion Hr; subst.
           right. exists t, now. auto.
        -- rewrite lookup_insert_ne in Hr by assumption. auto.
      * right. exists t', now'. auto.
    + intros k Hk. apply Hkeep. destruct b; [|exact Hk].
      destruct (decide (version_key (name t) = k)) as [<-|Hne].
      * rewrite lookup_insert_eq. eauto.
      * rewrite lookup_insert_ne by assumption. exact Hk.
    + intros t' [<-|Hin] Hsucc; [|apply Hok; assumption].
      apply Hkeep. specialize (Hsucc w). rewrite Hd in Hsucc.
      inversion Hsucc; subst b. rewrite lookup_insert_eq. eauto.
Qed.

End RunFacts.

Section CheckAndDownload.

Variable env : Env.

(** A run of [check_and_download] that finds nothing to do. *)
Lemma check_and_download_idle (w : World) (versions : InventoryFile) :
  (check_for_updates env w).1 = Ok (versions, ([], [])) ->
  exists w',
    check_and_download env w = (Ok false, w')
    /\ (exists lc st, w_versions w'
                      = Some {| packages := packages versions;
                                last_checked := lc; stats := st |})
    /\ w_dirs w' = w_dirs w /\ w_tmp w' = w_tmp w.
Proof.
  intros H. destruct (check_for_updates env w) as [r wa] eqn:E.
  simpl in H. subst r.
  destruct (check_for_updates_inv env _ _ _ _ E) as (_ & (_ & D & T & _) & _).
  destruct (save_versions_run versions wa) as (w' & Hs & Hv & D' & T').
  exists w'. unfold check_and_download.
  rewrite (bind_ok _ _ _ _ _ E). simpl.
  rewrite (bind_ok _ _ _ _ _ Hs). unfold ret.
  split; [reflexivity|]. split; [exact Hv|]. split; congruence.
Qed.

(** A run of [check_and_download] that returns, read backwards. *)
Lemma check_and_download_inv (w w' : World) (b : bool) :
  check_and_download env w = (Ok b, w') ->
  exists entries doc,
    (remote_entries env w).1 = Ok entries
    /\ w_versions w' = Some doc
    /\ let q := fold_left (scan_tarball (inventory w)) entries ([], []) in
       let existing' := default ∅ (packages doc) in
       (forall k r, existing' !! k = Some r ->
                    inventory w !! k = Some r
                    \/ exists t now, In t (q.1 ++ q.2)
                                     /\ k = version_key (name t)
                                     /\ r = record_of t now)
       /\ (forall k, is_Some (inventory w !! k) -> is_Some (existing' !! k))
       /\ (forall t, In t (q.1 ++ q.2) ->
                     (forall w0, (download_and_extract env t OUTPUT_DIR w0).1 = Ok true) ->
                     is_Some (existing' !! version_key (name t))).
Proof.
  intros H. unfold check_and_download in H.
  apply bind_inv in H as [(checked & wa & Hc & H)|(e & _ & ?)]; [|discriminate].
  destruct checked as [versions [new upd]].
  destruct (check_for_updates_inv env _ _ _ _ Hc) as (-> & _ & entries & He & Hq).
  exists entries. rewrite <- Hq. simpl fst. simpl snd.
  destruct (new ++ upd) as [|t0 rest] eqn:Q.
  - destruct (save_versions_run (loaded w) wa) as (ws & Hs & (lc & st & Hv) & _).
    rewrite (bind_ok _ _ _ _ _ Hs) in H. inversion H; subst b w'; clear H.
    eexists. split; [exact He|]. split; [exact Hv|]. simpl.
    fold (inventory w). repeat split; auto. intros t [].
  - rewrite <- Q in *. clear Q t0 rest.
    apply bind_inv in H as [([] & wm & Hm & H)|(e & _ & ?)]; [|discriminate].
    destruct (process_loop_run env (new ++ upd) (default ∅ (packages (loaded w))) wm)
      as (existing' & wl & Hl & _ & Hnew & Hkeep & Hok).
    rewrite (bind_ok _ _ _ _ _ Hl) in H.
    match type of H with
    | (save_versions ?d ;; _) _ = _ =>
        destruct (save_versions_run d wl) as (ws & Hs & (lc & st & Hv) & _)
    end.
    rewrite (bind_ok _ _ _ _ _ Hs) in H. inversion H; subst b w'; clear H.
    eexists. split; [exact He|]. split; [exact Hv|]. simpl.
    fold (inventory w) in *. auto.
Qed.

End CheckAndDownload.

Section ThresholdFacts.

Variable existing : gmap string InventoryRecord.




End ThresholdFacts.



Section SecondRun.

Variable env : Env.



End SecondRun.




(** ** Size tokens *)

Section FloatFacts.

Import Float64.

Lemma round_half_even_exact (c b : Z) :
  0 < b -> round_half_even (c * b) b = c.
Proof.
  intros Hb. unfold round_half_even.
  rewrite Z.div_mul, Z.mod_mul by lia.
  assert ((2 * 0 <? b) = true) as -> by (apply Z.ltb_lt; lia).
  reflexivity.
Qed.

Lemma floor_log2_scaled (n s j : Z) :
  0 < n -> 0 <= s -> 0 <= j ->
  floor_log2 (n * 2 ^ s * 2 ^ j) (2 ^ s) = Z.log2 n + j.
Proof.
  intros Hn Hs Hj. unfold floor_log2.
  assert (Hps : 0 < 2 ^ s) by (apply Z.pow_pos_nonneg; lia).
  assert (Hpj : 0 < 2 ^ j) by (apply Z.pow_pos_nonneg; lia).
  rewrite !Z.log2_mul_pow2, Z.log2_pow2 by nia.
  pose proof (Z.log2_nonneg n) as Hl.
  replace (j + (s + Z.log2 n) - s) with (Z.log2 n + j) by lia.
  rewrite !Z.max_l, Z.max_r by lia.
  rewrite Z.pow_add_r by lia.
  pose proof (Z.log2_spec n Hn) as [Hlo _].
  assert ((2 ^ s * (2 ^ Z.log2 n * 2 ^ j) <=? n * 2 ^ s * 2 ^ j * 2 ^ 0) = true) as ->
      by (apply Z.leb_le; rewrite Z.pow_0_r; nia).
  reflexivity.
Qed.

Lemma of_ratio_scaled (n s j : Z) :
  0 < n < 2 ^ 53 -> 0 <= s -> 0 <= j <= 900 ->
  of_ratio (n * 2 ^ s * 2 ^ j) (2 ^ s)
  = Finite (n * 2 ^ (52 - Z.log2 n)) (Z.log2 n + j - 52).
Proof.
  intros [Hn Hn53] Hs [Hj Hj900]. unfold of_ratio.
  assert (Hps : 0 < 2 ^ s) by (apply Z.pow_pos_nonneg; lia).
  assert (Hpj : 0 < 2 ^ j) by (apply Z.pow_pos_nonneg; lia).
  assert ((n * 2 ^ s * 2 ^ j <=? 0) = false) as -> by (apply Z.leb_gt; nia).
  rewrite floor_log2_scaled by lia.
  pose proof (Z.log2_nonneg n) as Hl0.
  assert (Hl52 : Z.log2 n < 53) by (apply Z.log2_lt_pow2; lia).
  set (L := Z.log2 n) in *.
  rewrite (Z.max_l (L + j - 52)) by lia.
  set (e := L + j - 52).
  assert (Hm : round_half_even (n * 2 ^ s * 2 ^ j * 2 ^ Z.max (- e) 0)
                 (2 ^ s * 2 ^ Z.max e 0) = n * 2 ^ (52 - L)).
  { replace (n * 2 ^ s * 2 ^ j * 2 ^ Z.max (- e) 0)
      with (n * 2 ^ (52 - L) * (2 ^ s * 2 ^ Z.max e 0)).
    - apply round_half_even_exact.
      assert (0 < 2 ^ Z.max e 0) by (apply Z.pow_pos_nonneg; lia). nia.
    - assert (E : 2 ^ (52 - L) * 2 ^ Z.max e 0 = 2 ^ j * 2 ^ Z.max (- e) 0).
      { rewrite <- !Z.pow_add_r by lia. f_equal. lia. }
      nia. }
  rewrite Hm.
  assert ((2 ^ 1024 <=? n * 2 ^ (52 - L) * 2 ^ Z.max e 0) = false) as ->;
    [|reflexivity].
  apply Z.leb_gt.
  assert (n * 2 ^ (52 - L) < 2 ^ 53).
  { pose proof (Z.log2_spec n Hn) as [_ Hhi]. fold L in Hhi.
    replace 53 with (Z.succ L + (52 - L)) by lia.
    rewrite Z.pow_add_r by lia.
    assert (0 < 2 ^ (52 - L)) by (apply Z.pow_pos_nonneg; lia). nia. }
  assert (2 ^ Z.max e 0 <= 2 ^ 900) by (apply Z.pow_le_mono_r; lia).
  assert (0 < 2 ^ Z.max e 0) by (apply Z.pow_pos_nonneg; lia).
  assert (0 < 2 ^ (52 - L)) by (apply Z.pow_pos_nonneg; lia).
  replace (2 ^ 1024) with (2 ^ 53 * 2 ^ 900 * 2 ^ 71)
    by (rewrite <- !Z.pow_add_r by lia; reflexivity).
  assert (1 <= 2 ^ 71) by (apply (Z.pow_le_mono_r 2 0 71); lia).
  assert (0 < 2 ^ 53) by (apply Z.pow_pos_nonneg; lia).
  assert (0 < 2 ^ 900) by (apply Z.pow_pos_nonneg; lia).
  nia.
Qed.

(** A whole number below [2^53] times a power of two, through the
    floats and back, is exact. *)
Lemma mul_then_int (n j : Z) :
  0 <= n < 2 ^ 53 -> 0 <= j <= 900 ->
  to_int (mul_int (of_ratio n 1) (2 ^ j)) = Ok (n * 2 ^ j).
Proof.
  intros [Hn0 Hn] Hj.
  destruct (Z.eq_dec n 0) as [->|Hne]; [reflexivity|].
  replace (of_ratio n 1) with (of_ratio (n * 2 ^ 0 * 2 ^ 0) (2 ^ 0))
    by (f_equal; rewrite ?Z.pow_0_r; lia).
  rewrite of_ratio_scaled by lia.
  pose proof (Z.log2_nonneg n) as Hl0.
  assert (Hl52 : Z.log2 n < 53) by (apply Z.log2_lt_pow2; lia).
  set (L := Z.log2 n) in *.
  unfold mul_int.
  rewrite (Z.max_r (L + 0 - 52)), (Z.max_l (- (L + 0 - 52))) by lia.
  replace (n * 2 ^ (52 - L) * 2 ^ j * 2 ^ 0) with (n * 2 ^ (52 - L) * 2 ^ j)
    by (rewrite Z.pow_0_r; lia).
  replace (- (L + 0 - 52)) with (52 - L) by lia.
  rewrite of_ratio_scaled by lia. fold L.
  unfold to_int. f_equal.
  set (e := L + j - 52).
  assert (0 < 2 ^ Z.max (- e) 0) by (apply Z.pow_pos_nonneg; lia).
  replace (n * 2 ^ (52 - L) * 2 ^ Z.max e 0)
    with (n * 2 ^ j * 2 ^ Z.max (- e) 0).
  - apply Z.div_mul. lia.
  - assert (E : 2 ^ (52 - L) * 2 ^ Z.max e 0 = 2 ^ j * 2 ^ Z.max (- e) 0).
    { rewrite <- !Z.pow_add_r by lia. f_equal. lia. }
    nia.
Qed.

Lemma pow2_pos (k : Z) : 0 <= k -> 0 < 2 ^ k.
Proof. intros H. apply Z.pow_pos_nonneg; lia. Qed.

Lemma round_half_even_bounds (a b : Z) :
  0 <= a -> 0 < b ->
  a / b <= round_half_even a b <= a / b + 1
  /\ (round_half_even a b = a / b + 1 -> b <= 2 * (a mod b)).
Proof.
  intros Ha Hb. unfold round_half_even.
  destruct (Z.ltb_spec (2 * (a mod b)) b); [lia|].
  destruct (Z.ltb_spec b (2 * (a mod b))); [lia|].
  destruct (Z.even (a / b)); lia.
Qed.

(** [floor_log2 a b] is the [r] with [2^r <= a / b < 2^(r+1)]; the two
    bounds are stated scaled by [2^s], to stay among the integers. *)
Lemma floor_log2_bounds (a b : Z) :
  0 < a -> 0 < b ->
  (forall s, 0 <= s -> 0 <= s + floor_log2 a b ->
             b * 2 ^ (s + floor_log2 a b) <= a * 2 ^ s)
  /\ (forall s, 0 <= s -> 0 <= s + floor_log2 a b + 1 ->
                a * 2 ^ s < b * 2 ^ (s + floor_log2 a b + 1)).
Proof.
  intros Ha Hb. unfold floor_log2.
  destruct (Z.log2_spec a Ha) as [Hal Hah].
  destruct (Z.log2_spec b Hb) as [Hbl Hbh].
  pose proof (Z.log2_nonneg a) as Hla. pose proof (Z.log2_nonneg b) as Hlb.
  set (la := Z.log2 a) in *. set (lb := Z.log2 b) in *.
  set (k := la - lb).
  destruct (Z.leb_spec (b * 2 ^ Z.max k 0) (a * 2 ^ Z.max (- k) 0)) as [T|T].
  - split; intros s Hs Hsk.
    + destruct (Z_le_gt_dec 0 k) as [Hk|Hk].
      * rewrite (Z.max_l k 0), (Z.max_r (- k) 0), Z.pow_0_r in T by lia.
        rewrite Z.pow_add_r by lia. pose proof (pow2_pos s Hs). nia.
      * rewrite (Z.max_r k 0), (Z.max_l (- k) 0), Z.pow_0_r in T by lia.
        replace (a * 2 ^ s) with (a * 2 ^ (- k) * 2 ^ (s + k)).
        -- pose proof (pow2_pos (s + k) Hsk). nia.
        -- rewrite <- Z.mul_assoc, <- Z.pow_add_r by lia. do 2 f_equal. lia.
    + assert (E : 2 ^ Z.succ la * 2 ^ s = 2 ^ lb * 2 ^ (s + k + 1)).
      { rewrite <- !Z.pow_add_r by lia. f_equal. lia. }
      pose proof (pow2_pos s Hs). pose proof (pow2_pos (s + k + 1) Hsk).
      pose proof (pow2_pos lb Hlb). nia.
  - split; intros s Hs Hsk.
    + assert (E : 2 ^ Z.succ lb * 2 ^ (s + (k - 1)) = 2 ^ la * 2 ^ s).
      { rewrite <- !Z.pow_add_r by lia. f_equal. lia. }
      pose proof (pow2_pos s Hs). pose proof (pow2_pos (s + (k - 1)) Hsk).
      pose proof (pow2_pos la Hla). nia.
    + replace (s + (k - 1) + 1) with (s + k) in * by lia.
      destruct (Z_le_gt_dec 0 k) as [Hk|Hk].
      * rewrite (Z.max_l k 0), (Z.max_r (- k) 0), Z.pow_0_r in T by lia.
        rewrite Z.pow_add_r by lia. pose proof (pow2_pos s Hs). nia.
      * rewrite (Z.max_r k 0), (Z.max_l (- k) 0), Z.pow_0_r in T by lia.
        replace (a * 2 ^ s) with (a * 2 ^ (- k) * 2 ^ (s + k)).
        -- pose proof (pow2_pos (s + k) Hsk). nia.
        -- rewrite <- Z.mul_assoc, <- Z.pow_add_r by lia. do 2 f_equal. lia.
Qed.

Lemma floor_log2_dyadic (c u s : Z) :
  0 < c -> 0 <= u -> 0 <= s ->
  floor_log2 (c * 2 ^ u) (2 ^ s) = Z.log2 c + u - s.
Proof.
  intros Hc Hu Hs. unfold floor_log2.
  rewrite Z.log2_mul_pow2, Z.log2_pow2 by lia.
  pose proof (Z.log2_nonneg c) as Hl.
  destruct (Z.log2_spec c Hc) as [Hlo _].
  set (L := Z.log2 c) in *.
  replace (u + L - s) with (L + u - s) by lia.
  set (k := L + u - s).
  assert (E : 2 ^ s * 2 ^ Z.max k 0 = 2 ^ L * 2 ^ u * 2 ^ Z.max (- k) 0).
  { rewrite <- !Z.pow_add_r by lia. f_equal. lia. }
  assert ((2 ^ s * 2 ^ Z.max k 0 <=? c * 2 ^ u * 2 ^ Z.max (- k) 0) = true) as ->;
    [|reflexivity].
  apply Z.leb_le. rewrite E.
  pose proof (pow2_pos u Hu). pose proof (pow2_pos (Z.max (- k) 0)). nia.
Qed.

Lemma div_cross (a b c d : Z) :
  0 < b -> 0 < d -> a * d = c * b -> a / b = c / d.
Proof.
  intros Hb Hd E.
  rewrite <- (Z.div_mul_cancel_r a b d), E by lia.
  rewrite (Z.mul_comm b d). apply Z.div_mul_cancel_r; lia.
Qed.

(** A dyadic number [c * 2^(u-s)] with [c < 2^53] and [s <= 1074] is a
    float, and [int] truncates it. *)
Lemma to_int_dyadic (c u s : Z) :
  0 < c < 2 ^ 53 -> 0 <= u <= 900 -> 0 <= s <= 1074 ->
  to_int (of_ratio (c * 2 ^ u) (2 ^ s)) = Ok (c * 2 ^ u / 2 ^ s).
Proof.
  intros [Hc Hc53] [Hu Hu900] [Hs Hs1074]. unfold of_ratio.
  pose proof (pow2_pos u Hu) as Hpu. pose proof (pow2_pos s Hs) as Hps.
  assert ((c * 2 ^ u <=? 0) = false) as -> by (apply Z.leb_gt; nia).
  rewrite floor_log2_dyadic by lia.
  pose proof (Z.log2_nonneg c) as Hl0.
  assert (Hl52 : Z.log2 c < 53) by (apply Z.log2_lt_pow2; lia).
  destruct (Z.log2_spec c Hc) as [_ Hhi].
  set (L := Z.log2 c) in *.
  set (e := Z.max (L + u - s - 52) (- 1074)).
  set (w := u - s - e).
  assert (Hw : 0 <= w <= 52 - L) by (unfold w, e; lia).
  assert (E : 2 ^ w * (2 ^ s * 2 ^ Z.max e 0) = 2 ^ u * 2 ^ Z.max (- e) 0).
  { rewrite <- !Z.pow_add_r by lia. f_equal. unfold w. lia. }
  assert (Hm : round_half_even (c * 2 ^ u * 2 ^ Z.max (- e) 0)
                 (2 ^ s * 2 ^ Z.max e 0) = c * 2 ^ w).
  { replace (c * 2 ^ u * 2 ^ Z.max (- e) 0)
      with (c * 2 ^ w * (2 ^ s * 2 ^ Z.max e 0)) by nia.
    apply round_half_even_exact.
    pose proof (pow2_pos (Z.max e 0)). nia. }
  rewrite Hm.
  assert (Hlt : c * 2 ^ w < 2 ^ 53).
  { assert (2 ^ Z.succ L * 2 ^ w <= 2 ^ 53).
    { rewrite <- Z.pow_add_r by lia. apply Z.pow_le_mono_r; lia. }
    pose proof (pow2_pos w). nia. }
  assert ((2 ^ 1024 <=? c * 2 ^ w * 2 ^ Z.max e 0) = false) as ->.
  { apply Z.leb_gt.
    assert (2 ^ Z.max e 0 <= 2 ^ 900) by (apply Z.pow_le_mono_r; unfold e; lia).
    assert (0 < 2 ^ Z.max e 0) by (apply pow2_pos; lia).
    pose proof (pow2_pos w).
    replace (2 ^ 1024) with (2 ^ 53 * 2 ^ 900 * 2 ^ 71)
      by (rewrite <- !Z.pow_add_r by lia; reflexivity).
    assert (1 <= 2 ^ 71) by (apply (Z.pow_le_mono_r 2 0 71); lia).
    assert (0 < 2 ^ 53) by (apply pow2_pos; lia).
    assert (0 < 2 ^ 900) by (apply pow2_pos; lia).
    nia. }
  unfold to_int. f_equal. apply div_cross.
  - apply pow2_pos. lia.
  - exact Hps.
  - nia.
Qed.

(** What rounding to 53 bits can do to the integer part of [P / D] when
    [P < 2^53]: nothing.  Here [t] is the number of binary places kept
    beyond the integer part. *)
Lemma round_then_floor (P D t : Z) :
  0 <= P -> 0 < D -> 0 <= t -> D < 2 ^ (t + 1) ->
  round_half_even (P * 2 ^ t) D / 2 ^ t = P / D.
Proof.
  intros HP HD Ht Hsmall.
  pose proof (pow2_pos t Ht) as Hpt.
  assert (HPt : 0 <= P * 2 ^ t) by nia.
  destruct (round_half_even_bounds (P * 2 ^ t) D HPt HD) as [[Hlo Hhi] Hup].
  pose proof (Z.div_mod P D ltac:(lia)) as HPD.
  pose proof (Z.mod_pos_bound P D HD) as Hrho.
  pose proof (Z.div_mod (P * 2 ^ t) D ltac:(lia)) as Hq.
  pose proof (Z.mod_pos_bound (P * 2 ^ t) D HD) as Hr.
  set (k := P / D) in *. set (rho := P mod D) in *.
  set (q := P * 2 ^ t / D) in *. set (r := (P * 2 ^ t) mod D) in *.
  assert (Hk0 : 0 <= k) by (apply Z.div_pos; lia).
  assert (Hq1 : k * 2 ^ t <= q).
  { apply Z.div_le_lower_bound; [lia|]. nia. }
  assert (Hq2 : q < (k + 1) * 2 ^ t).
  { apply Z.div_lt_upper_bound; [lia|]. nia. }
  assert (Hm : k * 2 ^ t <= round_half_even (P * 2 ^ t) D < (k + 1) * 2 ^ t).
  { split; [lia|].
    destruct (Z.eq_dec (round_half_even (P * 2 ^ t) D) (q + 1)) as [Eq|]; [|lia].
    specialize (Hup Eq).
    destruct (Z.eq_dec (q + 1) ((k + 1) * 2 ^ t)) as [Eq'|]; [|lia].
    exfalso.
    assert (2 ^ (t + 1) = 2 * 2 ^ t) by (rewrite Z.pow_add_r by lia; lia).
    assert (((k + 1) * D - P) * 2 ^ t = D - r) by nia.
    assert (1 <= (k + 1) * D - P) by lia.
    nia. }
  symmetry. apply Z.div_unique with (round_half_even (P * 2 ^ t) D - k * 2 ^ t).
  - left. lia.
  - lia.
Qed.

(** A decimal [N / D] times a power of two, through the floats and back:
    the integer part of the exact product, as long as the digits [N] times
    the power of two stay below [2^53]. *)
Lemma mul_then_int_ratio (N D j : Z) :
  0 <= N -> 0 < D -> 0 <= j -> N * 2 ^ j < 2 ^ 53 ->
  to_int (mul_int (of_ratio N D) (2 ^ j)) = Ok (N * 2 ^ j / D).
Proof.
  intros HN HD Hj HP.
  pose proof (pow2_pos j Hj) as Hpj.
  destruct (Z.eq_dec N 0) as [->|Hne].
  { simpl. rewrite Z.div_0_l by lia. reflexivity. }
  assert (HN0 : 0 < N) by lia. clear HN Hne.
  assert (Hj53 : j < 53).
  { destruct (Z_lt_ge_dec j 53) as [|Hge]; [assumption|].
    assert (2 ^ 53 <= 2 ^ j) by (apply Z.pow_le_mono_r; lia). nia. }
  destruct (floor_log2_bounds N D HN0 HD) as [Hlow Hupp].
  unfold of_ratio.
  assert ((N <=? 0) = false) as -> by (apply Z.leb_gt; lia).
  set (r0 := floor_log2 N D) in *.
  assert (Hr0 : r0 <= 52 - j).
  { destruct (Z_le_gt_dec r0 (52 - j)) as [|Hgt]; [assumption|]. exfalso.
    specialize (Hlow 0 ltac:(lia) ltac:(lia)).
    rewrite Z.pow_0_r, Z.add_0_l in Hlow.
    assert (2 ^ (53 - j) <= 2 ^ r0) by (apply Z.pow_le_mono_r; lia).
    assert (2 ^ 53 = 2 ^ (53 - j) * 2 ^ j)
      by (rewrite <- Z.pow_add_r by lia; f_equal; lia).
    pose proof (pow2_pos (53 - j)). nia. }
  set (e := Z.max (r0 - 52) (- 1074)).
  set (s := - e).
  assert (Hs : j <= s <= 1074) by (unfold s, e; lia).
  rewrite (Z.max_l s 0), (Z.max_r e 0), Z.pow_0_r, !Z.mul_1_r
    by (unfold s, e; lia).
  pose proof (pow2_pos s ltac:(lia)) as Hps.
  set (t := s - j).
  assert (Est : 2 ^ s = 2 ^ j * 2 ^ t)
    by (rewrite <- Z.pow_add_r by (unfold t; lia); f_equal; unfold t; lia).
  pose proof (pow2_pos t ltac:(unfold t; lia)) as Hpt.
  set (m := round_half_even (N * 2 ^ s) D).
  destruct (round_half_even_bounds (N * 2 ^ s) D ltac:(nia) HD) as [[Hmlo Hmhi] _].
  fold m in Hmlo, Hmhi.
  assert (Hq0 : 0 <= N * 2 ^ s / D) by (apply Z.div_pos; nia).
  (* the quotient stays below 2^53, or 2^52 among the subnormals *)
  assert (Hcase : (s = 52 - r0 /\ N * 2 ^ s < D * 2 ^ 53)
                  \/ (s = 1074 /\ N * 2 ^ s < D * 2 ^ 52)).
  { destruct (Z_le_gt_dec (- 1074) (r0 - 52)) as [Hn|Hsub].
    - left. split; [unfold s, e; lia|].
      assert (Es : s = 52 - r0) by (unfold s, e; lia).
      specialize (Hupp s ltac:(lia) ltac:(lia)).
      replace (s + r0 + 1) with 53 in Hupp by lia. exact Hupp.
    - right. split; [unfold s, e; lia|].
      assert (Es : s = 1074) by (unfold s, e; lia).
      set (sg := Z.max 1074 (- r0 - 1)).
      specialize (Hupp sg ltac:(unfold sg; lia) ltac:(unfold sg; lia)).
      assert (2 ^ (sg + r0 + 1) * 2 ^ s <= 2 ^ 52 * 2 ^ sg).
      { rewrite <- !Z.pow_add_r by (unfold sg; lia).
        apply Z.pow_le_mono_r; unfold sg; lia. }
      pose proof (pow2_pos sg ltac:(unfold sg; lia)).
      pose proof (pow2_pos (sg + r0 + 1) ltac:(unfold sg; lia)).
      nia. }
  assert (Hm53 : m <= 2 ^ 53).
  { assert (N * 2 ^ s / D < 2 ^ 53); [|lia].
    apply Z.div_lt_upper_bound; [lia|].
    destruct Hcase as [[_ H]|[_ H]]; [lia|].
    assert (2 ^ 53 = 2 * 2 ^ 52) by reflexivity. nia. }
  assert ((2 ^ 1024 <=? m) = false) as ->.
  { apply Z.leb_gt. assert (2 ^ 53 < 2 ^ 1024) by (apply Z.pow_lt_mono_r; lia).
    lia. }
  unfold mul_int.
  rewrite (Z.max_r e 0), (Z.max_l (- e) 0), Z.pow_0_r, Z.mul_1_r by (unfold e; lia).
  fold s.
  assert (Hint : to_int (of_ratio (m * 2 ^ j) (2 ^ s)) = Ok (m * 2 ^ j / 2 ^ s)).
  { destruct (Z.eq_dec m 0) as [->|Hm0].
    - simpl. reflexivity.
    - destruct (Z.eq_dec m (2 ^ 53)) as [->|Hm1].
      + replace (2 ^ 53 * 2 ^ j) with (1 * 2 ^ (j + 53))
          by (rewrite Z.pow_add_r by lia; lia).
        apply to_int_dyadic; [split; [lia | reflexivity] | lia | lia].
      + apply to_int_dyadic; lia. }
  rewrite Hint. f_equal.
  rewrite Est, (Z.mul_comm (2 ^ j) (2 ^ t)), Z.div_mul_cancel_r by lia.
  unfold m. rewrite Est.
  replace (N * (2 ^ j * 2 ^ t)) with (N * 2 ^ j * 2 ^ t) by lia.
  destruct Hcase as [[Es Hb]|[Es Hb]].
  - apply round_then_floor; [nia | lia | unfold t; lia |].
    (* D < 2^(t+1), from 2^r0 <= N / D and N * 2^j < 2^53 *)
    destruct (Z_lt_ge_dec D (2 ^ (t + 1))) as [|Hge]; [assumption|]. exfalso.
    specialize (Hlow s ltac:(lia) ltac:(lia)).
    replace (s + r0) with 52 in Hlow by lia.
    assert (2 ^ 53 * 2 ^ t = 2 ^ 52 * 2 ^ (t + 1)).
    { rewrite <- !Z.pow_add_r by (unfold t; lia). f_equal. lia. }
    rewrite Est in Hlow.
    assert (0 < 2 ^ 52) by (apply pow2_pos; lia).
    nia.
  - (* among the subnormals both sides are 0 *)
    assert (Ht : 1000 <= t) by (unfold t; lia).
    assert (2 ^ 53 < 2 ^ t) by (apply Z.pow_lt_mono_r; lia).
    fold (2 ^ s) in *.
    assert (Hz : round_half_even (N * 2 ^ j * 2 ^ t) D / 2 ^ t = 0).
    { apply Z.div_small.
      replace (N * 2 ^ j * 2 ^ t) with (N * 2 ^ s) by (rewrite Est; lia).
      fold m. lia. }
    rewrite Hz. symmetry. apply Z.div_small. split; [nia|].
    rewrite Est in Hb.
    assert (2 ^ 52 < 2 ^ t) by (apply Z.pow_lt_mono_r; lia).
    assert (0 < 2 ^ 52) by (apply pow2_pos; lia).
    nia.
Qed.

End FloatFacts.

Section SizeTokenFacts.

Lemma unit_not_numeric (u : ascii) :
  is_unit_char u = true -> is_numeric_char u = false.
Proof.
  unfold is_unit_char. intros H.
  apply orb_true_iff in H as [H|H]; [apply orb_true_iff in H as [H|H]|];
    apply ascii_eqb_eq in H; subst u; reflexivity.
Qed.

Lemma unit_multiplier (u : ascii) :
  is_unit_char u = true ->
  exists j, 0 <= j <= 900 /\ multiplier u = 2 ^ j.
Proof.
  unfold is_unit_char. intros H.
  apply orb_true_iff in H as [H|H]; [apply orb_true_iff in H as [H|H]|];
    apply ascii_eqb_eq in H; subst u;
    [exists 20 | exists 10 | exists 30]; split; try lia; reflexivity.
Qed.

Lemma span_numeric_stop (num rest : string) (c : ascii) :
  all_chars is_numeric_char num = true ->
  is_numeric_char c = false ->
  span_numeric (num +:+ String c rest) = (num, String c rest).
Proof.
  intros Hn Hc. induction num as [|x num IH].
  - change (EmptyString +:+ String c rest) with (String c rest).
    simpl. rewrite Hc. reflexivity.
  - simpl in Hn. apply andb_true_iff in Hn as [Hx Hn].
    rewrite append_cons. simpl. rewrite Hx, (IH Hn). reflexivity.
Qed.

Lemma span_numeric_all (num : string) :
  all_chars is_numeric_char num = true ->
  span_numeric num = (num, EmptyString).
Proof.
  intros Hn. induction num as [|x num IH]; [reflexivity|].
  simpl in Hn. apply andb_true_iff in Hn as [Hx Hn].
  simpl. rewrite Hx, (IH Hn). reflexivity.
Qed.

Lemma digits_numeric (s : string) :
  all_chars is_digit s = true -> all_chars is_numeric_char s = true.
Proof.
  induction s as [|x s IH]; [reflexivity|]. simpl. intros H.
  apply andb_true_iff in H as [Hx Hs].
  rewrite (IH Hs). unfold is_numeric_char. rewrite Hx. reflexivity.
Qed.

Lemma scan_decimal_digits (s : string) (acc : Z) (digs : nat) :
  all_chars is_digit s = true ->
  scan_decimal s acc 0 digs 0
  = (decimal_from acc s, 0%nat, (digs + String.length s)%nat, 0%nat).
Proof.
  revert acc digs. induction s as [|x s IH]; intros acc digs H; simpl.
  - rewrite Nat.add_0_r. reflexivity.
  - simpl in H. apply andb_true_iff in H as [Hx Hs].
    rewrite Hx, (IH _ _ Hs).
    replace (S digs + String.length s)%nat with (digs + S (String.length s))%nat
      by lia.
    reflexivity.
Qed.

Lemma float_of_digits (s : string) :
  s <> EmptyString -> all_chars is_digit s = true ->
  float_of_str s = Ok (Float64.of_ratio (decimal s) 1).
Proof.
  intros Hne H. unfold float_of_str, decimal.
  rewrite (scan_decimal_digits s 0 0 H).
  destruct s as [|x s]; [congruence|]. reflexivity.
Qed.

Lemma decimal_from_nonneg (s : string) (acc : Z) :
  all_chars is_digit s = true -> 0 <= acc -> 0 <= decimal_from acc s.
Proof.
  revert acc. induction s as [|x s IH]; intros acc H Hacc; simpl; [exact Hacc|].
  simpl in H. apply andb_true_iff in H as [Hx Hs].
  apply IH; [exact Hs|].
  unfold is_digit in Hx. apply andb_true_iff in Hx as [Hlo _].
  apply Nat.leb_le in Hlo. unfold digit_val. lia.
Qed.

Lemma all_chars_app (p : ascii -> bool) (s t : string) :
  all_chars p (s +:+ t) = all_chars p s && all_chars p t.
Proof.
  induction s as [|x s IH]; [reflexivity|].
  rewrite append_cons. simpl. rewrite IH, andb_assoc. reflexivity.
Qed.

Lemma decimal_from_app (s t : string) (acc : Z) :
  decimal_from acc (s +:+ t) = decimal_from (decimal_from acc s) t.
Proof.
  revert acc. induction s as [|x s IH]; intros acc; [reflexivity|].
  rewrite append_cons. simpl. apply IH.
Qed.

Lemma length_app (s t : string) :
  String.length (s +:+ t) = (String.length s + String.length t)%nat.
Proof.
  induction s as [|x s IH]; [reflexivity|].
  rewrite append_cons. simpl. rewrite IH. reflexivity.
Qed.

(** The digits before the dot. *)
Lemma scan_decimal_whole (ip rest : string) (acc : Z) (digs : nat) :
  all_chars is_digit ip = true ->
  scan_decimal (ip +:+ rest) acc 0 digs 0
  = scan_decimal rest (decimal_from acc ip) 0 (digs + String.length ip) 0.
Proof.
  revert acc digs. induction ip as [|x ip IH]; intros acc digs H.
  - simpl. rewrite Nat.add_0_r. reflexivity.
  - simpl in H. apply andb_true_iff in H as [Hx Hs].
    rewrite append_cons. simpl. rewrite Hx, (IH _ _ Hs).
    replace (S digs + String.length ip)%nat
      with (digs + S (String.length ip))%nat by lia.
    reflexivity.
Qed.

(** The digits after the dot. *)
Lemma scan_decimal_fraction (fp : string) (acc : Z) (digs frac : nat) :
  all_chars is_digit fp = true ->
  scan_decimal fp acc 1 digs frac
  = (decimal_from acc fp, 1%nat, (digs + String.length fp)%nat,
     (frac + String.length fp)%nat).
Proof.
  revert acc digs frac. induction fp as [|x fp IH]; intros acc digs frac H.
  - simpl. rewrite !Nat.add_0_r. reflexivity.
  - simpl in H. apply andb_true_iff in H as [Hx Hs].
    simpl. rewrite Hx, (IH _ _ _ Hs).
    replace (S digs + String.length fp)%nat
      with (digs + S (String.length fp))%nat by lia.
    replace (S frac + String.length fp)%nat
      with (frac + S (String.length fp))%nat by lia.
    reflexivity.
Qed.

(** [float] of digits, a dot, digits: the digits as a whole number over the
    power of ten of the digits after the dot, rounded. *)
Lemma float_of_decimal (ip fp : string) :
  all_chars is_digit ip = true ->
  all_chars is_digit fp = true ->
  ip +:+ fp <> EmptyString ->
  float_of_str (ip +:+ String "." fp)
  = Ok (Float64.of_ratio (decimal (ip +:+ fp))
          (10 ^ Z.of_nat (String.length fp))).
Proof.
  intros Hi Hf Hne. unfold float_of_str, decimal.
  rewrite (scan_decimal_whole ip _ 0 0 Hi).
  cbn [scan_decimal]. change (is_digit ".") with false. cbv iota.
  rewrite (scan_decimal_fraction fp _ _ 0 Hf).
  rewrite decimal_from_app. cbn [Nat.add].
  assert ((1 <=? String.length ip + String.length fp)%nat = true) as ->.
  { apply Nat.leb_le. destruct ip, fp; simpl; try lia.
    exfalso. apply Hne. reflexivity. }
  reflexivity.
Qed.

Lemma pow2_pos10 (n : nat) : 0 < 10 ^ Z.of_nat n.
Proof. apply Z.pow_pos_nonneg; lia. Qed.

Lemma decimal_nonneg (s : string) :
  all_chars is_digit s = true -> 0 <= decimal s.
Proof. intros H. apply decimal_from_nonneg; [exact H | lia]. Qed.

End SizeTokenFacts.

(** C6 (amended).  [parse_size] uses the multipliers K = 1024, M = 1024^2,
    G = 1024^3: a token made of decimal digits (a whole number below 2^53)
    and one of these letters gives the number times the multiplier, whatever
    follows.  A token made of digits, a dot and digits (at least one digit
    in all) and one of these letters gives the integer part of the decimal
    number times the multiplier, as long as the digits, read as one whole
    number, times the multiplier stay below 2^53: the rounding of [float]
    does not show.  A token whose numeric part is followed by any other character,
    such as [500T], or by nothing, does not match and gives 0: the
    multiplier 1 of the table lookup is never used.  In particular
    [16.5M] gives 17301504 (16.5 * 1024^2), [500K] gives 512000, and the
    empty string and [garbage] give 0. *)
Theorem parse_size_spec :
  (multiplier "K" = 1024 /\ multiplier "M" = 1024 ^ 2 /\ multiplier "G" = 1024 ^ 3)
  /\ (forall (digits rest : string) (u : ascii),
         digits <> EmptyString ->
         all_chars is_digit digits = true ->
         decimal digits < 2 ^ 53 ->
         is_unit_char u = true ->
         parse_size (digits +:+ String u rest) = Ok (decimal digits * multiplier u))
  /\ (forall (ip fp rest : string) (u : ascii),
         all_chars is_digit ip = true ->
         all_chars is_digit fp = true ->
         ip +:+ fp <> EmptyString ->
         is_unit_char u = true ->
         decimal (ip +:+ fp) * multiplier u < 2 ^ 53 ->
         parse_size ((ip +:+ String "." fp) +:+ String u rest)
         = Ok (decimal (ip +:+ fp) * multiplier u
               / 10 ^ Z.of_nat (String.length fp)))
  /\ (forall (num rest : string) (c : ascii),
         all_chars is_numeric_char num = true ->
         is_numeric_char c = false ->
         is_unit_char c = false ->
         parse_size (num +:+ String c rest) = Ok 0)
  /\ (forall num : string,
         all_chars is_numeric_char num = true -> parse_size num = Ok 0)
  /\ parse_size "16.5M" = Ok 17301504
  /\ parse_size "500K" = Ok (500 * 1024)
  /\ parse_size "" = Ok 0
  /\ parse_size "garbage" = Ok 0
  /\ parse_size "500T" = Ok 0.
Proof.
  split; [repeat split|].
  split; [|split; [|split; [|split; [|repeat split]]]].
  - intros digits rest u Hne Hd Hlt Hu.
    assert (Hm : match_size (digits +:+ String u rest) = Some (digits, u)).
    { unfold match_size.
      rewrite span_numeric_stop by (auto using digits_numeric, unit_not_numeric).
      destruct digits; [congruence|]. rewrite Hu. reflexivity. }
    unfold parse_size. rewrite Hm.
    destruct (digits +:+ String u rest) eqn:A;
      [destruct digits; [congruence | discriminate]|].
    rewrite float_of_digits by assumption.
    destruct (unit_multiplier u Hu) as (j & Hj & ->).
    apply mul_then_int; [|exact Hj].
    split; [|exact Hlt]. apply decimal_from_nonneg; [exact Hd | lia].
  - intros ip fp rest u Hi Hf Hne Hu Hlt.
    set (num := ip +:+ String "." fp).
    assert (Hnum : all_chars is_numeric_char num = true).
    { unfold num. rewrite all_chars_app. cbn [all_chars].
      rewrite !digits_numeric by assumption. reflexivity. }
    assert (Hnn : num <> EmptyString) by (unfold num; destruct ip; discriminate).
    assert (Hm : match_size (num +:+ String u rest) = Some (num, u)).
    { unfold match_size.
      rewrite span_numeric_stop by (auto using unit_not_numeric).
      destruct num; [congruence|]. rewrite Hu. reflexivity. }
    unfold parse_size. rewrite Hm.
    destruct (num +:+ String u rest) eqn:A;
      [destruct num; [congruence | discriminate]|].
    unfold num. rewrite float_of_decimal by assumption.
    destruct (unit_multiplier u Hu) as (j & Hj & Ej). rewrite Ej in *.
    apply mul_then_int_ratio; [|apply pow2_pos10|lia|exact Hlt].
    apply decimal_nonneg. rewrite all_chars_app, Hi, Hf. reflexivity.
  - intros num rest c Hn Hc Hu. unfold parse_size, match_size.
    rewrite span_numeric_stop by assumption.
    destruct num as [|x num].
    + change (EmptyString +:+ String c rest) with (String c rest). reflexivity.
    + rewrite append_cons, Hu. reflexivity.
  - intros num Hn. unfold parse_size, match_size.
    rewrite span_numeric_all by assumption.
    destruct num; reflexivity.
Qed.

Lemma parse_size_spec_witness :
  parse_size "123M" = Ok (123 * 1024 ^ 2)
  /\ parse_size "2G and more" = Ok (2 * 1024 ^ 3)
  /\ parse_size "16.3M" = Ok (163 * 1024 ^ 2 / 10 ^ 1)
  /\ parse_size ".75G" = Ok (75 * 1024 ^ 3 / 10 ^ 2)
  /\ parse_size "500T" = Ok 0
  /\ parse_size "16.5" = Ok 0.
Proof.
  split; [|split; [|split; [|split; [|split]]]].
  - apply (proj1 (proj2 parse_size_spec) "123" "" "M"%char);
      [discriminate | reflexivity | reflexivity | reflexivity].
  - apply (proj1 (proj2 parse_size_spec) "2" " and more" "G"%char);
      [discriminate | reflexivity | reflexivity | reflexivity].
  - apply (proj1 (proj2 (proj2 parse_size_spec)) "16" "3" "" "M"%char);
      [reflexivity | reflexivity | discriminate | reflexivity | reflexivity].
  - apply (proj1 (proj2 (proj2 parse_size_spec)) "" "75" "" "G"%char);
      [reflexivity | reflexivity | discriminate | reflexivity | reflexivity].
  - apply (proj1 (proj2 (proj2 (proj2 parse_size_spec))) "500" "" "T"%char);
      reflexivity.
  - apply (proj1 (proj2 (proj2 (proj2 (proj2 parse_size_spec)))) "16.5").
    reflexivity.
Defined.

(** C6 as stated fails: with the unit letter [T] the pattern does not match,
    so [500T] gives 0 and not 500 times a multiplier of 1. *)
Lemma parse_size_counterexample :
  parse_size "500T" = Ok 0 /\ parse_size "500T" <> Ok (500 * 1).
Proof. split; [reflexivity | discriminate]. Qed.

(* ===================================================================== *)
(** * Part III: further properties                                        *)
(* ===================================================================== *)

(** ** Version Key Resolver: optional prefix and suffix, companions *)

Section MoreStringFacts.

Lemma startswith_app_l (p s t : string) :
  startswith p s = true -> startswith p (s +:+ t) = true.
Proof.
  revert s. induction p as [|a p IH]; intros s H; [reflexivity|].
  destruct s as [|b s]; [discriminate|].
  rewrite append_cons. simpl in *.
  apply andb_true_iff in H as [H1 H2]. rewrite H1. simpl. auto.
Qed.

(** Removing [old] from [v ++ old] when no occurrence of [old] can begin in
    [v] and end in the appended copy. *)
Lemma remove_from_appended (old v : string) (k : nat) :
  old <> EmptyString ->
  (forall u, u <> EmptyString -> startswith old u = false ->
             startswith old (u +:+ old) = false) ->
  (k <= String.length v)%nat ->
  remove_from old k (v +:+ old) = remove_from old k v.
Proof.
  intros Hne Hborder. revert k.
  induction v as [|y v IH]; intros k Hk.
  - simpl in Hk. assert (k = 0%nat) as -> by lia.
    change (EmptyString +:+ old) with old.
    destruct old as [|c old]; [congruence|].
    pose proof (remove_from_skip (String c old) (String c old) EmptyString) as H.
    rewrite append_nil_r in H.
    pose proof (str_remove_prefix c old EmptyString) as H'.
    rewrite append_nil_r in H'. exact H'.
  - rewrite append_cons. destruct k as [|k].
    + change (remove_from old 0 (String y (v +:+ old)))
        with (if startswith old (String y (v +:+ old))
              then remove_from old (Nat.pred (String.length old)) (v +:+ old)
              else String y (remove_from old 0 (v +:+ old))).
      change (remove_from old 0 (String y v))
        with (if startswith old (String y v)
              then remove_from old (Nat.pred (String.length old)) v
              else String y (remove_from old 0 v)).
      destruct (startswith old (String y v)) eqn:E.
      * pose proof (startswith_app_l old (String y v) old E) as E'.
        rewrite append_cons in E'. rewrite E'.
        apply IH. apply startswith_length in E. simpl in E. lia.
      * pose proof (Hborder (String y v) ltac:(congruence) E) as E'.
        rewrite append_cons in E'. rewrite E'.
        f_equal. apply IH. lia.
    + simpl. apply IH. simpl in Hk. lia.
Qed.

Lemma str_remove_suffix_again (f : string) :
  str_remove TAR_SUFFIX (f +:+ TAR_SUFFIX) = str_remove TAR_SUFFIX f.
Proof.
  apply remove_from_appended; [discriminate | | lia].
  intros u Hu H. apply startswith_suffix_border; assumption.
Qed.

Lemma str_remove_suffix_over_prefix (f : string) :
  str_remove TAR_SUFFIX (FAMILY_PREFIX +:+ f)
  = FAMILY_PREFIX +:+ str_remove TAR_SUFFIX f.
Proof.
  change (FAMILY_PREFIX +:+ f) with ("mint-backgrounds" +:+ String "-" f).
  rewrite (str_remove_sep TAR_SUFFIX) by (reflexivity || discriminate).
  reflexivity.
Qed.

Lemma startswith_extra_border (v : string) :
  v <> EmptyString ->
  startswith EXTRA v = false ->
  startswith EXTRA (v +:+ EXTRA) = false.
Proof.
  intros Hne H. unfold EXTRA in *.
  do 6 (destruct v as [|? v];
        [ first [ congruence
                | simpl;
                  repeat match goal with
                         | |- context [ascii_eqb ?x ?y] =>
                             destruct (ascii_eqb x y) eqn:?; simpl
                         end;
                  try reflexivity;
                  repeat match goal with
                         | E : ascii_eqb _ _ = true |- _ =>
                             first [ cbv in E; discriminate E | clear E ]
                         end ]
        | ]).
  rewrite !append_cons. exact H.
Qed.

Lemma normalize_companion (n : string) :
  str_in EXTRA n = false ->
  normalize_package_name (n +:+ EXTRA) = n /\ normalize_package_name n = n.
Proof.
  intros H. unfold normalize_package_name. fold EXTRA.
  split; [|apply str_remove_absent, H].
  unfold str_remove.
  rewrite remove_from_appended; [apply str_remove_absent, H | discriminate | | lia].
  intros u Hu Hs. apply startswith_extra_border; assumption.
Qed.

Lemma str_in_char_append (c : ascii) (a b : string) :
  str_in (String c EmptyString) (a +:+ b)
  = str_in (String c EmptyString) a || str_in (String c EmptyString) b.
Proof.
  induction a as [|y a IH].
  - change (EmptyString +:+ b) with b. reflexivity.
  - rewrite append_cons, !str_in_char_cons, IH, orb_assoc. reflexivity.
Qed.

Lemma append_length (a b : string) :
  String.length (a +:+ b) = (String.length a + String.length b)%nat.
Proof.
  induction a as [|y a IH]; [reflexivity|].
  rewrite append_cons. simpl. rewrite IH. reflexivity.
Qed.

End MoreStringFacts.

(** X1.  The family prefix and the suffix are optional to
    [extract_version_info]: a name gives the same package name and version
    with one more [mint-backgrounds-] in front or one more [.tar.gz] at the
    end, hence also the same version key. *)
Theorem extract_ignores_prefix_and_suffix (f : string) :
  extract_version_info (FAMILY_PREFIX +:+ f) = extract_version_info f
  /\ extract_version_info (f +:+ TAR_SUFFIX) = extract_version_info f
  /\ version_key (FAMILY_PREFIX +:+ f +:+ TAR_SUFFIX) = version_key f.
Proof.
  assert (P : extract_version_info (FAMILY_PREFIX +:+ f) = extract_version_info f).
  { unfold extract_version_info.
    rewrite str_remove_suffix_over_prefix.
    unfold FAMILY_PREFIX at 1 2 4 5. rewrite str_remove_prefix. reflexivity. }
  assert (S : forall g, extract_version_info (g +:+ TAR_SUFFIX) = extract_version_info g).
  { intros g. unfold extract_version_info.
    rewrite str_remove_suffix_again. reflexivity. }
  split; [exact P|]. split; [apply S|].
  unfold version_key.
  replace (FAMILY_PREFIX +:+ f +:+ TAR_SUFFIX)
    with ((FAMILY_PREFIX +:+ f) +:+ TAR_SUFFIX) by apply append_assoc.
  rewrite S, P. reflexivity.
Qed.

(** X2.  A package and its [-extra] companion are extracted into the same
    output directory, but they keep apart in the inventory and in their
    credits files: their version keys differ, and so do the names
    [Credits_<package_name>]. *)
Theorem extra_companion_shares_directory (t1 t2 : TarballEntry)
    (base n : string) :
  (extract_version_info (name t1)).1 = n ->
  (extract_version_info (name t2)).1 = n +:+ EXTRA ->
  str_in EXTRA n = false ->
  output_dir_of t1 base = output_dir_of t2 base
  /\ version_key (name t1) <> version_key (name t2)
  /\ "Credits_" +:+ (extract_version_info (name t1)).1
     <> "Credits_" +:+ (extract_version_info (name t2)).1.
Proof.
  intros H1 H2 Hn.
  assert (Hdiff : n <> n +:+ EXTRA).
  { intros E. apply (f_equal String.length) in E.
    rewrite append_length in E. simpl in E. lia. }
  split; [|split].
  - unfold output_dir_of, output_path. rewrite H1, H2.
    destruct (normalize_companion n Hn) as [-> ->]. reflexivity.
  - intros E. apply version_key_inj in E.
    apply (f_equal fst) in E. simpl in E. congruence.
  - rewrite H1, H2. intros E.
    change ("Credits_" +:+ n) with ("Credits" +:+ String "_" n) in E.
    change ("Credits_" +:+ n +:+ EXTRA)
      with ("Credits" +:+ String "_" (n +:+ EXTRA)) in E.
    apply (sep_inj "_") in E as [_ E]; [congruence | reflexivity | reflexivity].
Qed.

Lemma extra_companion_shares_directory_witness :
  output_dir_of (entry_named "mint-backgrounds-xfce_1.0.tar.gz") OUTPUT_DIR
  = output_dir_of (entry_named "mint-backgrounds-xfce-extra_2.0.tar.gz") OUTPUT_DIR
  /\ version_key "mint-backgrounds-xfce_1.0.tar.gz"
     <> version_key "mint-backgrounds-xfce-extra_2.0.tar.gz"
  /\ "Credits_" +:+ "xfce" <> "Credits_" +:+ "xfce-extra".
Proof.
  apply (extra_companion_shares_directory
           (entry_named "mint-backgrounds-xfce_1.0.tar.gz")
           (entry_named "mint-backgrounds-xfce-extra_2.0.tar.gz")
           OUTPUT_DIR "xfce"); reflexivity.
Defined.

(** ** HTTP Fetcher: the success path and the bounds *)

Section FetchMore.

Variable env : Env.

Lemma fetch_loop_retry (url : string) (todo attempt : nat) (w : World) :
  (attempt < 2)%nat ->
  retryable (net_page env url attempt) = true ->
  fetch_loop env url (S todo) attempt w
  = fetch_loop env url todo (S attempt)
      (add_sleeps [Jitter; Seconds (RETRY_DELAY * (Z.of_nat attempt + 1))] w).
Proof.
  intros Hlt Hr. rewrite fetch_loop_step, add_sleeps_app.
  destruct (net_page env url attempt) as [body|[]]; try discriminate.
  - simpl in Hr. rewrite Hr. reflexivity.
  - assert ((attempt <? MAX_RETRIES - 1)%nat = true) as ->
        by (apply Nat.ltb_lt; unfold MAX_RETRIES; lia).
    reflexivity.
Qed.

Lemma fetch_loop_answer (url body : string) (todo attempt : nat) (w : World) :
  net_page env url attempt = Respond body ->
  utf8_ok body 0 128 191 = true ->
  fetch_loop env url (S todo) attempt w = (Ok body, add_sleeps [Jitter] w).
Proof.
  intros E U. rewrite fetch_loop_step, E. unfold decode_utf8. rewrite U.
  reflexivity.
Qed.

(** The sleeps of a run of the loop: at most one request per iteration, and
    the back-offs of the attempts made. *)
Lemma fetch_loop_sleeps (url : string) (todo attempt : nat) (w : World) :
  exists ds,
    (fetch_loop env url todo attempt w).2 = add_sleeps ds w
    /\ (requests ds <= todo)%nat
    /\ (todo <> 0%nat -> (1 <= requests ds)%nat)
    /\ 0 <= backoff_seconds ds
    /\ 2 * backoff_seconds ds
       <= RETRY_DELAY * Z.of_nat todo * (2 * Z.of_nat attempt + Z.of_nat todo + 1).
Proof.
  revert attempt w. induction todo as [|todo IH]; intros attempt w.
  - exists []. simpl. unfold add_sleeps. rewrite app_nil_r.
    destruct w. simpl. unfold RETRY_DELAY. repeat split; lia.
  - assert (Stop : forall r,
               exists ds,
                 (r, add_sleeps [Jitter] w).2 = add_sleeps ds w
                 /\ (requests ds <= S todo)%nat
                 /\ (S todo <> 0%nat -> (1 <= requests ds)%nat)
                 /\ 0 <= backoff_seconds ds
                 /\ 2 * backoff_seconds ds
                    <= RETRY_DELAY * Z.of_nat (S todo)
                       * (2 * Z.of_nat attempt + Z.of_nat (S todo) + 1)
                 /\ r = (r : result string)).
    { intros r. exists [Jitter]. simpl. unfold RETRY_DELAY.
      repeat split; try lia. }
    assert (Go : exists ds,
               (fetch_loop env url todo (S attempt)
                  (add_sleeps [Seconds (RETRY_DELAY * (Z.of_nat attempt + 1))]
                     (add_sleeps [Jitter] w))).2 = add_sleeps ds w
               /\ (requests ds <= S todo)%nat
               /\ (S todo <> 0%nat -> (1 <= requests ds)%nat)
               /\ 0 <= backoff_seconds ds
               /\ 2 * backoff_seconds ds
                  <= RETRY_DELAY * Z.of_nat (S todo)
                     * (2 * Z.of_nat attempt + Z.of_nat (S todo) + 1)).
    { destruct (IH (S attempt)
                  (add_sleeps [Seconds (RETRY_DELAY * (Z.of_nat attempt + 1))]
                     (add_sleeps [Jitter] w)))
        as (ds & E & R & _ & B0 & B).
      exists ([Jitter; Seconds (RETRY_DELAY * (Z.of_nat attempt + 1))] ++ ds).
      rewrite E, !add_sleeps_app. simpl.
      unfold RETRY_DELAY in *. repeat split; try lia. }
    rewrite fetch_loop_step.
    destruct (net_page env url attempt) as [body|e].
    + destruct (decode_utf8 body) as [text|e'].
      * destruct (Stop (Ok text)) as (ds & H); exists ds; tauto.
      * destruct (Stop (Raise e')) as (ds & H); exists ds; tauto.
    + destruct e;
        try (match goal with
             | |- context [(Raise ?x, _)] =>
                 destruct (Stop (Raise x)) as (ds & H); exists ds; tauto
             end).
      * destruct ((code =? 429) || (code =? 503)); [exact Go|].
        destruct (Stop (Ok EmptyString)) as (ds & H); exists ds; tauto.
      * destruct (attempt <? MAX_RETRIES - 1)%nat; [exact Go|].
        destruct (Stop (Ok EmptyString)) as (ds & H); exists ds; tauto.
Qed.

End FetchMore.

(** X3.  When the first [i] attempts fail with 429, 503 or a [URLError] and
    attempt [i] (still within [MAX_RETRIES]) answers with a body that decodes,
    [fetch_page] returns that body, having slept the back-off of each failed
    attempt and nothing after the answer. *)
Theorem fetch_page_recovers (env : Env) (url body : string) (w : World) (i : nat) :
  (i < MAX_RETRIES)%nat ->
  (forall j, (j < i)%nat -> retryable (net_page env url j) = true) ->
  net_page env url i = Respond body ->
  utf8_ok body 0 128 191 = true ->
  fetch_page env url w = (Ok body, add_sleeps (backoff_log i ++ [Jitter]) w).
Proof.
  intros Hi Hj E U. unfold fetch_page, MAX_RETRIES in *.
  destruct i as [|[|[|i]]]; [| | |lia].
  - rewrite (fetch_loop_answer env url body) by assumption. reflexivity.
  - rewrite (fetch_loop_retry env url _ 0%nat) by (auto; lia).
    rewrite (fetch_loop_answer env url body) by assumption.
    rewrite add_sleeps_app. reflexivity.
  - rewrite (fetch_loop_retry env url _ 0%nat) by (auto; lia).
    rewrite (fetch_loop_retry env url _ 1%nat) by (auto; lia).
    rewrite (fetch_loop_answer env url body) by assumption.
    rewrite !add_sleeps_app. reflexivity.
Qed.

Lemma fetch_page_recovers_witness :
  fetch_page
    {| net_page := fun _ i => if (i <? 2)%nat then Fails (HTTPError 503) else Respond "ok";
       net_archive := fun _ => Fails URLError;
       net_read_error := fun _ => None;
       os_mkdir := fun _ _ => None;
       os_open_outside := fun _ => None;
       re_findall_dirs := fun _ => [];
       re_tarball_set := fun _ => [];
       re_search_size := fun _ _ => None |}
    "u" empty_world
  = (Ok "ok",
     add_sleeps [Jitter; Seconds 5; Jitter; Seconds 10; Jitter] empty_world).
Proof.
  apply (fetch_page_recovers _ "u" "ok" empty_world 2).
  - unfold MAX_RETRIES. lia.
  - intros j Hj. destruct j as [|[|j]]; [reflexivity | reflexivity | lia].
  - reflexivity.
  - reflexivity.
Defined.

(** X4.  Whatever the server does, and also when it raises, [fetch_page]
    makes at least one and at most [MAX_RETRIES] requests, backs off for at
    most 30 seconds in all, and changes nothing else in the world. *)
Theorem fetch_page_bounded (env : Env) (url : string) (w : World) :
  exists ds,
    (fetch_page env url w).2 = add_sleeps ds w
    /\ (1 <= requests ds <= MAX_RETRIES)%nat
    /\ 0 <= backoff_seconds ds <= 30.
Proof.
  destruct (fetch_loop_sleeps env url MAX_RETRIES 0 w) as (ds & E & R & R1 & B0 & B).
  exists ds. split; [exact E|]. split.
  - split; [apply R1; discriminate | exact R].
  - unfold RETRY_DELAY, MAX_RETRIES in B. simpl in B. lia.
Qed.

(** ** Listing Parser: order, duplicates and the entries built *)

Section SortedFacts.

Lemma ascii_compare_refl (a : ascii) : Ascii.compare a a = Eq.
Proof. unfold Ascii.compare. apply N.compare_refl. Qed.

Lemma ascii_compare_trans (a b c : ascii) :
  Ascii.compare a b = Lt -> Ascii.compare b c = Lt -> Ascii.compare a c = Lt.
Proof.
  unfold Ascii.compare. rewrite !N.compare_lt_iff. apply N.lt_trans.
Qed.

Lemma string_compare_refl (s : string) : String.compare s s = Eq.
Proof.
  induction s as [|a s IH]; [reflexivity|].
  simpl. rewrite ascii_compare_refl. exact IH.
Qed.

Lemma string_compare_trans (s1 s2 s3 : string) :
  String.compare s1 s2 = Lt -> String.compare s2 s3 = Lt ->
  String.compare s1 s3 = Lt.
Proof.
  revert s2 s3. induction s1 as [|a s1 IH]; intros [|b s2] [|c s3]; simpl;
    try discriminate; try reflexivity.
  destruct (Ascii.compare a b) eqn:Eab; try discriminate;
    destruct (Ascii.compare b c) eqn:Ebc; try discriminate; intros H1 H2.
  - apply Ascii.compare_eq_iff in Eab, Ebc. subst.
    rewrite ascii_compare_refl. eauto.
  - apply Ascii.compare_eq_iff in Eab. subst. rewrite Ebc. reflexivity.
  - apply Ascii.compare_eq_iff in Ebc. subst. rewrite Eab. reflexivity.
  - rewrite (ascii_compare_trans a b c Eab Ebc). reflexivity.
Qed.

Lemma ltb_trans (x y z : string) :
  String.ltb x y = true -> String.ltb y z = true -> String.ltb x z = true.
Proof.
  unfold String.ltb. intros H1 H2.
  destruct (String.compare x y) eqn:E1; try discriminate.
  destruct (String.compare y z) eqn:E2; try discriminate.
  rewrite (string_compare_trans x y z E1 E2). reflexivity.
Qed.

Lemma ltb_irrefl (x : string) : String.ltb x x = false.
Proof. unfold String.ltb. rewrite string_compare_refl. reflexivity. Qed.

(** Two different strings are ordered one way or the other. *)
Lemma ltb_total (x y : string) :
  String.eqb x y = false -> String.ltb x y = false -> String.ltb y x = true.
Proof.
  unfold String.ltb. intros Hne Hlt.
  rewrite String.compare_antisym.
  destruct (String.compare x y) eqn:E; try discriminate; [|reflexivity].
  apply String.compare_eq_iff in E. apply String.eqb_neq in Hne. contradiction.
Qed.

Lemma insert_sorted_in (x z : string) (xs : list string) :
  In z (insert_sorted x xs) <-> z = x \/ In z xs.
Proof.
  induction xs as [|y ys IH]; simpl; [intuition|].
  destruct (String.eqb x y) eqn:E.
  - apply String.eqb_eq in E. subst. simpl. intuition.
  - destruct (String.ltb x y); simpl; [intuition|].
    rewrite IH. intuition.
Qed.

Lemma insert_sorted_increasing (x : string) (xs : list string) :
  increasing xs -> increasing (insert_sorted x xs).
Proof.
  induction xs as [|y ys IH]; simpl; [intros _; split; [intros ? []|exact I]|].
  intros [Hy Hys].
  destruct (String.eqb x y) eqn:E; [simpl; auto|].
  destruct (String.ltb x y) eqn:L.
  - simpl. split; [|auto].
    intros z [<-|Hz]; [exact L|]. eapply ltb_trans; eauto.
  - simpl. split; [|auto].
    intros z Hz. apply insert_sorted_in in Hz as [->|Hz]; [|auto].
    apply ltb_total; assumption.
Qed.

Lemma sorted_set_spec (xs : list string) :
  increasing (sorted_set xs) /\ forall z, In z (sorted_set xs) <-> In z xs.
Proof.
  induction xs as [|x xs [IH1 IH2]]; simpl; [split; [exact I | tauto]|].
  split; [apply insert_sorted_increasing, IH1|].
  intros z. rewrite insert_sorted_in, IH2. intuition.
Qed.

Lemma increasing_NoDup (xs : list string) : increasing xs -> List.NoDup xs.
Proof.
  induction xs as [|x xs IH]; simpl; [constructor|].
  intros [Hx Hxs]. constructor; [|auto].
  intros Hin. apply Hx in Hin. rewrite ltb_irrefl in Hin. discriminate.
Qed.

End SortedFacts.

(** X5.  When [get_package_directories] returns, its list is strictly
    increasing in the order of [sorted], so it holds no directory twice, and
    its elements are exactly the names found in the page that was fetched. *)
Theorem package_directories_sorted (env : Env) (w : World) (dirs : list string) :
  (get_package_directories env w).1 = Ok dirs ->
  increasing dirs
  /\ List.NoDup dirs
  /\ exists content,
       (fetch_page env (BASE_URL +:+ "/") w).1 = Ok content
       /\ forall d, In d dirs <-> In d (re_findall_dirs env content).
Proof.
  unfold get_package_directories, bind. intros H.
  destruct (fetch_page env (BASE_URL +:+ "/") w) as [[content|e] w1];
    [|discriminate].
  inversion H; subst dirs.
  destruct (sorted_set_spec (re_findall_dirs env content)) as [I M].
  split; [exact I|]. split; [apply increasing_NoDup, I|].
  exists content. split; [reflexivity | exact M].
Qed.

Lemma package_directories_sorted_witness :
  increasing ["a"; "b"]
  /\ List.NoDup ["a"; "b"]
  /\ exists content,
       (fetch_page
          {| net_page := fun _ _ => Respond "page";
             net_archive := fun _ => Fails URLError;
             net_read_error := fun _ => None;
             os_mkdir := fun _ _ => None;
             os_open_outside := fun _ => None;
             re_findall_dirs := fun _ => ["b"; "a"; "b"];
             re_tarball_set := fun _ => [];
             re_search_size := fun _ _ => None |}
          (BASE_URL +:+ "/") empty_world).1 = Ok content
       /\ forall d, In d ["a"; "b"] <-> In d ["b"; "a"; "b"].
Proof.
  apply (package_directories_sorted
           {| net_page := fun _ _ => Respond "page";
              net_archive := fun _ => Fails URLError;
              net_read_error := fun _ => None;
              os_mkdir := fun _ _ => None;
              os_open_outside := fun _ => None;
              re_findall_dirs := fun _ => ["b"; "a"; "b"];
              re_tarball_set := fun _ => [];
              re_search_size := fun _ _ => None |}
           empty_world ["a"; "b"]).
  reflexivity.
Defined.

Section TarballListing.

Variable env : Env.

Lemma tarballs_loop (package_dir content : string) (names : list string)
    (acc ts : list TarballEntry) (w w' : World) :
  for_each names
    (fun tarballs tarball =>
       let size_str :=
         match re_search_size env tarball content with
         | Some tok => tok
         | None => "0M"
         end in
       size_bytes <- lift (parse_size size_str) ;;
       ret (tarballs ++
            [{| name := tarball;
                url := BASE_URL +:+ "/" +:+ package_dir +:+ "/" +:+ tarball;
                size_bytes := size_bytes;
                size_str := size_str |}]))
    acc w = (Ok ts, w') ->
  exists new,
    ts = acc ++ new
    /\ map name new = names
    /\ forall t, In t new ->
         listed_in package_dir t
         /\ size_str t = match re_search_size env (name t) content with
                         | Some tok => tok
                         | None => "0M"
                         end.
Proof.
  revert acc w. induction names as [|n names IH]; intros acc w H.
  - simpl in H. inversion H; subst. exists []. rewrite app_nil_r.
    split; [reflexivity|]. split; [reflexivity|]. intros t [].
  - simpl in H. unfold bind at 1 in H. unfold bind at 1 in H.
    unfold lift at 1 in H.
    destruct (parse_size
                match re_search_size env n content with
                | Some tok => tok
                | None => "0M"
                end) as [sz|e] eqn:P; [|discriminate].
    unfold ret at 1 in H.
    apply IH in H as (new & -> & Hn & Hall).
    eexists (_ :: new). rewrite <- app_assoc. split; [reflexivity|].
    split; [simpl; rewrite Hn; reflexivity|].
    intros t [<-|Hin]; [|auto].
    unfold listed_in. simpl. auto.
Qed.

End TarballListing.

(** X6.  When [get_tarballs_for_package] returns, it returns one entry per
    name of the set found in the page, in the order of the set; each entry
    has the URL of its directory and name and the byte size of its size
    token; and an entry whose size was not found in the page carries the
    token [0M] and 0 bytes, so that it is never an update. *)
Theorem tarballs_as_listed (env : Env) (package_dir : string) (w : World)
    (ts : list TarballEntry) :
  (get_tarballs_for_package env package_dir w).1 = Ok ts ->
  exists content,
    (fetch_page env (BASE_URL +:+ "/" +:+ package_dir +:+ "/") w).1 = Ok content
    /\ map name ts = re_tarball_set env content
    /\ forall t, In t ts ->
         listed_in package_dir t
         /\ (re_search_size env (name t) content = None ->
             size_str t = "0M" /\ size_bytes t = 0
             /\ forall existing, is_update existing t = false).
Proof.
  unfold get_tarballs_for_package. unfold bind at 1. intros H.
  destruct (fetch_page env (BASE_URL +:+ "/" +:+ package_dir +:+ "/") w)
    as [[content|e] w1]; [|discriminate].
  match type of H with
  | (?m ?w0).1 = _ => destruct (m w0) as [[ts'|e] w2] eqn:L; [|discriminate]
  end.
  simpl in H. inversion H; subst ts'.
  apply tarballs_loop in L as (new & -> & Hn & Hall).
  exists content. split; [reflexivity|]. split; [exact Hn|].
  intros t Hin. destruct (Hall t Hin) as [[Hu Hp] Hs].
  split; [split; assumption|].
  intros Hnone. rewrite Hnone in Hs. rewrite Hs in Hp.
  assert (Hz : size_bytes t = 0).
  { change (parse_size "0M") with (@Ok Z 0) in Hp. congruence. }
  split; [exact Hs|]. split; [exact Hz|].
  intros existing. unfold is_update. rewrite Hz. reflexivity.
Qed.

Lemma tarballs_as_listed_witness :
  exists content,
    (fetch_page (mirror "16.5M" (Respond nadia_archive))
       (BASE_URL +:+ "/" +:+ "mint-backgrounds-nadia" +:+ "/") empty_world).1
    = Ok content
    /\ map name [nadia_tarball]
       = re_tarball_set (mirror "16.5M" (Respond nadia_archive)) content
    /\ forall t, In t [nadia_tarball] ->
         listed_in "mint-backgrounds-nadia" t
         /\ (re_search_size (mirror "16.5M" (Respond nadia_archive)) (name t) content
             = None ->
             size_str t = "0M" /\ size_bytes t = 0
             /\ forall existing, is_update existing t = false).
Proof.
  apply (tarballs_as_listed (mirror "16.5M" (Respond nadia_archive))
           "mint-backgrounds-nadia" empty_world [nadia_tarball]).
  vm_compute. reflexivity.
Defined.

(** ** Size tokens: sign and errors *)

Section ParseSizeMore.

Import Float64.

Lemma round_half_even_nonneg (a b : Z) :
  0 <= a -> 0 < b -> 0 <= round_half_even a b.
Proof.
  intros Ha Hb. unfold round_half_even.
  pose proof (Z.div_pos a b Ha Hb).
  repeat case_match; lia.
Qed.

Lemma of_ratio_nonneg (a b : Z) : 0 < b -> nonneg_float (of_ratio a b).
Proof.
  intros Hb. unfold of_ratio.
  destruct (Z.leb_spec a 0); [simpl; lia|].
  case_match; [exact I|]. simpl.
  apply round_half_even_nonneg.
  - assert (0 < 2 ^ Z.max (- Z.max (floor_log2 a b - 52) (-1074)) 0)
      by (apply Z.pow_pos_nonneg; lia). nia.
  - assert (0 < 2 ^ Z.max (Z.max (floor_log2 a b - 52) (-1074)) 0)
      by (apply Z.pow_pos_nonneg; lia). nia.
Qed.

Lemma mul_int_nonneg (x : float) (n : Z) : nonneg_float (mul_int x n).
Proof.
  destruct x as [m e|]; [|exact I]. simpl.
  apply of_ratio_nonneg. apply Z.pow_pos_nonneg; lia.
Qed.

Lemma to_int_nonneg (x : float) (n : Z) :
  nonneg_float x -> to_int x = Ok n -> 0 <= n.
Proof.
  destruct x as [m e|]; simpl; [|discriminate].
  intros Hm H. inversion H; subst.
  apply Z.div_pos.
  - assert (0 < 2 ^ Z.max e 0) by (apply Z.pow_pos_nonneg; lia). nia.
  - apply Z.pow_pos_nonneg; lia.
Qed.

Lemma to_int_not_value_error (x : float) : to_int x <> Raise ValueError.
Proof. destruct x; discriminate. Qed.

Lemma numeric_char_cases (c : ascii) :
  is_numeric_char c = true ->
  (is_digit c = true /\ ascii_eqb c "." = false)
  \/ (is_digit c = false /\ ascii_eqb c "." = true).
Proof.
  unfold is_numeric_char. intros H.
  destruct (ascii_eqb c ".") eqn:E.
  - apply ascii_eqb_eq in E. subst. right. split; reflexivity.
  - rewrite orb_false_r in H. left. auto.
Qed.

Lemma scan_decimal_counts (s : string) (acc : Z) (dots digs frac : nat) :
  all_chars is_numeric_char s = true ->
  exists acc' frac',
    scan_decimal s acc dots digs frac
    = (acc', (dots + count_dots s)%nat, (digs + count_digits s)%nat, frac').
Proof.
  revert acc dots digs frac.
  induction s as [|c s IH]; intros acc dots digs frac H; simpl.
  - rewrite !Nat.add_0_r. eauto.
  - simpl in H. apply andb_true_iff in H as [Hc Hs].
    destruct (numeric_char_cases c Hc) as [[D E]|[D E]]; rewrite D, E.
    + destruct (IH (10 * acc + digit_val c) dots (S digs)
                  (if (0 <? dots)%nat then S frac else frac) Hs)
        as (acc' & frac' & ->).
      exists acc', frac'. simpl. rewrite ?Nat.add_succ_r. reflexivity.
    + destruct (IH acc (S dots) digs frac Hs) as (acc' & frac' & ->).
      exists acc', frac'. simpl. rewrite ?Nat.add_succ_r. reflexivity.
Qed.

Lemma span_numeric_run (s : string) :
  all_chars is_numeric_char (span_numeric s).1 = true.
Proof.
  induction s as [|c s IH]; [reflexivity|].
  simpl. destruct (is_numeric_char c) eqn:E; [|reflexivity].
  destruct (span_numeric s) as [run rest]. simpl in *. rewrite E, IH.
  reflexivity.
Qed.

End ParseSizeMore.

(** X7.  [parse_size] never returns a negative number of bytes. *)
Theorem parse_size_nonneg (s : string) (n : Z) :
  parse_size s = Ok n -> 0 <= n.
Proof.
  unfold parse_size. destruct s as [|c s]; [intros H; inversion H; lia|].
  destruct (match_size (String c s)) as [[num u]|]; [|intros H; inversion H; lia].
  unfold float_of_str.
  destruct (scan_decimal num 0 0 0 0) as [[[acc dots] digs] frac].
  destruct ((dots <=? 1)%nat && (1 <=? digs)%nat); [|discriminate].
  apply to_int_nonneg, mul_int_nonneg.
Qed.

Lemma parse_size_nonneg_witness :
  parse_size "16.5M" = Ok 17301504 /\ 0 <= 17301504.
Proof.
  split; [reflexivity|].
  apply (parse_size_nonneg "16.5M" 17301504). reflexivity.
Defined.

(** X8.  On a token whose numeric part (digits and dots) is followed by K,
    M or G, [parse_size] raises [ValueError] exactly when the numeric part
    has more than one dot or no digit at all, as in [1.2.3M] or [.M];
    [float] cannot read it, and nothing catches the exception. *)
Theorem parse_size_value_error (num rest : string) (u : ascii) :
  num <> EmptyString ->
  all_chars is_numeric_char num = true ->
  is_unit_char u = true ->
  (parse_size (num +:+ String u rest) = Raise ValueError
   <-> (1 < count_dots num)%nat \/ count_digits num = 0%nat).
Proof.
  intros Hne Hnum Hu.
  assert (Hm : match_size (num +:+ String u rest) = Some (num, u)).
  { unfold match_size.
    rewrite span_numeric_stop by (auto using unit_not_numeric).
    destruct num; [congruence|]. rewrite Hu. reflexivity. }
  unfold parse_size. rewrite Hm.
  destruct (num +:+ String u rest) eqn:A;
    [destruct num; [congruence | discriminate]|].
  unfold float_of_str.
  destruct (scan_decimal_counts num 0 0 0 0 Hnum) as (acc & frac & ->).
  simpl Nat.add.
  destruct (Nat.leb_spec (count_dots num) 1) as [Hd|Hd];
    destruct (Nat.leb_spec 1 (count_digits num)) as [Hg|Hg]; simpl.
  - split; [|lia]. intros H.
    exfalso. eapply to_int_not_value_error. exact H.
  - split; [intros _; right; lia | reflexivity].
  - split; [intros _; left; lia | reflexivity].
  - split; [intros _; left; lia | reflexivity].
Qed.

Lemma parse_size_value_error_witness :
  parse_size "1.2.3M" = Raise ValueError /\ parse_size ".K" = Raise ValueError.
Proof.
  split.
  - apply (proj2 (parse_size_value_error "1.2.3" "" "M"%char
                    ltac:(discriminate) eq_refl eq_refl)).
    left. simpl. lia.
  - apply (proj2 (parse_size_value_error "." "" "K"%char
                    ltac:(discriminate) eq_refl eq_refl)).
    right. reflexivity.
Defined.

(** ** Archive Processor: the output tree only grows *)

Section TreeGrowth.

Lemma grows_refl dirs : grows dirs dirs.
Proof. intros d files H. exists files. auto. Qed.

Lemma grows_trans d1 d2 d3 : grows d1 d2 -> grows d2 d3 -> grows d1 d3.
Proof.
  intros H12 H23 d files H.
  destruct (H12 d files H) as (f2 & H2 & K2).
  destruct (H23 d f2 H2) as (f3 & H3 & K3).
  exists f3. split; [exact H3|]. auto.
Qed.

Lemma grows_adds_dirs keys dirs dirs' : adds_dirs keys dirs dirs' -> grows dirs dirs'.
Proof.
  intros A d files H. exists files. split; [|auto].
  eapply adds_dirs_keeps; eassumption.
Qed.

Lemma grows_write_file dir n f dirs : grows dirs (write_file dir n f dirs).
Proof.
  intros d files H. unfold write_file.
  destruct (decide (dir = d)) as [->|Hne].
  - rewrite lookup_insert_eq, H. simpl. eexists. split; [reflexivity|].
    intros n' Hn'. destruct (decide (n = n')) as [->|Hn].
    + rewrite lookup_insert_eq. eauto.
    + rewrite lookup_insert_ne by assumption. exact Hn'.
  - rewrite lookup_insert_ne by assumption. exists files. auto.
Qed.

(** What the copy loop does to the tree, step by step: any relation that
    holds across one [write_file] into the directory holds across the
    loop. *)
Lemma loop_dirs_rel (R : relation (gmap string (gmap string file)))
    (dir package_name : string) (members : list member) (w : World) :
  (forall dirs, R dirs dirs) ->
  (forall a b c, R a b -> R b c -> R a c) ->
  (forall n f dirs, R dirs (write_file (normpath dir) n f dirs)) ->
  R (w_dirs w)
    (w_dirs (for_each members
               (fun (_ : unit) m => copy_member dir package_name m) tt w).2).
Proof.
  intros Hrefl Htrans Hstep. revert w.
  induction members as [|m members IH]; intros w; [apply Hrefl|].
  simpl. unfold bind. rewrite copy_member_run.
  destruct (copy_target package_name m) as [n|].
  - destruct (m_copy_error m) as [e|]; [apply Hrefl|].
    eapply Htrans; [|apply IH]. apply Hstep.
  - apply IH.
Qed.

Lemma loop_grows (dir package_name : string) (members : list member) (w : World) :
  grows (w_dirs w)
    (w_dirs (for_each members
               (fun (_ : unit) m => copy_member dir package_name m) tt w).2).
Proof.
  apply (loop_dirs_rel grows); auto using grows_refl, grows_write_file.
  apply grows_trans.
Qed.


Variable env : Env.

Lemma download_and_extract_grows (t : TarballEntry) (base : string) (w : World) :
  grows (w_dirs w) (w_dirs (download_and_extract env t base w).2).
Proof.
  destruct (download_and_extract_tree env t base w) as (members & w0 & A & -> & _).
  eapply grows_trans; [|apply loop_grows]. eapply grows_adds_dirs, A.
Qed.

End TreeGrowth.


(** ** Update Orchestrator: the queues, the answer, the records *)

Section QueueFacts.

Variable existing : gmap string InventoryRecord.

Lemma known_package_spec (p : string) :
  known_package existing p = true
  <-> exists k r, existing !! k = Some r /\ (extract_version_info k).1 = p.
Proof.
  unfold known_package. rewrite existsb_exists. split.
  - intros (x & Hin & Heq). apply String.eqb_eq in Heq. subst x.
    apply in_map_iff in Hin as (k & Hk & Hin).
    apply list_elem_of_In, list_elem_of_fmap in Hin as ([k' r] & -> & Hin).
    apply elem_of_map_to_list in Hin. exists k', r. auto.
  - intros (k & r & Hk & Hp). exists p. split; [|apply String.eqb_refl].
    apply in_map_iff. exists k. split; [exact Hp|].
    apply list_elem_of_In, list_elem_of_fmap. exists (k, r).
    split; [reflexivity|]. apply elem_of_map_to_list. exact Hk.
Qed.

Lemma scan_fold_split (entries : list TarballEntry)
    (q : list TarballEntry * list TarballEntry) :
  fold_left (scan_tarball existing) entries q
  = (q.1 ++ List.filter (is_new existing) entries,
     q.2 ++ List.filter (is_updated existing) entries).
Proof.
  revert q. induction entries as [|t entries IH]; intros [new upd].
  - simpl. rewrite !app_nil_r. reflexivity.
  - cbn [fold_left List.filter]. rewrite IH, scan_tarball_cases.
    unfold is_new, is_updated.
    destruct (is_update existing t); simpl; [|reflexivity].
    destruct (known_package existing (extract_version_info (name t)).1); simpl;
      rewrite <- ?app_assoc; reflexivity.
Qed.

Lemma queue_empty (entries : list TarballEntry) :
  List.filter (is_new existing) entries
  ++ List.filter (is_updated existing) entries = []
  <-> existsb (is_update existing) entries = false.
Proof.
  induction entries as [|t entries IH]; simpl; [tauto|].
  unfold is_new, is_updated in *.
  destruct (is_update existing t); simpl; [|exact IH].
  destruct (known_package existing (extract_version_info (name t)).1); simpl;
    split; intros H; try discriminate.
  apply app_eq_nil in H as [_ H]. discriminate.
Qed.

End QueueFacts.

(** X10.  When the listing can be read, the two queues of
    [check_and_download] are the listing itself, in its order, cut down to
    the tarballs of at least [MIN_SIZE_BYTES] whose version key is not on
    record: those whose package name is the name part of some recorded key
    go to [updated_packages], the others to [new_packages]. *)
Theorem queues_sort_the_listing (env : Env) (w : World)
    (entries : list TarballEntry) :
  (remote_entries env w).1 = Ok entries ->
  (check_for_updates env w).1
  = Ok (loaded w, (List.filter (is_new (inventory w)) entries,
                   List.filter (is_updated (inventory w)) entries))
  /\ forall t,
       let recorded :=
         exists k r, inventory w !! k = Some r
                     /\ (extract_version_info k).1
                        = (extract_version_info (name t)).1 in
       (is_new (inventory w) t = true
        <-> MIN_SIZE_BYTES <= size_bytes t
            /\ inventory w !! version_key (name t) = None /\ ~ recorded)
       /\ (is_updated (inventory w) t = true
           <-> MIN_SIZE_BYTES <= size_bytes t
               /\ inventory w !! version_key (name t) = None /\ recorded).
Proof.
  intros H. split.
  - rewrite (check_for_updates_run env w entries H), scan_fold_split.
    reflexivity.
  - intros t recorded. subst recorded. unfold is_new, is_updated.
    rewrite <- known_package_spec, !andb_true_iff, negb_true_iff, is_update_true.
    destruct (known_package (inventory w) (extract_version_info (name t)).1);
      intuition congruence.
Qed.

Lemma queues_sort_the_listing_witness :
  (check_for_updates (mirror "16.5M" (Respond nadia_archive)) stocked_world).1
  = Ok (loaded stocked_world, ([], [nadia_tarball])).
Proof.
  destruct (queues_sort_the_listing (mirror "16.5M" (Respond nadia_archive))
              stocked_world [nadia_tarball]) as [E _].
  - vm_compute. reflexivity.
  - rewrite E. vm_compute. reflexivity.
Defined.

Section RunSteps.

Variable env : Env.

(** [check_and_download], one step after the other. *)
Lemma check_and_download_steps (w : World) :
  match check_for_updates env w with
  | (Raise e, wa) => check_and_download env w = (Raise e, wa)
  | (Ok (versions, (new, upd)), wa) =>
      match new ++ upd with
      | [] => check_and_download env w = (Ok false, (save_versions versions wa).2)
      | _ :: _ =>
          match makedirs env OUTPUT_DIR wa with
          | (Raise e, wm) => check_and_download env w = (Raise e, wm)
          | (Ok _, wm) =>
              exists existing' wl,
                for_each (new ++ upd) (process_tarball env)
                  (default ∅ (packages versions)) wm = (Ok existing', wl)
                /\ check_and_download env w
                   = (Ok true,
                      (save_versions {| packages := Some existing';
                                        last_checked := last_checked versions;
                                        stats := stats versions |} wl).2)
          end
      end
  end.
Proof.
  unfold check_and_download.
  destruct (check_for_updates env w) as [[[versions [new upd]]|e] wa] eqn:E.
  - rewrite (bind_ok _ _ _ _ _ E). cbv beta iota zeta.
    destruct (new ++ upd) as [|t0 rest] eqn:Q.
    + reflexivity.
    + rewrite <- Q.
      destruct (makedirs env OUTPUT_DIR wa) as [[[]|e] wm] eqn:M.
      * destruct (process_loop_run env (new ++ upd) (default ∅ (packages versions)) wm)
          as (existing' & wl & Hl & _).
        exists existing', wl. split; [exact Hl|].
        rewrite (bind_ok _ _ _ _ _ M).
        rewrite (bind_ok _ _ _ _ _ Hl). reflexivity.
      * rewrite (bind_raise _ _ _ _ _ M). reflexivity.
  - rewrite (bind_raise _ _ _ _ _ E). reflexivity.
Qed.

Lemma check_for_updates_only_sleeps : preserves only_sleeps (check_for_updates env).
Proof.
  unfold check_for_updates. apply os_bind.
  - intros w0. rewrite load_versions_run. apply only_sleeps_refl.
  - intros v. apply os_bind; [apply get_package_directories_facts|].
    intros dirs. apply os_bind; [|intros; apply os_ret].
    apply (dirs_loop_only_sleeps env
             (fun q ts => fold_left (scan_tarball (default ∅ (packages v))) ts q)).
Qed.

(** The answer of [check_and_download], from what the first half found. *)
Lemma check_and_download_answer (w w' : World) (b : bool)
    (versions : InventoryFile) (new upd : list TarballEntry) :
  (check_for_updates env w).1 = Ok (versions, (new, upd)) ->
  check_and_download env w = (Ok b, w') ->
  b = match new ++ upd with [] => false | _ :: _ => true end.
Proof.
  intros H Hrun. pose proof (check_and_download_steps w) as S.
  destruct (check_for_updates env w) as [r wa]. simpl in H. subst r.
  destruct (new ++ upd).
  - rewrite S in Hrun. inversion Hrun. reflexivity.
  - destruct (makedirs env OUTPUT_DIR wa) as [[[]|e] wm].
    + destruct S as (existing' & wl & _ & S). rewrite S in Hrun.
      inversion Hrun. reflexivity.
    + rewrite S in Hrun. discriminate.
Qed.

End RunSteps.

(** X11.  When the listing can be read and [check_and_download] returns,
    its answer is [True] exactly when some listed tarball of at least
    [MIN_SIZE_BYTES] has a version key that is not on record, whether or
    not any download then succeeded.  It is the answer [has_updates] gives
    in the same world. *)
Theorem check_and_download_answers_has_updates (env : Env) (w w' : World)
    (entries : list TarballEntry) (b : bool) :
  (remote_entries env w).1 = Ok entries ->
  check_and_download env w = (Ok b, w') ->
  b = existsb (is_update (inventory w)) entries
  /\ (has_updates env w).1 = Ok b.
Proof.
  intros H Hrun.
  assert (E : b = existsb (is_update (inventory w)) entries).
  { pose proof (check_for_updates_run env w entries H) as C.
    rewrite scan_fold_split in C. simpl in C.
    rewrite (check_and_download_answer env w w' b _ _ _ C Hrun).
    pose proof (queue_empty (inventory w) entries) as Q.
    destruct (List.filter (is_new (inventory w)) entries
              ++ List.filter (is_updated (inventory w)) entries).
    - symmetry. apply Q. reflexivity.
    - destruct (existsb (is_update (inventory w)) entries); [reflexivity|].
      destruct Q as [_ Q]. discriminate Q. reflexivity. }
  split; [exact E|]. rewrite E. apply has_updates_run, H.
Qed.

Lemma check_and_download_answers_has_updates_witness :
  true = existsb (is_update (inventory stocked_world)) [nadia_tarball]
  /\ (has_updates (mirror "16.5M" (Fails URLError)) stocked_world).1 = Ok true.
Proof.
  apply (check_and_download_answers_has_updates
           (mirror "16.5M" (Fails URLError)) stocked_world
           (check_and_download (mirror "16.5M" (Fails URLError)) stocked_world).2
           [nadia_tarball] true).
  - vm_compute. reflexivity.
  - vm_compute. reflexivity.
Defined.

Section RunKeeps.

Variable env : Env.

Lemma summary_total_packages (data : InventoryFile)
    (dirs : gmap string (gmap string file)) :
  total_packages (summary data dirs) = size (default ∅ (packages data)).
Proof.
  unfold summary.
  destruct (match dirs !! OUTPUT_DIR with
            | Some _ => fold_left count_item (map_to_list dirs) (0%nat, 0, None, 0)
            | None => (0%nat, 0, None, 0)
            end) as [[[ti ts] ln] lv].
  reflexivity.
Qed.

(** What a run that returns leaves in the inventory file. *)
Lemma check_and_download_saved (w w' : World) (b : bool) :
  check_and_download env w = (Ok b, w') ->
  exists data w1, w' = (save_versions data w1).2.
Proof.
  intros H. pose proof (check_and_download_steps env w) as S.
  destruct (check_for_updates env w) as [[[versions [new upd]]|e] wa].
  - destruct (new ++ upd).
    + rewrite S in H. exists versions, wa.
      change w' with ((Ok b, w').2). rewrite <- H. reflexivity.
    + destruct (makedirs env OUTPUT_DIR wa) as [[[]|e] wm].
      * destruct S as (existing' & wl & _ & S). rewrite S in H.
        eexists. exists wl.
        change w' with ((Ok b, w').2). rewrite <- H. reflexivity.
      * rewrite S in H. discriminate.
  - rewrite S in H. discriminate.
Qed.

Lemma only_sleeps_only_adds (w w' : World) : only_sleeps w w' -> only_adds w w'.
Proof.
  intros (_ & D & T & _). split; [rewrite D; apply grows_refl | exact T].
Qed.

Lemma only_adds_refl (w : World) : only_adds w w.
Proof. split; [apply grows_refl | reflexivity]. Qed.

Lemma only_adds_trans (w1 w2 w3 : World) :
  only_adds w1 w2 -> only_adds w2 w3 -> only_adds w1 w3.
Proof.
  intros [G1 T1] [G2 T2]. split; [eapply grows_trans; eassumption | congruence].
Qed.

Lemma process_tarball_only_adds (existing : gmap string InventoryRecord)
    (t : TarballEntry) :
  preserves only_adds (process_tarball env existing t).
Proof.
  unfold process_tarball.
  apply preserves_bind; [apply only_adds_trans| |].
  - intros w. split; [apply download_and_extract_grows|].
    destruct (download_and_extract_run env t OUTPUT_DIR w)
      as (b & w' & w0 & E & _ & T & _).
    rewrite E. exact T.
  - intros [|]; [|apply preserves_ret, only_adds_refl].
    destruct (extract_version_info (name t)) as [pn v].
    apply preserves_bind; [apply only_adds_trans| |].
    + intros w. split; [apply grows_refl | reflexivity].
    + intros now. apply preserves_ret, only_adds_refl.
Qed.

Lemma process_loop_only_adds (ts : list TarballEntry)
    (existing : gmap string InventoryRecord) :
  preserves only_adds (for_each ts (process_tarball env) existing).
Proof.
  apply preserves_for_each;
    [apply only_adds_refl | apply only_adds_trans
     | intros; apply process_tarball_only_adds].
Qed.

Lemma save_versions_only_adds (data : InventoryFile) :
  preserves only_adds (save_versions data).
Proof. intros w. split; [apply grows_refl | reflexivity]. Qed.

End RunKeeps.

(** X12.  A run of [check_and_download] that returns never alters or drops
    a record that was in the inventory: every key that was there is there
    afterwards with the same record.  The file it writes has
    [last_checked] set; its statistics are those of the output tree as the
    run leaves it, and its [total_packages] is the number of records it
    holds. *)
Theorem run_keeps_records (env : Env) (w w' : World) (b : bool) :
  check_and_download env w = (Ok b, w') ->
  (forall k r, inventory w !! k = Some r -> inventory w' !! k = Some r)
  /\ exists doc,
       w_versions w' = Some doc
       /\ is_Some (last_checked doc)
       /\ stats doc = Some (summary doc (w_dirs w'))
       /\ total_packages (summary doc (w_dirs w')) = size (inventory w').
Proof.
  intros H. split.
  - destruct (check_and_download_inv env _ _ _ H)
      as (entries & doc & He & Hv & Hrest).
    cbv zeta in Hrest. destruct Hrest as (Hnew & Hkeep & _).
    intros k r Hk. unfold inventory at 1, loaded. rewrite Hv. simpl.
    destruct (Hkeep k ltac:(eauto)) as [r' Hr'].
    destruct (Hnew k r' Hr') as [Hold|(t & now & Hin & -> & _)]; [congruence|].
    apply scan_fold_in in Hin as [[]|[_ U]].
    apply is_update_true in U as [_ U]. congruence.
  - apply check_and_download_saved in H as (data & w1 & ->).
    eexists. split; [reflexivity|].
    split; [simpl; eauto|]. split; [reflexivity|].
    rewrite summary_total_packages. reflexivity.
Qed.

Lemma run_keeps_records_witness :
  let w' := (check_and_download (mirror "16.5M" (Respond nadia_archive))
               stocked_world).2 in
  is_Some (inventory w' !! "nadia_1.3").
Proof.
  intros w'.
  destruct (run_keeps_records (mirror "16.5M" (Respond nadia_archive))
              stocked_world w' true) as [K _].
  - vm_compute. reflexivity.
  - eexists. apply K. vm_compute. reflexivity.
Defined.

(** X13.  Whatever happens, [check_and_download] removes nothing from the
    output tree, and no temporary directory of its downloads is left (a
    download written outside its temporary directory is another matter).
    When it returns [True] the directory [OUTPUT_DIR] exists, even if
    every download failed; when it returns [False] the tree is exactly
    what it was. *)
Theorem run_only_adds (env : Env) (w : World) :
  let r := check_and_download env w in
  grows (w_dirs w) (w_dirs r.2)
  /\ w_tmp r.2 = w_tmp w
  /\ (r.1 = Ok true -> is_Some (w_dirs r.2 !! OUTPUT_DIR))
  /\ (r.1 = Ok false -> w_dirs r.2 = w_dirs w).
Proof.
  intros r. subst r.
  pose proof (check_and_download_steps env w) as S.
  pose proof (check_for_updates_only_sleeps env w) as Hs.
  destruct (check_for_updates env w) as [[[versions [new upd]]|e] wa].
  - simpl in Hs. destruct Hs as (_ & D & T0 & _).
    destruct (new ++ upd) as [|t0 rest].
    + rewrite S. simpl.
      split; [rewrite D; apply grows_refl|]. split; [exact T0|].
      split; [discriminate | auto].
    + destruct (makedirs_run env OUTPUT_DIR wa)
        as (rm & wm & Hm & (_ & Tm & _) & Am & Sm).
      rewrite Hm in S. rewrite D in Am.
      destruct rm as [[]|e].
      * destruct S as (existing' & wl & Hl & ->). simpl.
        assert (A : only_adds wm wl).
        { change wl with ((Ok existing', wl).2). rewrite <- Hl.
          apply process_loop_only_adds. }
        destruct A as [G T].
        split; [eapply grows_trans; [eapply grows_adds_dirs, Am | exact G]|].
        split; [congruence|]. split; [|discriminate]. intros _.
        destruct (Sm eq_refl OUTPUT_DIR) as [fs Hfs]; [left; reflexivity|].
        destruct (G _ _ Hfs) as (fs' & -> & _). eauto.
      * rewrite S. simpl.
        split; [eapply grows_adds_dirs, Am|]. split; [congruence|].
        split; discriminate.
  - rewrite S. simpl in *. destruct Hs as (_ & D & T & _).
    split; [rewrite D; apply grows_refl|]. split; [exact T|].
    split; discriminate.
Qed.

(** ** Update Orchestrator: when the listing cannot be read *)

Section ListingFailure.

Variable env : Env.






End ListingFailure.



(** ** Update Orchestrator: an unreachable server *)

Section Unreachable.

Variable env : Env.

Lemma fetch_page_gives_up (url : string) (w : World) :
  (forall i, (i < MAX_RETRIES)%nat -> retryable (net_page env url i) = true) ->
  (fetch_page env url w).1 = Ok EmptyString.
Proof.
  intros H. unfold fetch_page. change MAX_RETRIES with 3%nat in *.
  rewrite fetch_loop_retry by (try lia; apply H; lia).
  rewrite fetch_loop_retry by (try lia; apply H; lia).
  rewrite fetch_loop_step.
  pose proof (H 2%nat ltac:(lia)) as H2.
  destruct (net_page env url 2) as [body|[]]; try discriminate.
  - simpl in H2. rewrite H2. reflexivity.
  - reflexivity.
Qed.

Lemma no_directories (w : World) :
  (forall i, (i < MAX_RETRIES)%nat ->
             retryable (net_page env (BASE_URL +:+ "/") i) = true) ->
  re_findall_dirs env EmptyString = [] ->
  (get_package_directories env w).1 = Ok [].
Proof.
  intros H Hre. unfold get_package_directories.
  rewrite (run_bind _ _ w _ (fetch_page_gives_up _ w H)).
  unfold ret. simpl. rewrite Hre. reflexivity.
Qed.

End Unreachable.

(** X15.  When the index page cannot be had (every one of the
    [MAX_RETRIES] attempts ends in a 429, a 503 or a [URLError]),
    [fetch_page] gives the empty page, in which no directory link is found,
    and the failure goes unnoticed: [has_updates] answers [False], and
    [check_and_download] returns [False] after rewriting the inventory file
    with the records it had, leaving the output tree alone. *)
Theorem unreachable_server_means_no_updates (env : Env) (w : World) :
  (forall i, (i < MAX_RETRIES)%nat ->
             retryable (net_page env (BASE_URL +:+ "/") i) = true) ->
  re_findall_dirs env EmptyString = [] ->
  (has_updates env w).1 = Ok false
  /\ exists w',
       check_and_download env w = (Ok false, w')
       /\ inventory w' = inventory w
       /\ w_dirs w' = w_dirs w.
Proof.
  intros H Hre.
  assert (Hr : (remote_entries env w).1 = Ok []).
  { apply (remote_entries_run env w [] []);
      [apply no_directories; assumption | constructor]. }
  split; [apply (has_updates_run env w [] Hr)|].
  destruct (check_and_download_idle env w (loaded w)
              (check_for_updates_run env w [] Hr))
    as (w' & Hc & (lc & st & Hv) & D & _).
  exists w'. split; [exact Hc|]. split; [|exact D].
  unfold inventory at 1, loaded at 1. rewrite Hv. reflexivity.
Qed.

Lemma unreachable_server_means_no_updates_witness :
  (has_updates (server_of (Fails URLError)) stocked_world).1 = Ok false
  /\ exists w',
       check_and_download (server_of (Fails URLError)) stocked_world = (Ok false, w')
       /\ inventory w' = inventory stocked_world
       /\ w_dirs w' = w_dirs stocked_world.
Proof.
  apply (unreachable_server_means_no_updates (server_of (Fails URLError))
           stocked_world).
  - intros i _. reflexivity.
  - reflexivity.
Defined.

(** ** Inventory Store: the statistics *)

Section SummaryFacts.

Lemma mint_releases_positive (k : string) (v : Z) :
  assoc k mint_releases = Some v -> 0 < v.
Proof.
  assert (G : forall l, Forall (fun p : string * Z => 0 < p.2) l ->
                        assoc k l = Some v -> 0 < v).
  { induction l as [|[k' v'] l IH]; simpl; intros F H; [discriminate|].
    inversion F; subst.
    destruct (String.eqb k k'); [inversion H; subst; assumption | auto]. }
  apply G. unfold mint_releases. repeat (constructor; [simpl; lia|]).
  constructor.
Qed.

(** What one iteration of the loop over [OUTPUT_DIR] does to
    [latest_name] and [latest_version]. *)
Lemma count_item_latest (acc : totals) (entry : string * gmap string file) :
  ((count_item acc entry).1.2, (count_item acc entry).2)
  = match child_name OUTPUT_DIR entry.1 with
    | Some item =>
        match assoc (lower item) mint_releases with
        | Some v =>
            if acc.2 <? v then (Some (capitalize item), v) else (acc.1.2, acc.2)
        | None => (acc.1.2, acc.2)
        end
    | None => (acc.1.2, acc.2)
    end.
Proof.
  destruct acc as [[[ti ts] ln] lv]. unfold count_item.
  destruct (child_name OUTPUT_DIR entry.1) as [item|]; [|reflexivity].
  destruct (fold_left count_file (map_to_list entry.2) (ti, ts)) as [ti' ts'].
  destruct (assoc (lower item) mint_releases) as [v|]; [|reflexivity].
  simpl. destruct (lv <? v); reflexivity.
Qed.

Lemma fold_latest (l : list (string * gmap string file)) (acc : totals) :
  let r := fold_left count_item l acc in
  let rl := omap (fun entry : string * gmap string file =>
                    match child_name OUTPUT_DIR entry.1 with
                    | Some item =>
                        match assoc (lower item) mint_releases with
                        | Some v => Some (item, v)
                        | None => None
                        end
                    | None => None
                    end) l in
  acc.2 <= r.2
  /\ (forall item v, In (item, v) rl -> v <= r.2)
  /\ ((r.1.2 = acc.1.2 /\ r.2 = acc.2)
      \/ exists item, In (item, r.2) rl /\ r.1.2 = Some (capitalize item)).
Proof.
  revert acc. induction l as [|x l IH]; intros acc; cbv zeta.
  - simpl. split; [lia|]. split; [intros ? ? []|auto].
  - cbn [fold_left omap list_omap].
    specialize (IH (count_item acc x)). cbv zeta in IH.
    destruct IH as (Hle & Hall & Hlast).
    pose proof (count_item_latest acc x) as C.
    destruct (child_name OUTPUT_DIR x.1) as [item|].
    + destruct (assoc (lower item) mint_releases) as [v|].
      * destruct (Z.ltb_spec acc.2 v) as [Hlt|Hge]; inversion C as [[C1 C2]];
          rewrite C2 in *; rewrite C1 in *.
        -- split; [lia|]. split.
           ++ intros i v' [E|Hin]; [inversion E; subst; exact Hle | eauto].
           ++ right. destruct Hlast as [[L1 L2]|(i & Hin & L)].
              ** exists item. rewrite L1, L2. split; [left; reflexivity|reflexivity].
              ** exists i. split; [right; exact Hin | exact L].
        -- split; [exact Hle|]. split.
           ++ intros i v' [E|Hin]; [inversion E; subst; lia | eauto].
           ++ destruct Hlast as [L|(i & Hin & L)]; [left; exact L|].
              right. exists i. split; [right; exact Hin | exact L].
      * inversion C as [[C1 C2]]. rewrite C2 in *; rewrite C1 in *. auto.
    + inversion C as [[C1 C2]]. rewrite C2 in *; rewrite C1 in *. auto.
Qed.

Lemma summary_latest (data : InventoryFile)
    (dirs : gmap string (gmap string file)) :
  let found := match dirs !! OUTPUT_DIR with
               | Some _ => fold_left count_item (map_to_list dirs) (0%nat, 0, None, 0)
               | None => (0%nat, 0, None, 0)
               end in
  latest_mint_release (summary data dirs) = found.1.2
  /\ latest_mint_version (summary data dirs) = found.2.
Proof.
  unfold summary.
  destruct (match dirs !! OUTPUT_DIR with
            | Some _ => fold_left count_item (map_to_list dirs) (0%nat, 0, None, 0)
            | None => (0%nat, 0, None, 0)
            end) as [[[ti ts] ln] lv].
  split; reflexivity.
Qed.

End SummaryFacts.

(** X16.  When [save_versions] returns, the inventory file holds the
    document it was given, with [last_checked] set to the time of the call
    and with statistics of which [total_packages] is the number of
    records, [latest_mint_version] is the greatest release number among
    the directories of [OUTPUT_DIR] named (in any letter case) after a Mint
    release, and [latest_mint_release] is the capitalized name of such a
    directory with that number; both are [None] and [0] when there is no
    such directory or no [OUTPUT_DIR].  The output tree is left alone. *)
Theorem save_versions_latest_release (data : InventoryFile) (w w' : World) :
  save_versions data w = (Ok tt, w') ->
  w_dirs w' = w_dirs w
  /\ exists st : Stats,
       w_versions w' = Some {| packages := packages data;
                               last_checked := Some (w_clock w);
                               stats := Some st |}
       /\ total_packages st = size (default ∅ (packages data))
       /\ latest_release_of (w_dirs w) (release_dirs (w_dirs w)) st.
Proof.
  intros Hrun.
  assert (Hw : w' = (save_versions data w).2) by (rewrite Hrun; reflexivity).
  subst w'. clear Hrun. split; [reflexivity|].
  exists (summary data (w_dirs w)). split; [reflexivity|].
  split; [apply summary_total_packages|].
  unfold latest_release_of.
  destruct (summary_latest data (w_dirs w)) as [R V].
  rewrite R, V. clear R V.
  destruct (w_dirs w !! OUTPUT_DIR); [|split; reflexivity].
  destruct (fold_latest (map_to_list (w_dirs w)) (0%nat, 0, None, 0))
    as (Hle & Hall & Hlast).
  fold (release_dirs (w_dirs w)) in Hall, Hlast.
  split; [exact Hall|].
  destruct (release_dirs (w_dirs w)) as [|[item v] rest] eqn:RD.
  - destruct Hlast as [[L1 L2]|(i & [] & _)]. auto.
  - destruct Hlast as [[L1 L2]|Hex]; [|exact Hex].
    exfalso.
    assert (Hin : In (item, v) (release_dirs (w_dirs w)))
      by (rewrite RD; left; reflexivity).
    assert (Hpos : 0 < v).
    { unfold release_dirs in Hin.
      apply list_elem_of_In, list_elem_of_omap in Hin as ([p fs] & _ & Hf).
      cbn [fst] in Hf.
      destruct (child_name OUTPUT_DIR p) as [it|]; [|discriminate].
      destruct (assoc (lower it) mint_releases) as [v'|] eqn:A; [|discriminate].
      inversion Hf; subst. eapply mint_releases_positive, A. }
    rewrite RD in Hin. specialize (Hall item v Hin).
    simpl in L2. lia.
Qed.

Lemma save_versions_latest_release_witness :
  w_dirs (save_versions (loaded nadia_world) nadia_world).2 = w_dirs nadia_world
  /\ exists st : Stats,
       w_versions (save_versions (loaded nadia_world) nadia_world).2
       = Some {| packages := packages (loaded nadia_world);
                 last_checked := Some (w_clock nadia_world);
                 stats := Some st |}
       /\ total_packages st = size (default ∅ (packages (loaded nadia_world)))
       /\ latest_release_of (w_dirs nadia_world)
            (release_dirs (w_dirs nadia_world)) st.
Proof.
  apply (save_versions_latest_release (loaded nadia_world) nadia_world
           (save_versions (loaded nadia_world) nadia_world).2).
  reflexivity.
Defined.

(** ** Entry point *)

Section MainFacts.

Lemma check_only_flag (argv : list string) :
  (1 <? length argv)%nat && String.eqb (nth 1 argv EmptyString) "--check-only"
  = true
  <-> nth_error argv 1 = Some "--check-only".
Proof.
  destruct argv as [|a [|b rest]]; simpl; split; try discriminate.
  - intros H. apply String.eqb_eq in H. congruence.
  - intros H. inversion H. reflexivity.
Qed.

End MainFacts.

(** X17.  The script exits with status 0 whenever it finishes without an
    exception, in both modes and whatever was found.  With [--check-only]
    as its first argument it runs [has_updates] and nothing else: it writes
    nothing, fails exactly when [has_updates] does, and prints
    [Updates available] or [No updates] after its answer.  With any other
    arguments (the flag further on included) it runs [check_and_download]
    and prints no verdict. *)
Theorem main_modes (env : Env) (argv : list string) (w : World) :
  let r := main env argv w in
  (forall o, r.1 = Ok o -> exit_status o = 0)
  /\ (nth_error argv 1 = Some "--check-only" ->
      only_sleeps w r.2
      /\ outcome r.1 = outcome (has_updates env w).1
      /\ forall o, r.1 = Ok o ->
           exists b : bool,
             (has_updates env w).1 = Ok b
             /\ verdict o = Some (if b then "Updates available" else "No updates"))
  /\ (nth_error argv 1 <> Some "--check-only" ->
      r.2 = (check_and_download env w).2
      /\ outcome r.1 = outcome (check_and_download env w).1
      /\ forall o, r.1 = Ok o -> verdict o = None).
Proof.
  intros r. subst r. unfold main.
  pose proof (check_only_flag argv) as F.
  destruct ((1 <? length argv)%nat
            && String.eqb (nth 1 argv EmptyString) "--check-only").
  - pose proof (has_updates_only_sleeps env w) as Hs.
    unfold bind. destruct (has_updates env w) as [[[|]|e] w1]; simpl in *.
    + split; [intros o H; inversion H; reflexivity|].
      split; [|intros N; exfalso; apply N, F; reflexivity].
      intros _. split; [exact Hs|]. split; [reflexivity|].
      intros o H. inversion H. exists true. auto.
    + split; [intros o H; inversion H; reflexivity|].
      split; [|intros N; exfalso; apply N, F; reflexivity].
      intros _. split; [exact Hs|]. split; [reflexivity|].
      intros o H. inversion H. exists false. auto.
    + split; [discriminate|].
      split; [|intros N; exfalso; apply N, F; reflexivity].
      intros _. split; [exact Hs|]. split; [reflexivity|]. discriminate.
  - assert (N : nth_error argv 1 <> Some "--check-only")
      by (intros H; apply F in H; discriminate).
    unfold bind. destruct (check_and_download env w) as [[b|e] w1]; simpl.
    + split; [intros o H; inversion H; reflexivity|].
      split; [intros H; contradiction|].
      intros _. split; [reflexivity|]. split; [reflexivity|].
      intros o H. inversion H. reflexivity.
    + split; [discriminate|].
      split; [intros H; contradiction|].
      intros _. split; [reflexivity|]. split; [reflexivity|]. discriminate.
Qed.

Lemma main_modes_witness :
  let env := mirror "16.5M" (Respond nadia_archive) in
  (main env ["download_backgrounds.py"; "--check-only"] empty_world).1
  = Ok {| exit_status := 0; verdict := Some "Updates available" |}
  /\ only_sleeps empty_world
       (main env ["download_backgrounds.py"; "--check-only"] empty_world).2
  /\ forall o,
       (main env ["download_backgrounds.py"; "-v"; "--check-only"] empty_world).1
       = Ok o -> verdict o = None.
Proof.
  intros env. split; [vm_compute; reflexivity|]. split.
  - apply (proj1 (proj2 (main_modes env ["download_backgrounds.py"; "--check-only"]
                           empty_world))).
    reflexivity.
  - apply (proj2 (proj2 (main_modes env
                           ["download_backgrounds.py"; "-v"; "--check-only"]
                           empty_world))).
    simpl. intros H. inversion H.
Defined.
